(** * Route finder: graph construction, shortest-path search, itinerary

    A shallow embedding of [main.py]: [build_graph_from_excel], [dijkstra],
    [view_on_map] and the segment loop of [main].

    Numbers.  World coordinates are integers ([Z]); the rail distance is
    computed on [numpy.int64] values and wraps around ([int64]).  Travel
    times are the quotients [distance / speed].  The definitions of the
    first part keep them exact, as rationals ([Q]), compared with
    [Qcompare], the numeric comparison Python applies to them; the module
    [Rounded] gives the same functions with the result of every operation
    rounded, and [round64] the rounding of doubles.
    [math.hypot] is not part of the repository: it is a parameter of the
    graph builder; the properties of the built graph assume that it is
    positive away from the origin (Section [BuilderClaims]) or that it is
    never negative (Section [Queries]). *)

From Stdlib Require Import Ascii QArith Qround Lqa.
From stdpp Require Import gmap strings pretty list fin_maps.

Local Open Scope Z_scope.

(** ** Data model *)

(** A node of the graph: the tuple [(x, z)]. *)
Definition Point : Type := Z * Z.

(** One element of the list [dijkstra] builds: either [(node, time_so_far)]
    or the marker [("mode", mode)]. *)
Inductive elem : Type :=
| Hop (p : Point) (t : Q)
| Mode (m : string).

Abbreviation trace := (list elem)%type.

(** An entry of an adjacency list: [(neighbor, weight, mode)]. *)
Abbreviation edge := (Point * Q * string)%type.

(** An entry of the priority queue: [(time_so_far, node, path)]. *)
Abbreviation entry := (Q * Point * trace)%type.

(** [graph.get(node, [])] *)
Definition graph_get (graph : gmap Point (list edge)) (node : Point) : list edge :=
  default [] (graph !! node).

(** ** Tuple ordering used by [heapq]

    [heapq] orders the entries with Python's [<] on tuples: by time, then by
    node, then by path, each lexicographically. *)

Definition lex (c1 c2 : comparison) : comparison :=
  match c1 with Eq => c2 | _ => c1 end.

Definition Point_compare (p q : Point) : comparison :=
  lex (fst p ?= fst q) (snd p ?= snd q).

(** Python raises [TypeError] when it orders a hop against a marker.  Two
    queued paths hold elements of the same kind at the same position, so
    that the search never does (lemma [queued_paths_comparable]); the two
    mixed cases below are not reached. *)
Definition elem_compare (a b : elem) : comparison :=
  match a, b with
  | Hop p t, Hop q u => lex (Point_compare p q) (Qcompare t u)
  | Mode m, Mode n => String.compare m n
  | Hop _ _, Mode _ => Gt
  | Mode _, Hop _ _ => Lt
  end.

Fixpoint trace_compare (a b : trace) : comparison :=
  match a, b with
  | [], [] => Eq
  | [], _ :: _ => Lt
  | _ :: _, [] => Gt
  | x :: a', y :: b' => lex (elem_compare x y) (trace_compare a' b')
  end.

Definition entry_compare (a b : entry) : comparison :=
  let '(t, n, p) := a in
  let '(u, m, q) := b in
  lex (Qcompare t u) (lex (Point_compare n m) (trace_compare p q)).

Definition entry_leb (a b : entry) : bool :=
  match entry_compare a b with Gt => false | _ => true end.

(** [heapq.heappop] on the non-empty heap [e :: queue]: the least entry and
    the remaining entries.  The heap is kept as the multiset of its entries;
    which of them is popped depends on their order only. *)
Fixpoint heappop (e : entry) (queue : list entry) : entry * list entry :=
  match queue with
  | [] => (e, [])
  | e' :: queue' =>
      let '(m, rest) := heappop e' queue' in
      if entry_leb e m then (e, e' :: queue') else (m, e :: rest)
  end.

Definition heappush (queue : list entry) (e : entry) : list entry := e :: queue.

(** ** dijkstra *)

(** Result of a loop run with a bound on its iterations. *)
Inductive run (A : Type) : Type :=
| OutOfFuel
| Ret (a : A).
Arguments OutOfFuel {A}.
Arguments Ret {A} a.

(** The [for (neighbor, weight, mode) in graph.get(node, [])] loop. *)
Fixpoint push_neighbors (time_so_far : Q) (path : trace) (seen : gset Point)
    (edges : list edge) (queue : list entry) : list entry :=
  match edges with
  | [] => queue
  | (neighbor, weight, mode) :: edges' =>
      let queue' :=
        if decide (neighbor ∈ seen) then queue
        else heappush queue ((time_so_far + weight)%Q, neighbor, path ++ [Mode mode]) in
      push_neighbors time_so_far path seen edges' queue'
  end.

(** The [while queue] loop; the result [None] is Python's [None]. *)
Fixpoint dijkstra_loop (fuel : nat) (graph : gmap Point (list edge)) (goal : Point)
    (queue : list entry) (seen : gset Point) : run (option trace) :=
  match fuel with
  | O => OutOfFuel
  | S fuel' =>
      match queue with
      | [] => Ret None
      | e :: q =>
          let '((time_so_far, node, path), queue') := heappop e q in
          if decide (node ∈ seen) then dijkstra_loop fuel' graph goal queue' seen
          else
            let seen' := {[node]} ∪ seen in
            let path' := path ++ [Hop node time_so_far] in
            if decide (node = goal) then Ret (Some path')
            else dijkstra_loop fuel' graph goal
                   (push_neighbors time_so_far path' seen' (graph_get graph node) queue')
                   seen'
      end
  end.

(** Number of adjacency entries of the nodes not yet expanded. *)
Definition unexpanded (graph : gmap Point (list edge)) (seen : gset Point) : nat :=
  sum_list_with (λ kv : Point * list edge,
                   if decide (kv.1 ∈ seen) then O else length kv.2) (map_to_list graph).

(** Every node is expanded once, and pushes at most its adjacency list:
    the loop runs at most [1 + unexpanded graph ∅] times before the queue is
    empty (theorem [dijkstra_terminates]). *)
Definition dijkstra_fuel (graph : gmap Point (list edge)) : nat :=
  S (S (unexpanded graph ∅)).

Definition dijkstra (graph : gmap Point (list edge)) (start goal : Point) : run (option trace) :=
  dijkstra_loop (dijkstra_fuel graph) graph goal [(0%Q, start, [])] ∅.

(** ** Graph builder *)

(** A row of the data frame: the columns [Location], [X], [Z], [Owner],
    [Type] and [Path]; a missing [Path] (NaN) is [None]. *)
Record row : Type := {
  row_Location : string;
  row_X : Z;
  row_Z : Z;
  row_Owner : string;
  row_Type : string;
  row_Path : option string
}.

Definition row_coord (r : row) : Point := (row_X r, row_Z r).

(** The value of a [numpy.int64] result: the integer taken modulo [2^64]
    into [-2^63 .. 2^63 - 1]. *)
Definition int64 (n : Z) : Z :=
  (n + 9223372036854775808) mod 18446744073709551616 - 9223372036854775808.

(** [manhattan_distance] as its one call evaluates it, on the
    [numpy.int64] coordinates of the rows of a group: the two subtractions,
    the two [abs] and the sum wrap around. *)
Definition manhattan_distance (p1 p2 : Point) : Z :=
  int64 (int64 (Z.abs (int64 (fst p1 - fst p2))) + int64 (Z.abs (int64 (snd p1 - snd p2)))).

(** [sub in s] on strings. *)
Fixpoint contains (sub s : string) : bool :=
  if String.prefix sub s then true
  else match s with
       | EmptyString => false
       | String _ s' => contains sub s'
       end.

(** [graph[p].append(e)] on the [defaultdict(list)]. *)
Definition graph_append (graph : gmap Point (list edge)) (p : Point) (e : edge)
  : gmap Point (list edge) :=
  <[p := graph_get graph p ++ [e]]> graph.

(** The dictionaries filled by the first loop.  [name_to_coord] and
    [owner_lookup] keep their insertion order, which [list(....values())]
    and [....keys()] expose. *)
Record locations : Type := {
  loc_name_to_coord : list (string * Point);
  loc_owner_lookup : list (string * string);
  loc_types_lookup : gmap Point string;
  loc_ice_highways : list Point
}.

Definition no_locations : locations :=
  {| loc_name_to_coord := []; loc_owner_lookup := [];
     loc_types_lookup := ∅; loc_ice_highways := [] |}.

(** Body of [for _, row in df.iterrows()]. *)
Definition collect_location (st : locations) (r : row) : locations :=
  let location := row_Location r in
  let coord := row_coord r in
  if decide (location ∈ (loc_name_to_coord st).*1) then st
  else
    {| loc_name_to_coord := loc_name_to_coord st ++ [(location, coord)];
       loc_owner_lookup := loc_owner_lookup st ++ [(location, row_Owner r)];
       loc_types_lookup := <[coord := row_Type r]> (loc_types_lookup st);
       loc_ice_highways :=
         if contains "Ice Highway" (row_Type r)
         then loc_ice_highways st ++ [coord]
         else loc_ice_highways st |}.

Definition collect_locations (df : list row) : locations :=
  fold_left collect_location df no_locations.

(** [df.groupby("Path")]: one group per distinct non-missing [Path], the
    groups in increasing order of their key, the rows of a group in the
    order of the data frame. *)
Fixpoint insert_key (k : string) (keys : list string) : list string :=
  match keys with
  | [] => [k]
  | k' :: keys' =>
      match String.compare k k' with
      | Lt => k :: k' :: keys'
      | Eq => k' :: keys'
      | Gt => k' :: insert_key k keys'
      end
  end.

Definition group_keys (df : list row) : list string :=
  fold_right insert_key [] (omap row_Path df).

Definition has_path (k : string) (r : row) : bool :=
  match row_Path r with
  | Some k' => String.eqb k k'
  | None => false
  end.

Definition groupby_Path (df : list row) : list (option string * list row) :=
  (λ k, (Some k, List.filter (has_path k) df)) <$> group_keys df.

(** Body of [for path, group in grouped]: the graph and
    [coord_pair_to_path] after it. *)
Definition add_route (st : gmap Point (list edge) * gmap (Point * Point) string)
    (pg : option string * list row) : gmap Point (list edge) * gmap (Point * Point) string :=
  let '(graph, coord_pair_to_path) := st in
  match pg with
  | (Some path, [p1_row; p2_row]) =>
      let p1 := row_coord p1_row in
      let p2 := row_coord p2_row in
      let distance := manhattan_distance p1 p2 in
      let travel_time := (inject_Z distance / 8)%Q in
      let graph := graph_append graph p1 (p2, travel_time, "normal") in
      let graph := graph_append graph p2 (p1, travel_time, "normal") in
      (graph, <[(p2, p1) := path]> (<[(p1, p2) := path]> coord_pair_to_path))
  | _ => st  (* len(group) != 2 or pd.isna(path) *)
  end.

(** The pairs [(l[i], l[j])] for [i < j], in the order of the two nested
    [range] loops. *)
Fixpoint index_pairs {A : Type} (l : list A) : list (A * A) :=
  match l with
  | [] => []
  | x :: l' => (pair x <$> l') ++ index_pairs l'
  end.

(** What [build_graph_from_excel] returns. *)
Record built : Type := {
  graph : gmap Point (list edge);
  name_to_coord : list (string * Point);
  owner_lookup : list (string * string);
  types_lookup : gmap Point string;
  coord_pair_to_path : gmap (Point * Point) string
}.

Section Builder.

(** [math.hypot], applied to the two coordinate differences. *)
Variable hypot : Z -> Z -> Q.

Definition euclidean_distance (p1 p2 : Point) : Q :=
  hypot (fst p1 - fst p2) (snd p1 - snd p2).

(** Body of the two pair loops, for the speed and mode of the loop. *)
Definition add_pair (speed : Z) (mode : string) (graph : gmap Point (list edge))
    (pq : Point * Point) : gmap Point (list edge) :=
  let '(p1, p2) := pq in
  let distance := euclidean_distance p1 p2 in
  let travel_time := (distance / inject_Z speed)%Q in
  let graph := graph_append graph p1 (p2, travel_time, mode) in
  graph_append graph p2 (p1, travel_time, mode).

Definition build_graph_from_excel (df : list row) (include_ice_highways : bool) : built :=
  let locs := collect_locations df in
  let '(graph, coord_pair_to_path) := fold_left add_route (groupby_Path df) (∅, ∅) in
  let graph :=
    if include_ice_highways
    then fold_left (add_pair 72 "ice") (index_pairs (loc_ice_highways locs)) graph
    else graph in
  let coords := (loc_name_to_coord locs).*2 in
  let graph := fold_left (add_pair 3 "walk") (index_pairs coords) graph in
  {| graph := graph;
     name_to_coord := loc_name_to_coord locs;
     owner_lookup := loc_owner_lookup locs;
     types_lookup := loc_types_lookup locs;
     coord_pair_to_path := coord_pair_to_path |}.

End Builder.


(** ** Itinerary *)

(** One entry of [route_steps].  The source keeps the rendered text of a
    step; the model keeps the values it is rendered from. *)
Record route_step : Type := {
  step_mode : string;
  step_from : Point;
  step_to : Point;
  step_distance : Q;
  step_time : Q
}.

(** The values main stores in [st.session_state.route_results]. *)
Record route_results : Type := {
  total_time : Q;
  total_distance : Q;
  route_steps : list route_step;
  rail_paths : list string
}.

(** [{"normal": 8, "ice": 72, "walk": 3}.get(mode, 1)] *)
Definition mode_speed (mode : string) : Q :=
  if String.eqb mode "normal" then 8%Q
  else if String.eqb mode "ice" then 72%Q
  else if String.eqb mode "walk" then 3%Q
  else 1%Q.

(** [range(0, stop, 2)] *)
Definition range2 (stop : nat) : list nat :=
  (λ k, 2 * k)%nat <$> seq 0 (Nat.div2 (S stop)).

(** The [for i in range(0, len(path) - 2, 2)] loop over the indices [idx]
    still to visit.  [None] stands for the exception the body raises when
    [path[i]] or [path[i + 2]] is not a hop, or [path[i + 1]] not a mode
    marker (the subtraction of the times, or [mode.title()], fails). *)
Fixpoint segment_loop (coord_pair_to_path : gmap (Point * Point) string)
    (path : trace) (idx : list nat) (st : route_results) : option route_results :=
  match idx with
  | [] => Some st
  | i :: idx' =>
      if decide (length path ≤ i + 2)%nat then Some st  (* break *)
      else
        match path !! i, path !! (i + 1)%nat, path !! (i + 2)%nat with
        | Some (Hop coord time), Some (Mode mode), Some (Hop next_coord next_time) =>
            let segment_time := (next_time - time)%Q in
            let speed := mode_speed mode in
            let distance := (segment_time * speed)%Q in
            let rail_paths :=
              if String.eqb mode "normal" then
                match coord_pair_to_path !! (coord, next_coord) with
                | Some path_name =>
                    if String.eqb path_name "" then rail_paths st
                    else rail_paths st ++ [path_name]
                | None => rail_paths st
                end
              else rail_paths st in
            segment_loop coord_pair_to_path path idx'
              {| total_time := next_time;
                 total_distance := (total_distance st + distance)%Q;
                 route_steps := route_steps st ++
                   [{| step_mode := mode; step_from := coord; step_to := next_coord;
                       step_distance := distance; step_time := segment_time |}];
                 rail_paths := rail_paths |}
        | _, _, _ => None
        end
  end.

Definition reconstruct (coord_pair_to_path : gmap (Point * Point) string) (path : trace)
  : option route_results :=
  segment_loop coord_pair_to_path path (range2 (length path - 2))
    {| total_time := 0%Q; total_distance := 0%Q; route_steps := []; rail_paths := [] |}.

(** ** Queries *)

Definition lower_ascii (c : Ascii.ascii) : Ascii.ascii :=
  let n := Ascii.N_of_ascii c in
  if ((65 <=? n) && (n <=? 90))%N then Ascii.ascii_of_N (n + 32) else c.

(** [s.lower()], on ASCII letters. *)
Fixpoint lower (s : string) : string :=
  match s with
  | EmptyString => EmptyString
  | String c s' => String (lower_ascii c) (lower s')
  end.

(** [d[k]] on an insertion-ordered dictionary; [None] is [KeyError]. *)
Fixpoint dict_get {V : Type} (d : list (string * V)) (k : string) : option V :=
  match d with
  | [] => None
  | (k', v) :: d' => if String.eqb k k' then Some v else dict_get d' k
  end.

(** The location a queried name stands for: itself when known, else the
    first known name that contains it or is contained in it, ignoring
    case. *)
Definition resolve_name (name_to_coord : list (string * Point)) (name : string)
  : option string :=
  if decide (name ∈ name_to_coord.*1) then Some name
  else
    head (List.filter
            (λ loc, contains (lower name) (lower loc) || contains (lower loc) (lower name))
            name_to_coord.*1).

Inductive route_outcome : Type :=
| LocationNotFound
| NoPathFound
| RouteError
| RouteFound (r : route_results).

(** The [try] block of [main] for a query [(origin_name, dest_name)] and
    the state of the ice-highway check box. *)
Definition find_route (hypot : Z -> Z -> Q) (df : list row) (include_ice_highways : bool)
    (origin_name dest_name : string) : run route_outcome :=
  let b := build_graph_from_excel hypot df include_ice_highways in
  match resolve_name (name_to_coord b) origin_name with
  | None => Ret LocationNotFound
  | Some origin_name =>
      match resolve_name (name_to_coord b) dest_name with
      | None => Ret LocationNotFound
      | Some dest_name =>
          match dict_get (name_to_coord b) origin_name,
                dict_get (name_to_coord b) dest_name with
          | Some start, Some end_ =>
              match dijkstra (graph b) start end_ with
              | OutOfFuel => OutOfFuel
              | Ret None => Ret NoPathFound
              | Ret (Some []) => Ret NoPathFound
              | Ret (Some path) =>
                  match reconstruct (coord_pair_to_path b) path with
                  | Some r => Ret (RouteFound r)
                  | None => Ret RouteError
                  end
              end
          | _, _ => Ret RouteError
          end
      end
  end.

(** ** Map link *)

Definition is_unreserved (c : Ascii.ascii) : bool :=
  let n := Ascii.N_of_ascii c in
  (((65 <=? n) && (n <=? 90)) || ((97 <=? n) && (n <=? 122)) || ((48 <=? n) && (n <=? 57))
   || (n =? 95) || (n =? 46) || (n =? 45) || (n =? 126))%N.

Definition hex_digit (n : N) : Ascii.ascii :=
  if (n <? 10)%N then Ascii.ascii_of_N (48 + n) else Ascii.ascii_of_N (55 + n).

Fixpoint char_in (c : Ascii.ascii) (s : string) : bool :=
  match s with
  | EmptyString => false
  | String c' s' => Ascii.eqb c c' || char_in c s'
  end.

(** [urllib.parse.quote(s, safe=safe)] on the bytes of [s]. *)
Fixpoint quote (safe s : string) : string :=
  match s with
  | EmptyString => EmptyString
  | String c s' =>
      if is_unreserved c || char_in c safe then String c (quote safe s')
      else
        let n := Ascii.N_of_ascii c in
        String "%"%char (String (hex_digit (n / 16)) (String (hex_digit (n mod 16)) (quote safe s')))
  end.

Definition base_url : string :=
  "https://public.tableau.com/views/MinecraftRealmsAioniaMapTest/AioniaWayfinder?Show%20Trains=1&".

Definition embed_parameters : string :=
  "&:embed=yes&:showVizHome=no&:host_url=https%3A%2F%2Fpublic.tableau.com%2F&:embed_code_version=3&:tabs=no&:toolbar=yes&:showAppBanner=false&:display_spinner=no".

Definition view_on_map (rail_paths : list string) : option string :=
  match rail_paths with
  | [] => None
  | _ =>
      let paths_param := String.concat "," rail_paths in
      let encoded_paths := quote "," paths_param in
      Some (String.append base_url
              (String.append "Path=" (String.append encoded_paths embed_parameters)))
  end.

(** ** The rest of [main.py] *)

(** [coordinates_to_names] is called with the dictionary [coord_to_name]
    that [main] derives from [name_to_coord]:
    [{v: k for k, v in name_to_coord.items()}]. *)
Definition coord_to_name (name_to_coord : list (string * Point)) : gmap Point string :=
  fold_left (λ d kv, <[kv.2 := kv.1]> d) name_to_coord ∅.

(** [f"{n:02d}"] *)
Definition pad2 (n : Z) : string :=
  let s := pretty n in
  if (String.length s <? 2)%nat then String "0"%char s else s.

(** [format_time]: [seconds // 60] and [seconds % 60], each cut to an
    integer. *)
Definition format_time (seconds : Q) : string :=
  let minutes := Qfloor (seconds / 60) in
  let secs := Qfloor (seconds - 60 * inject_Z minutes) in
  String.append (pad2 minutes) (String.append ":" (pad2 secs)).

(** The entry of the selection boxes for a location: the name, followed by
    the owner unless it is empty, "Public Land", or part of the name. *)
Definition display_name (name owner : string) : string :=
  if negb (String.eqb owner "") && negb (String.eqb owner "Public Land")
     && negb (contains (lower owner) (lower name))
  then String.append name (String.append " (" (String.append owner ")"))
  else name.

(** The list [locations] of [main], before it is sorted. *)
Definition display_names (b : built) : list string :=
  (λ name, display_name name (default "" (dict_get (owner_lookup b) name)))
    <$> (name_to_coord b).*1.

Fixpoint insert_sorted (s : string) (l : list string) : list string :=
  match l with
  | [] => [s]
  | s' :: l' =>
      match String.compare s s' with
      | Gt => s' :: insert_sorted s l'
      | _ => s :: l
      end
  end.

(** [sorted(locations)] *)
Definition sorted (l : list string) : list string := fold_right insert_sorted [] l.

(** [st.session_state.locations] after a successful load. *)
Definition session_locations (hypot : Z -> Z -> Q) (df : list row) : list string :=
  sorted (display_names (build_graph_from_excel hypot df false)).

(** [s.split(sep)[0]], for a non-empty [sep]. *)
Fixpoint split_first (sep s : string) : string :=
  if String.prefix sep s then EmptyString
  else match s with
       | EmptyString => EmptyString
       | String c s' => String c (split_first sep s')
       end.

(** [s.endswith(suffix)] *)
Definition ends_with (s suffix : string) : bool :=
  (String.length suffix <=? String.length s)%nat &&
  String.eqb (String.substring (String.length s - String.length suffix)
                (String.length suffix) s) suffix.

Definition extract_location_name (display_name : string) : string :=
  if contains " (" display_name && ends_with display_name ")"
  then split_first " (" display_name
  else display_name.

(** What [main] keeps in [st.session_state.route_results]; [path_found] is
    [True] in every dictionary it stores. *)
Record stored_route : Type := {
  origin_name : string;
  dest_name : string;
  stored_results : route_results
}.

(** What the Route Details column shows. *)
Inductive feedback : Type :=
| ShowNothing
| ShowStored
| ShowNewRoute
| WarnSameEnds
| WarnSelectBoth
| ErrorUnknownLocation
| ErrorNoPath
| ErrorException.

(** The Route Details column of [main]: the new value of
    [st.session_state.route_results] and what is shown, for the stored value,
    the Find button, the two selections (the empty string when nothing is
    selected) and the check box.  The two map buttons leave
    [route_results] as it is. *)
Definition route_details (hypot : Z -> Z -> Q) (df : list row)
    (route_results : option stored_route) (find_path : bool)
    (origin destination : string) (include_ice_highways : bool)
  : run (option stored_route * feedback) :=
  if (find_path && negb (String.eqb origin "") && negb (String.eqb destination ""))
     || bool_decide (is_Some route_results)
  then
    if negb find_path && bool_decide (is_Some route_results)
    then Ret (route_results, ShowStored)
    else if find_path then
      if String.eqb origin destination then Ret (route_results, WarnSameEnds)
      else
        let origin_name := extract_location_name origin in
        let dest_name := extract_location_name destination in
        let b := build_graph_from_excel hypot df include_ice_highways in
        match find_route hypot df include_ice_highways origin_name dest_name with
        | OutOfFuel => OutOfFuel
        | Ret LocationNotFound => Ret (route_results, ErrorUnknownLocation)
        | Ret NoPathFound => Ret (None, ErrorNoPath)
        | Ret RouteError => Ret (None, ErrorException)
        | Ret (RouteFound r) =>
            Ret (Some {| origin_name :=
                           default origin_name (resolve_name (name_to_coord b) origin_name);
                         dest_name :=
                           default dest_name (resolve_name (name_to_coord b) dest_name);
                         stored_results := r |},
                 ShowNewRoute)
        end
    else Ret (route_results, ShowNothing)
  else if find_path then Ret (None, WarnSelectBoth)
  else Ret (route_results, ShowNothing).

(** The nodes of the hops of a trace, in order. *)
Definition hop_nodes (path : trace) : list Point :=
  omap (λ e, match e with Hop p _ => Some p | Mode _ => None end) path.

(** Every edge out of a finalized node leads to a finalized node or to a
    node in the queue. *)
Definition covered (g : gmap Point (list edge)) (queue : list entry)
    (seen : gset Point) : Prop :=
  ∀ u, u ∈ seen -> ∀ v w m, (v, w, m) ∈ graph_get g u ->
       v ∈ seen ∨ ∃ e, e ∈ queue ∧ e.1.2 = v.

(** The characters [quote] leaves in its result. *)
Definition is_hex_digit (c : Ascii.ascii) : bool :=
  let n := Ascii.N_of_ascii c in
  (((48 <=? n) && (n <=? 57)) || ((65 <=? n) && (n <=? 70)))%N.

(** Every element of the string satisfies [P]. *)
Fixpoint string_forall (P : Ascii.ascii -> bool) (s : string) : bool :=
  match s with
  | EmptyString => true
  | String c s' => P c && string_forall P s'
  end.

(** ** The arithmetic of doubles

    The times of the program are Python [float]s, IEEE binary64: every
    operation returns the double nearest to the exact result, a tie going to
    the even significand.  [round64] is this rounding on the rationals, for
    results within the normal range of binary64 (no overflow and no
    subnormal number, which the distances and times of a sheet of [int64]
    coordinates do not reach). *)

(** [floor (log2 |q|)], for [q] other than zero. *)
Definition binade (q : Q) : Z :=
  let e := Z.log2 (Z.abs (Qnum q)) - Z.log2 (Zpos (Qden q)) in
  if Qle_bool (2 ^ e) (Z.abs (Qnum q) # Qden q) then e else e - 1.

(** The integer nearest to [q], the even one of the two when [q] is half
    way. *)
Definition round_half_even (q : Q) : Z :=
  let n := Qfloor q in
  match (q - inject_Z n ?= 1 # 2)%Q with
  | Lt => n
  | Gt => n + 1
  | Eq => if Z.even n then n else n + 1
  end.

(** The nearest number with a significand of 53 bits. *)
Definition round64 (q : Q) : Q :=
  if Qeq_bool q 0 then 0%Q
  else
    let scale := (2 ^ (52 - binade q))%Q in
    Qred (inject_Z (round_half_even (q * scale)) / scale).

(** The functions of the program that compute with times, with the
    result of every operation rounded by [rnd]: the identity gives the
    exact times of the definitions above, [round64] the times of the
    program. *)
Module Rounded.
Section Rounded.

Variable rnd : Q -> Q.
Variable hypot : Z -> Z -> Q.

(** [distance / 8] on the [numpy.int64] distance: the distance is
    converted to a double, then divided. *)
Definition add_route (st : gmap Point (list edge) * gmap (Point * Point) string)
    (pg : option string * list row) : gmap Point (list edge) * gmap (Point * Point) string :=
  let '(graph, coord_pair_to_path) := st in
  match pg with
  | (Some path, [p1_row; p2_row]) =>
      let p1 := row_coord p1_row in
      let p2 := row_coord p2_row in
      let distance := manhattan_distance p1 p2 in
      let travel_time := rnd (rnd (inject_Z distance) / 8) in
      let graph := graph_append graph p1 (p2, travel_time, "normal") in
      let graph := graph_append graph p2 (p1, travel_time, "normal") in
      (graph, <[(p2, p1) := path]> (<[(p1, p2) := path]> coord_pair_to_path))
  | _ => st
  end.

Definition add_pair (speed : Z) (mode : string) (graph : gmap Point (list edge))
    (pq : Point * Point) : gmap Point (list edge) :=
  let '(p1, p2) := pq in
  let distance := euclidean_distance hypot p1 p2 in
  let travel_time := rnd (distance / inject_Z speed) in
  let graph := graph_append graph p1 (p2, travel_time, mode) in
  graph_append graph p2 (p1, travel_time, mode).

Definition build_graph_from_excel (df : list row) (include_ice_highways : bool) : built :=
  let locs := collect_locations df in
  let '(graph, coord_pair_to_path) := fold_left add_route (groupby_Path df) (∅, ∅) in
  let graph :=
    if include_ice_highways
    then fold_left (add_pair 72 "ice") (index_pairs (loc_ice_highways locs)) graph
    else graph in
  let coords := (loc_name_to_coord locs).*2 in
  let graph := fold_left (add_pair 3 "walk") (index_pairs coords) graph in
  {| graph := graph;
     name_to_coord := loc_name_to_coord locs;
     owner_lookup := loc_owner_lookup locs;
     types_lookup := loc_types_lookup locs;
     coord_pair_to_path := coord_pair_to_path |}.

Fixpoint push_neighbors (time_so_far : Q) (path : trace) (seen : gset Point)
    (edges : list edge) (queue : list entry) : list entry :=
  match edges with
  | [] => queue
  | (neighbor, weight, mode) :: edges' =>
      let queue' :=
        if decide (neighbor ∈ seen) then queue
        else heappush queue (rnd (time_so_far + weight), neighbor, path ++ [Mode mode]) in
      push_neighbors time_so_far path seen edges' queue'
  end.

Fixpoint dijkstra_loop (fuel : nat) (graph : gmap Point (list edge)) (goal : Point)
    (queue : list entry) (seen : gset Point) : run (option trace) :=
  match fuel with
  | O => OutOfFuel
  | S fuel' =>
      match queue with
      | [] => Ret None
      | e :: q =>
          let '((time_so_far, node, path), queue') := heappop e q in
          if decide (node ∈ seen) then dijkstra_loop fuel' graph goal queue' seen
          else
            let seen' := {[node]} ∪ seen in
            let path' := path ++ [Hop node time_so_far] in
            if decide (node = goal) then Ret (Some path')
            else dijkstra_loop fuel' graph goal
                   (push_neighbors time_so_far path' seen' (graph_get graph node) queue')
                   seen'
      end
  end.

Definition dijkstra (graph : gmap Point (list edge)) (start goal : Point) : run (option trace) :=
  dijkstra_loop (dijkstra_fuel graph) graph goal [(0%Q, start, [])] ∅.

Fixpoint segment_loop (coord_pair_to_path : gmap (Point * Point) string)
    (path : trace) (idx : list nat) (st : route_results) : option route_results :=
  match idx with
  | [] => Some st
  | i :: idx' =>
      if decide (length path ≤ i + 2)%nat then Some st
      else
        match path !! i, path !! (i + 1)%nat, path !! (i + 2)%nat with
        | Some (Hop coord time), Some (Mode mode), Some (Hop next_coord next_time) =>
            let segment_time := rnd (next_time - time) in
            let speed := mode_speed mode in
            let distance := rnd (segment_time * speed) in
            let rail_paths :=
              if String.eqb mode "normal" then
                match coord_pair_to_path !! (coord, next_coord) with
                | Some path_name =>
                    if String.eqb path_name "" then rail_paths st
                    else rail_paths st ++ [path_name]
                | None => rail_paths st
                end
              else rail_paths st in
            segment_loop coord_pair_to_path path idx'
              {| total_time := next_time;
                 total_distance := rnd (total_distance st + distance);
                 route_steps := route_steps st ++
                   [{| step_mode := mode; step_from := coord; step_to := next_coord;
                       step_distance := distance; step_time := segment_time |}];
                 rail_paths := rail_paths |}
        | _, _, _ => None
        end
  end.

Definition reconstruct (coord_pair_to_path : gmap (Point * Point) string) (path : trace)
  : option route_results :=
  segment_loop coord_pair_to_path path (range2 (length path - 2))
    {| total_time := 0%Q; total_distance := 0%Q; route_steps := []; rail_paths := [] |}.

Definition find_route (df : list row) (include_ice_highways : bool)
    (origin_name dest_name : string) : run route_outcome :=
  let b := build_graph_from_excel df include_ice_highways in
  match resolve_name (name_to_coord b) origin_name with
  | None => Ret LocationNotFound
  | Some origin_name =>
      match resolve_name (name_to_coord b) dest_name with
      | None => Ret LocationNotFound
      | Some dest_name =>
          match dict_get (name_to_coord b) origin_name,
                dict_get (name_to_coord b) dest_name with
          | Some start, Some end_ =>
              match dijkstra (graph b) start end_ with
              | OutOfFuel => OutOfFuel
              | Ret None => Ret NoPathFound
              | Ret (Some []) => Ret NoPathFound
              | Ret (Some path) =>
                  match reconstruct (coord_pair_to_path b) path with
                  | Some r => Ret (RouteFound r)
                  | None => Ret RouteError
                  end
              end
          | _, _ => Ret RouteError
          end
      end
  end.

End Rounded.
End Rounded.

(** ** Notions the properties are stated with *)

(** A walk of the graph from [s], with the time the search accumulates
    along it: edge weights added in order, from [0]. *)
Inductive walk (g : gmap Point (list edge)) (s : Point) : Point -> Q -> Prop :=
| walk_here : walk g s s 0%Q
| walk_step v c u w m :
    walk g s v c -> (u, w, m) ∈ graph_get g v -> walk g s u (c + w)%Q.

(** [is_trace g s path v t]: [path] is a list [dijkstra] can build for a
    walk from [s] to [v] of time [t]. *)
Inductive is_trace (g : gmap Point (list edge)) (s : Point) : trace -> Point -> Q -> Prop :=
| trace_start : is_trace g s [Hop s 0%Q] s 0%Q
| trace_step path v t u w m :
    is_trace g s path v t -> (u, w, m) ∈ graph_get g v ->
    is_trace g s (path ++ [Mode m; Hop u (t + w)%Q]) u (t + w)%Q.

Definition nonneg_weights (g : gmap Point (list edge)) : Prop :=
  ∀ v u w m, (u, w, m) ∈ graph_get g v -> (0 <= w)%Q.


(** Sum of a quantity over the entries of a dictionary. *)
Definition map_sum {K : Type} `{Countable K} {V : Type} (f : K * V -> nat) (m : gmap K V) : nat :=
  sum_list_with f (map_to_list m).

Definition has_mode (mode : string) (e : edge) : bool := String.eqb (snd e) mode.

(** Number of directed edges of a mode in the graph. *)
Definition count_mode (mode : string) (g : gmap Point (list edge)) : nat :=
  map_sum (λ kv, length (List.filter (has_mode mode) kv.2)) g.

(** The rows that define the known locations: for each name, the first
    row that carries it. *)
Fixpoint first_rows (seen : list string) (df : list row) : list row :=
  match df with
  | [] => []
  | r :: df' =>
      if decide (row_Location r ∈ seen) then first_rows seen df'
      else r :: first_rows (seen ++ [row_Location r]) df'
  end.

Definition known_locations (df : list row) : list row := first_rows [] df.

Definition is_ice_highway (r : row) : bool := contains "Ice Highway" (row_Type r).

Definition Qsum (l : list Q) : Q := fold_right Qplus 0%Q l.

(** Number of index triples [(2k, 2k+1, 2k+2)], that is of consecutive hop
    pairs, in a list of the given length. *)
Definition segments_in (path : trace) : nat := ((length path - 1) / 2)%nat.

(** An upper integer approximation of [math.hypot], exact on Pythagorean
    triples; used to run the model on examples. *)
Definition hypot_up (a b : Z) : Q := inject_Z (Z.sqrt_up (a * a + b * b)).

Definition mk_row (name : string) (x z : Z) (type : string) (path : option string) : row :=
  {| row_Location := name; row_X := x; row_Z := z; row_Owner := "";
     row_Type := type; row_Path := path |}.

(** The example of the specification: a rail line between Home and Market. *)
Definition df_example : list row :=
  [mk_row "Home" 0 0 "Base" (Some "R1");
   mk_row "Market" 30 0 "Ice Highway Stop" (Some "R1");
   mk_row "Dock" 0 40 "Ice Highway Stop" None].

(** Two locations at the same coordinates. *)
Definition df_colocated : list row :=
  [mk_row "North Gate" 5 5 "Gate" None;
   mk_row "Old Gate" 5 5 "Gate" None].


Definition g_example : gmap Point (list edge) :=
  graph (build_graph_from_excel hypot_up df_example true).

(** The cumulative time of the hop number [k] of a trace (at index [2k]). *)
Definition hop_time (path : trace) (k : nat) : Q :=
  match path !! (2 * k)%nat with
  | Some (Hop _ t) => t
  | _ => 0%Q
  end.

(** The segment loop accepts the trace and reports fewer steps than the
    trace has consecutive hop pairs. *)
Definition drops_final_segment (coord_pair_to_path : gmap (Point * Point) string)
    (path : trace) : Prop :=
  ∃ r, reconstruct coord_pair_to_path path = Some r ∧
       (length (route_steps r) < segments_in path)%nat.

(** A trace of two segments: a rail line, then a walk. *)
Definition trace_two_segments : trace :=
  [Hop (0, 0) 0; Mode "normal"; Hop (30, 0) (15 # 4); Mode "walk"; Hop (30, 9) (27 # 4)].

(** Membership in a list that evaluates to its elements. *)
Ltac in_computed_list := vm_compute; repeat first [by left | right].

(** ** Invariants of the search loop *)

Definition entry_time (e : entry) : Q := e.1.1.

(** A queued entry extends to a trace, and all the hops of its path are
    finalized nodes. *)
Definition entry_ok (g : gmap Point (list edge)) (s : Point) (seen : gset Point)
    (e : entry) : Prop :=
  is_trace g s (e.2 ++ [Hop e.1.2 e.1.1]) e.1.2 e.1.1 ∧
  ∀ p u, Hop p u ∈ e.2 -> p ∈ seen.

(** A finalized node [u]: some time [d] bounds from below the time of every
    walk to [u], and every edge out of [u] leads to a finalized node or is
    covered by a queued entry of time at most [d + w]. *)
Definition settled (g : gmap Point (list edge)) (s : Point) (queue : list entry)
    (seen : gset Point) (u : Point) : Prop :=
  ∃ d, (∀ c, walk g s u c -> (d <= c)%Q) ∧
       ∀ v w m, (v, w, m) ∈ graph_get g u ->
                v ∈ seen ∨ ∃ e, e ∈ queue ∧ e.1.2 = v ∧ (entry_time e <= d + w)%Q.

Record search_inv (g : gmap Point (list edge)) (s : Point)
    (queue : list entry) (seen : gset Point) : Prop := {
  inv_settled : ∀ u, u ∈ seen -> settled g s queue seen u;
  inv_start : s ∈ seen ∨ ∃ e, e ∈ queue ∧ e.1.2 = s ∧ (entry_time e <= 0)%Q
}.


(** What [dijkstra] returns on [g_example], from Home to Market. *)
Definition trace_home_market : trace :=
  [Hop (0, 0) 0; Mode "normal"; Hop (30, 0) (30 # 8)].

(** ** The ordering of paths, with its failure

    [elem_compare] and [trace_compare] as Python evaluates them: [None] is
    the [TypeError] raised on a hop against a marker. *)
Definition elem_compare_checked (a b : elem) : option comparison :=
  match a, b with
  | Hop _ _, Hop _ _ | Mode _, Mode _ => Some (elem_compare a b)
  | _, _ => None
  end.

Fixpoint trace_compare_checked (a b : trace) : option comparison :=
  match a, b with
  | [], [] => Some Eq
  | [], _ :: _ => Some Lt
  | _ :: _, [] => Some Gt
  | x :: a', y :: b' =>
      match elem_compare_checked x y with
      | Some Eq => trace_compare_checked a' b'
      | c => c
      end
  end.

(** Hops and markers alternate in the list, which starts with a hop when
    [hop_first] is set and with a marker otherwise. *)
Fixpoint alternates (hop_first : bool) (l : trace) : bool :=
  match l with
  | [] => true
  | Hop _ _ :: l' => hop_first && alternates false l'
  | Mode _ :: l' => negb hop_first && alternates true l'
  end.

(** Every edge has a reverse edge of the same weight and mode. *)
Definition mirrored (g : gmap Point (list edge)) : Prop :=
  ∀ v u w m, (u, w, m) ∈ graph_get g v -> (v, w, m) ∈ graph_get g u.

(** A data frame with a route name on two rows and two owners. *)
Definition df_owned : list row :=
  [{| row_Location := "Harbor"; row_X := 0; row_Z := 0; row_Owner := "Public Land";
      row_Type := "Port"; row_Path := Some "Coast Line" |};
   {| row_Location := "Mike's Base"; row_X := 8; row_Z := 6; row_Owner := "Mike";
      row_Type := "Base"; row_Path := Some "Coast Line" |};
   {| row_Location := "Tower"; row_X := 8; row_Z := 0; row_Owner := "Ann";
      row_Type := "Ice Highway Stop"; row_Path := None |};
   {| row_Location := "Harbor"; row_X := 99; row_Z := 99; row_Owner := "Nobody";
      row_Type := "Ice Highway Stop"; row_Path := None |}].

(** A string in the form [quote safe] produces: characters that need no
    escape, and escapes made of a percent sign and two hexadecimal digits. *)
Fixpoint well_quoted (safe s : string) : bool :=
  match s with
  | EmptyString => true
  | String c s' =>
      if Ascii.eqb c "%" then
        match s' with
        | String h1 (String h2 s'') => is_hex_digit h1 && is_hex_digit h2 && well_quoted safe s''
        | _ => false
        end
      else (is_unreserved c || char_in c safe) && well_quoted safe s'
  end.

(** A sheet in which the name "A" comes back on two later rows, at a point
    that no first row has, on the rail lines "L1" and "L2". *)
Definition df_unnamed : list row :=
  [mk_row "A" 0 0 "Base" (Some "L1");
   mk_row "B" 200 0 "Base" (Some "L2");
   mk_row "A" 100 0 "Station" (Some "L1");
   mk_row "A" 100 0 "Station" (Some "L2")].

(** A point for which no [numpy.int64] operation of [manhattan_distance]
    wraps around, whatever the other point in range: both coordinates lie
    strictly between [-2^61] and [2^61]. *)
Definition in_range (p : Point) : Prop :=
  - 2305843009213693952 < p.1 < 2305843009213693952 ∧
  - 2305843009213693952 < p.2 < 2305843009213693952.

Definition rows_in_range (df : list row) : Prop :=
  ∀ r, r ∈ df -> in_range (row_coord r).


(** A sheet with coordinates at [2^62]: the rail line "L1" joins two
    points whose distance wraps around; the line "L2" leaves from a later
    row of "Q". *)
Definition df_wrapped : list row :=
  [mk_row "A" 4611686018427387904 0 "Base" (Some "L1");
   mk_row "Q" (-4611686018427387904) 0 "Base" (Some "L1");
   mk_row "Q" (-4611686018427387904) 0 "Base" (Some "L2");
   mk_row "B" 4611686018427387896 0 "Base" (Some "L2")].

(** ** Adjacency lists *)

Lemma graph_get_append (g : gmap Point (list edge)) p e q :
  graph_get (graph_append g p e) q =
    if decide (p = q) then graph_get g p ++ [e] else graph_get g q.
Proof.
  unfold graph_append, graph_get at 1. rewrite lookup_insert.
  by repeat case_decide.
Qed.

Lemma elem_of_graph_append (g : gmap Point (list edge)) p e q e' :
  e' ∈ graph_get (graph_append g p e) q ↔ e' ∈ graph_get g q ∨ (p = q ∧ e' = e).
Proof.
  rewrite graph_get_append. case_decide as Hpq.
  - subst q. rewrite elem_of_app, list_elem_of_singleton. tauto.
  - tauto.
Qed.

Lemma graph_get_empty q : graph_get ∅ q = [].
Proof. unfold graph_get. by rewrite lookup_empty. Qed.

(** Sums over a dictionary, when one entry is written. *)
Lemma map_sum_insert {V : Type} (f : Point * V -> nat) (m : gmap Point V) k v :
  (map_sum f (<[k := v]> m) + from_option (λ old, f (k, old)) O (m !! k)
   = map_sum f m + f (k, v))%nat.
Proof.
  unfold map_sum. destruct (m !! k) as [old|] eqn:Hk; simpl.
  - rewrite <- (map_to_list_delete m k old Hk), <- insert_delete_eq.
    rewrite map_to_list_insert by apply lookup_delete_eq. simpl. lia.
  - rewrite map_to_list_insert by done. simpl. lia.
Qed.

Lemma count_mode_append (mode : string) (g : gmap Point (list edge)) p e :
  count_mode mode (graph_append g p e) =
    (count_mode mode g + if has_mode mode e then 1 else 0)%nat.
Proof.
  unfold count_mode, graph_append.
  pose proof (map_sum_insert (λ kv, length (List.filter (has_mode mode) kv.2)) g p
                (graph_get g p ++ [e])) as H.
  simpl in H. rewrite List.filter_app, length_app in H. simpl in H.
  unfold graph_get in H at 2. destruct (g !! p) as [old|]; simpl in H;
    destruct (has_mode mode e); simpl in H; lia.
Qed.

Lemma count_mode_empty (mode : string) : count_mode mode ∅ = O.
Proof. unfold count_mode, map_sum. by rewrite map_to_list_empty. Qed.

(** ** Index pairs *)

Lemma elem_of_index_pairs {A : Type} (l : list A) x y :
  (x, y) ∈ index_pairs l ↔ ∃ i j, (i < j)%nat ∧ l !! i = Some x ∧ l !! j = Some y.
Proof.
  induction l as [|a l IH]; simpl.
  - split; [by intros ?%elem_of_nil|]. by intros (i & j & _ & ? & _).
  - rewrite elem_of_app, list_elem_of_fmap, IH. split.
    + intros [(z & [= -> ->] & Hz)|(i & j & Hij & Hi & Hj)].
      * apply list_elem_of_lookup in Hz as [j Hj]. exists O, (S j). split; [lia|done].
      * exists (S i), (S j). split; [lia|done].
    + intros (i & j & Hij & Hi & Hj). destruct j as [|j]; [lia|]. simpl in Hj.
      destruct i as [|i]; simpl in Hi.
      * left. injection Hi as ->. exists y. split; [done|].
        apply list_elem_of_lookup. eauto.
      * right. exists i, j. split; [lia|done].
Qed.

Lemma length_index_pairs {A : Type} (l : list A) :
  (2 * length (index_pairs l) = length l * (length l - 1))%nat.
Proof.
  induction l as [|a l IH]; simpl; [done|].
  rewrite length_app, length_fmap. nia.
Qed.

(** ** The loops of the builder *)

Section BuilderLoops.

Variable hypot : Z -> Z -> Q.

Lemma elem_of_add_pair (speed : Z) (mode : string) (g : gmap Point (list edge)) p1 p2 p e :
  e ∈ graph_get (add_pair hypot speed mode g (p1, p2)) p ↔
    e ∈ graph_get g p ∨
    (p = p1 ∧ e = (p2, (euclidean_distance hypot p1 p2 / inject_Z speed)%Q, mode)) ∨
    (p = p2 ∧ e = (p1, (euclidean_distance hypot p1 p2 / inject_Z speed)%Q, mode)).
Proof.
  unfold add_pair. rewrite !elem_of_graph_append. split.
  - intros [[?|[-> ->]]|[-> ->]]; auto.
  - intros [?|[[-> ->]|[-> ->]]]; auto.
Qed.

Lemma elem_of_add_pairs (speed : Z) (mode : string) (pairs : list (Point * Point)) (g : gmap Point (list edge)) p e :
  e ∈ graph_get (fold_left (add_pair hypot speed mode) pairs g) p ↔
    e ∈ graph_get g p ∨
    ∃ p1 p2, (p1, p2) ∈ pairs ∧
      ((p = p1 ∧ e = (p2, (euclidean_distance hypot p1 p2 / inject_Z speed)%Q, mode)) ∨
       (p = p2 ∧ e = (p1, (euclidean_distance hypot p1 p2 / inject_Z speed)%Q, mode))).
Proof.
  revert g. induction pairs as [|[q1 q2] pairs IH]; intros g; cbn [fold_left].
  - split; [auto|]. intros [?|(p1 & p2 & ?%elem_of_nil & _)]; done.
  - rewrite IH, elem_of_add_pair. split.
    + intros [[?|Hnew]|(p1 & p2 & Hin & H)]; [by left| |].
      * right. exists q1, q2. split; [left|done].
      * right. exists p1, p2. split; [by right|done].
    + intros [?|(p1 & p2 & Hin & H)]; [by left; left|].
      apply elem_of_cons in Hin as [[= -> ->]|Hin].
      * left. by right.
      * right. eauto.
Qed.

Lemma count_mode_add_pair (m : string) (speed : Z) (mode : string)
    (g : gmap Point (list edge)) pq :
  count_mode m (add_pair hypot speed mode g pq) =
    (count_mode m g + if String.eqb mode m then 2 else 0)%nat.
Proof.
  destruct pq as [p1 p2]. unfold add_pair. rewrite !count_mode_append.
  unfold has_mode. simpl. destruct (String.eqb mode m); lia.
Qed.

Lemma count_mode_add_pairs (m : string) (speed : Z) (mode : string) (pairs : list (Point * Point))
    (g : gmap Point (list edge)) :
  count_mode m (fold_left (add_pair hypot speed mode) pairs g) =
    (count_mode m g + if String.eqb mode m then 2 * length pairs else 0)%nat.
Proof.
  revert g. induction pairs as [|pq pairs IH]; intros g; cbn [fold_left].
  - destruct (String.eqb mode m); simpl; lia.
  - rewrite IH, count_mode_add_pair. destruct (String.eqb mode m); simpl; lia.
Qed.

(** The fixed routes. *)
Lemma add_route_skips (st : gmap Point (list edge) * gmap (Point * Point) string) (path : option string) (group : list row) :
  path = None ∨ length group ≠ 2%nat -> add_route st (path, group) = st.
Proof.
  destruct st as [g l]. intros [->|Hlen]; [done|]. simpl.
  destruct path; [|done]. by destruct group as [|? [|? [|? ?]]].
Qed.

Lemma elem_of_add_route (st : gmap Point (list edge) * gmap (Point * Point) string)
    (pg : option string * list row) p e :
  e ∈ graph_get (add_route st pg).1 p ↔
    e ∈ graph_get st.1 p ∨
    ∃ name r1 r2, pg = (Some name, [r1; r2]) ∧
      ((p = row_coord r1 ∧
        e = (row_coord r2,
             (inject_Z (manhattan_distance (row_coord r1) (row_coord r2)) / 8)%Q,
             "normal")) ∨
       (p = row_coord r2 ∧
        e = (row_coord r1,
             (inject_Z (manhattan_distance (row_coord r1) (row_coord r2)) / 8)%Q,
             "normal"))).
Proof.
  destruct st as [g l], pg as [[name|] group]; simpl.
  2: { split; [auto|]. by intros [?|(? & ? & ? & ? & _)]. }
  destruct group as [|r1 [|r2 [|r3 group]]]; simpl;
    try (split; [auto|]; by intros [?|(? & ? & ? & ? & _)]).
  rewrite !elem_of_graph_append. split.
  - intros [[?|[<- ->]]|[<- ->]]; [by left|right; exists name, r1, r2; auto..].
  - intros [?|(? & ? & ? & [= <- <- <-] & [[-> ->]|[-> ->]])]; auto.
Qed.

Lemma elem_of_add_routes (groups : list (option string * list row))
    (st : gmap Point (list edge) * gmap (Point * Point) string) p e :
  e ∈ graph_get (fold_left add_route groups st).1 p ↔
    e ∈ graph_get st.1 p ∨
    ∃ name r1 r2, (Some name, [r1; r2]) ∈ groups ∧
      ((p = row_coord r1 ∧
        e = (row_coord r2,
             (inject_Z (manhattan_distance (row_coord r1) (row_coord r2)) / 8)%Q,
             "normal")) ∨
       (p = row_coord r2 ∧
        e = (row_coord r1,
             (inject_Z (manhattan_distance (row_coord r1) (row_coord r2)) / 8)%Q,
             "normal"))).
Proof.
  revert st. induction groups as [|pg groups IH]; intros st; cbn [fold_left].
  - split; [auto|]. intros [?|(? & ? & ? & ?%elem_of_nil & _)]; done.
  - rewrite IH, elem_of_add_route. split.
    + intros [[?|(name & r1 & r2 & -> & H)]|(name & r1 & r2 & Hin & H)]; [by left|..].
      * right. exists name, r1, r2. split; [left|done].
      * right. exists name, r1, r2. split; [by right|done].
    + intros [?|(name & r1 & r2 & Hin & H)]; [by left; left|].
      apply elem_of_cons in Hin as [<-|Hin].
      * left. right. by exists name, r1, r2.
      * right. by exists name, r1, r2.
Qed.

Lemma lookup_add_route (st : gmap Point (list edge) * gmap (Point * Point) string)
    (pg : option string * list row) pq (name : string) :
  (add_route st pg).2 !! pq = Some name ->
  st.2 !! pq = Some name ∨
  ∃ r1 r2, pg = (Some name, [r1; r2]) ∧
    (pq = (row_coord r1, row_coord r2) ∨ pq = (row_coord r2, row_coord r1)).
Proof.
  destruct st as [g l], pg as [[path|] group]; simpl; [|auto].
  destruct group as [|r1 [|r2 [|r3 group]]]; simpl; auto.
  rewrite !lookup_insert. repeat case_decide; subst; intros [= ->]; eauto 10.
Qed.

Lemma lookup_add_routes (groups : list (option string * list row))
    (st : gmap Point (list edge) * gmap (Point * Point) string) pq (name : string) :
  (fold_left add_route groups st).2 !! pq = Some name ->
  st.2 !! pq = Some name ∨
  ∃ r1 r2, (Some name, [r1; r2]) ∈ groups ∧
    (pq = (row_coord r1, row_coord r2) ∨ pq = (row_coord r2, row_coord r1)).
Proof.
  revert st. induction groups as [|pg groups IH]; intros st; cbn [fold_left]; [auto|].
  intros [H|(r1 & r2 & Hin & H)]%IH.
  - apply lookup_add_route in H as [?|(r1 & r2 & -> & H)]; [by left|].
    right. exists r1, r2. split; [left|done].
  - right. exists r1, r2. split; [by right|done].
Qed.

Lemma count_mode_add_route (m : string)
    (st : gmap Point (list edge) * gmap (Point * Point) string)
    (pg : option string * list row) :
  m ≠ "normal" -> count_mode m (add_route st pg).1 = count_mode m st.1.
Proof.
  intros Hm. destruct st as [g l], pg as [[path|] group]; simpl; [|done].
  destruct group as [|r1 [|r2 [|r3 group]]]; simpl; try done.
  rewrite !count_mode_append. unfold has_mode. cbn [snd].
  destruct (String.eqb_spec "normal" m); [congruence|lia].
Qed.

Lemma count_mode_add_routes (m : string) (groups : list (option string * list row))
    (st : gmap Point (list edge) * gmap (Point * Point) string) :
  m ≠ "normal" -> count_mode m (fold_left add_route groups st).1 = count_mode m st.1.
Proof.
  intros Hm. revert st. induction groups as [|pg groups IH]; intros st; cbn [fold_left]; [done|].
  by rewrite IH, count_mode_add_route.
Qed.

Lemma elem_of_groupby_Path (df : list row) (path : option string) group :
  (path, group) ∈ groupby_Path df ->
  ∃ name, path = Some name ∧ group = List.filter (has_path name) df.
Proof.
  unfold groupby_Path. intros (name & [= -> ->] & _)%list_elem_of_fmap. eauto.
Qed.

(** The graph and the route names the builder returns, loop by loop. *)
Lemma graph_build (df : list row) (f : bool) :
  graph (build_graph_from_excel hypot df f) =
    fold_left (add_pair hypot 3 "walk")
      (index_pairs (loc_name_to_coord (collect_locations df)).*2)
      (if f
       then fold_left (add_pair hypot 72 "ice")
              (index_pairs (loc_ice_highways (collect_locations df)))
              (fold_left add_route (groupby_Path df) (∅, ∅)).1
       else (fold_left add_route (groupby_Path df) (∅, ∅)).1).
Proof.
  unfold build_graph_from_excel.
  by destruct (fold_left add_route (groupby_Path df) (∅, ∅)) as [g l].
Qed.

Lemma coord_pair_to_path_build (df : list row) (f : bool) :
  coord_pair_to_path (build_graph_from_excel hypot df f) =
    (fold_left add_route (groupby_Path df) (∅, ∅)).2.
Proof.
  unfold build_graph_from_excel.
  by destruct (fold_left add_route (groupby_Path df) (∅, ∅)) as [g l].
Qed.

Lemma name_to_coord_build (df : list row) (f : bool) :
  name_to_coord (build_graph_from_excel hypot df f) =
    loc_name_to_coord (collect_locations df).
Proof.
  unfold build_graph_from_excel.
  by destruct (fold_left add_route (groupby_Path df) (∅, ∅)) as [g l].
Qed.

End BuilderLoops.

(** ** Known locations *)

Lemma index_pairs_fmap {A B : Type} (f : A -> B) (l : list A) :
  index_pairs (f <$> l) = prod_map f f <$> index_pairs l.
Proof.
  induction l as [|a l IH]; [done|]. cbn [index_pairs fmap list_fmap].
  change (list_fmap A B f l) with (f <$> l).
  rewrite IH, fmap_app, <- !list_fmap_compose. done.
Qed.

Lemma index_pairs_elem {A : Type} (l : list A) a b :
  (a, b) ∈ index_pairs l -> a ∈ l ∧ b ∈ l.
Proof.
  induction l as [|x l IH]; simpl; [by intros ?%elem_of_nil|].
  rewrite elem_of_app, list_elem_of_fmap.
  intros [(y & [= -> ->] & Hy)|[Ha Hb]%IH]; split; by (left || right).
Qed.

Lemma index_pairs_filter {A : Type} (P : A -> bool) (l : list A) a b :
  (a, b) ∈ index_pairs (List.filter P l) -> (a, b) ∈ index_pairs l.
Proof.
  induction l as [|x l IH]; simpl; [done|]. destruct (P x); simpl.
  - rewrite !elem_of_app, !list_elem_of_fmap.
    intros [(y & [= -> ->] & Hy)|H]; [left|right; auto].
    exists y. split; [done|]. apply list_elem_of_In in Hy.
    apply list_elem_of_In. by apply List.filter_In in Hy as [? _].
  - rewrite elem_of_app. auto.
Qed.

Lemma index_pairs_NoDup {A B : Type} (f : A -> B) (l : list A) a b :
  NoDup (f <$> l) -> (a, b) ∈ index_pairs l -> f a ≠ f b.
Proof.
  induction l as [|x l IH]; cbn [index_pairs]; [by intros _ ?%elem_of_nil|].
  rewrite fmap_cons, NoDup_cons, elem_of_app.
  intros [Hx Hnd] [(y & [= -> ->] & Hy)%list_elem_of_fmap|H]; [|by apply IH].
  intros Heq. apply Hx. rewrite Heq. apply list_elem_of_fmap. eauto.
Qed.

Lemma index_pairs_total {A : Type} (l : list A) a b i j :
  l !! i = Some a -> l !! j = Some b -> i ≠ j ->
  (a, b) ∈ index_pairs l ∨ (b, a) ∈ index_pairs l.
Proof.
  intros Hi Hj Hij. destruct (decide (i < j)%nat).
  - left. apply elem_of_index_pairs. exists i, j. auto.
  - right. apply elem_of_index_pairs. exists j, i. split; [lia|auto].
Qed.

Lemma first_rows_fresh seen df r :
  r ∈ first_rows seen df -> (row_Location r ∉ seen) ∧ r ∈ df.
Proof.
  revert seen. induction df as [|x df IH]; intros seen; simpl; [by intros ?%elem_of_nil|].
  case_decide as Hx.
  - intros [? ?]%IH. split; [done|by right].
  - intros [->|[Hr ?]%IH]%elem_of_cons; [split; [done|left]|].
    split; [|by right]. intros ?. apply Hr. apply elem_of_app. by left.
Qed.

Lemma first_rows_NoDup seen df : NoDup (row_Location <$> first_rows seen df).
Proof.
  revert seen. induction df as [|x df IH]; intros seen; simpl; [constructor|].
  case_decide; [done|]. rewrite fmap_cons. constructor; [|done].
  intros (r & Hr & Hin)%list_elem_of_fmap. apply first_rows_fresh in Hin as [Hin _].
  apply Hin. rewrite Hr. apply elem_of_app. right. by left.
Qed.

Lemma collect_locations_from (df : list row) (st : locations) :
  loc_name_to_coord (fold_left collect_location df st) =
    loc_name_to_coord st ++
    ((λ r, (row_Location r, row_coord r)) <$> first_rows (loc_name_to_coord st).*1 df) ∧
  loc_ice_highways (fold_left collect_location df st) =
    loc_ice_highways st ++
    (row_coord <$> List.filter is_ice_highway (first_rows (loc_name_to_coord st).*1 df)).
Proof.
  revert st. induction df as [|r df IH]; intros st; cbn [fold_left first_rows].
  - by rewrite !app_nil_r.
  - destruct (IH (collect_location st r)) as [-> ->]. unfold collect_location.
    case_decide as Hr; [done|]. cbn [loc_name_to_coord loc_ice_highways].
    rewrite fmap_app. cbn [fmap list_fmap fst List.filter]. unfold is_ice_highway at 2.
    destruct (contains "Ice Highway" (row_Type r)); rewrite <- !app_assoc; done.
Qed.

Lemma name_to_coord_known (df : list row) :
  loc_name_to_coord (collect_locations df) =
    (λ r, (row_Location r, row_coord r)) <$> known_locations df.
Proof.
  unfold collect_locations, known_locations.
  by destruct (collect_locations_from df no_locations) as [-> _].
Qed.

Lemma ice_highways_known (df : list row) :
  loc_ice_highways (collect_locations df) =
    row_coord <$> List.filter is_ice_highway (known_locations df).
Proof.
  unfold collect_locations, known_locations.
  by destruct (collect_locations_from df no_locations) as [_ ->].
Qed.

Lemma coords_known (df : list row) :
  (loc_name_to_coord (collect_locations df)).*2 = row_coord <$> known_locations df.
Proof. rewrite name_to_coord_known, <- list_fmap_compose. done. Qed.

Lemma names_known (df : list row) :
  (loc_name_to_coord (collect_locations df)).*1 = row_Location <$> known_locations df.
Proof. rewrite name_to_coord_known, <- list_fmap_compose. done. Qed.

(** ** Edges of the built graph *)

Lemma Qdiv_pos (d : Q) (s : Z) : (0 < d)%Q -> 0 < s -> (0 < d / inject_Z s)%Q.
Proof.
  intros Hd Hs. apply Qlt_shift_div_l.
  - change 0%Q with (inject_Z 0). by rewrite <- Zlt_Qlt.
  - by rewrite Qmult_0_l.
Qed.

Lemma Qdiv_nonneg (d : Q) (s : Z) : (0 <= d)%Q -> 0 < s -> (0 <= d / inject_Z s)%Q.
Proof.
  intros Hd Hs. apply Qle_shift_div_l.
  - change 0%Q with (inject_Z 0). by rewrite <- Zlt_Qlt.
  - by rewrite Qmult_0_l.
Qed.

Lemma group_rows_in_sheet (df : list row) (name : string) r1 r2 :
  List.filter (has_path name) df = [r1; r2] -> r1 ∈ df ∧ r2 ∈ df.
Proof.
  intros Hf. assert (∀ r, r ∈ [r1; r2] -> r ∈ df) as H.
  { intros r Hr. rewrite <- Hf in Hr. apply list_elem_of_In, List.filter_In in Hr as [Hr _].
    by apply list_elem_of_In. }
  split; apply H; [by left|right; by left].
Qed.

Lemma int64_small (n : Z) :
  - 9223372036854775808 <= n < 9223372036854775808 -> int64 n = n.
Proof. intros Hn. unfold int64. rewrite Z.mod_small; lia. Qed.

Lemma manhattan_in_range (p1 p2 : Point) :
  in_range p1 -> in_range p2 ->
  manhattan_distance p1 p2 = Z.abs (p1.1 - p2.1) + Z.abs (p1.2 - p2.2).
Proof.
  intros [Hx1 Hz1] [Hx2 Hz2]. unfold manhattan_distance.
  rewrite (int64_small (p1.1 - p2.1)), (int64_small (p1.2 - p2.2)) by lia.
  rewrite (int64_small (Z.abs _)), (int64_small (Z.abs (p1.2 - p2.2))) by lia.
  apply int64_small. lia.
Qed.

Lemma manhattan_pos (p1 p2 : Point) :
  in_range p1 -> in_range p2 -> p1 ≠ p2 -> 0 < manhattan_distance p1 p2.
Proof.
  intros H1 H2. rewrite manhattan_in_range by done.
  destruct p1 as [x1 z1], p2 as [x2 z2]. simpl.
  intros Hne. assert (x1 ≠ x2 ∨ z1 ≠ z2) as [?|?]; [|lia..].
  destruct (decide (x1 = x2)) as [->|]; [|by left]. right. congruence.
Qed.

Lemma manhattan_nonneg (p1 p2 : Point) :
  in_range p1 -> in_range p2 -> 0 <= manhattan_distance p1 p2.
Proof. intros H1 H2. rewrite manhattan_in_range by done. lia. Qed.

Lemma df_example_in_range : rows_in_range df_example.
Proof.
  intros r Hr. vm_compute in Hr.
  repeat (apply elem_of_cons in Hr as [->|Hr]; [unfold in_range; simpl; lia|]).
  by apply elem_of_nil in Hr.
Qed.

Lemma hypot_up_pos (a b : Z) : a ≠ 0 ∨ b ≠ 0 -> (0 < hypot_up a b)%Q.
Proof.
  intros Hab. unfold hypot_up. change 0%Q with (inject_Z 0). rewrite <- Zlt_Qlt.
  apply Z.sqrt_up_pos. nia.
Qed.

Lemma hypot_up_zero : (hypot_up 0 0 == 0)%Q.
Proof. reflexivity. Qed.

Section BuiltGraph.

Variable hypot : Z -> Z -> Q.

(** Where an edge of the built graph comes from. *)
Lemma edge_of_build (df : list row) (f : bool) p q w (m : string) :
  (q, w, m) ∈ graph_get (graph (build_graph_from_excel hypot df f)) p ->
  (m = "normal" ∧
   ∃ name r1 r2, List.filter (has_path name) df = [r1; r2] ∧
     w = (inject_Z (manhattan_distance (row_coord r1) (row_coord r2)) / 8)%Q ∧
     ((p = row_coord r1 ∧ q = row_coord r2) ∨ (p = row_coord r2 ∧ q = row_coord r1))) ∨
  (m = "ice" ∧ f = true ∧
   ∃ a b, (a, b) ∈ index_pairs (List.filter is_ice_highway (known_locations df)) ∧
     w = (euclidean_distance hypot (row_coord a) (row_coord b) / inject_Z 72)%Q ∧
     ((p = row_coord a ∧ q = row_coord b) ∨ (p = row_coord b ∧ q = row_coord a))) ∨
  (m = "walk" ∧
   ∃ a b, (a, b) ∈ index_pairs (known_locations df) ∧
     w = (euclidean_distance hypot (row_coord a) (row_coord b) / inject_Z 3)%Q ∧
     ((p = row_coord a ∧ q = row_coord b) ∨ (p = row_coord b ∧ q = row_coord a))).
Proof.
  rewrite graph_build, elem_of_add_pairs, coords_known, index_pairs_fmap.
  intros [Hold|(p1 & p2 & ([a b] & [= -> ->] & Hab)%list_elem_of_fmap & H)].
  - assert ((q, w, m) ∈ graph_get (fold_left add_route (groupby_Path df) (∅, ∅)).1 p ->
            m = "normal" ∧
            ∃ name r1 r2, List.filter (has_path name) df = [r1; r2] ∧
              w = (inject_Z (manhattan_distance (row_coord r1) (row_coord r2)) / 8)%Q ∧
              ((p = row_coord r1 ∧ q = row_coord r2) ∨
               (p = row_coord r2 ∧ q = row_coord r1))) as Hroutes.
    { rewrite elem_of_add_routes. cbn [fst]. rewrite graph_get_empty.
      intros [?%elem_of_nil|(name & r1 & r2 & Hin & H)]; [done|].
      apply elem_of_groupby_Path in Hin as (name' & [= <-] & Hgroup).
      destruct H as [[-> [= -> -> ->]]|[-> [= -> -> ->]]];
        (split; [done|]; exists name, r1, r2; auto). }
    destruct f; [|by left; apply Hroutes].
    rewrite elem_of_add_pairs, ice_highways_known, index_pairs_fmap in Hold.
    destruct Hold as [Hold|(p1 & p2 & ([a b] & [= -> ->] & Hab)%list_elem_of_fmap & H)];
      [by left; apply Hroutes|].
    right; left. simpl in H.
    destruct H as [[-> [= -> -> ->]]|[-> [= -> -> ->]]];
      (split; [done|]; split; [done|]; exists a, b; auto).
  - right; right. simpl in H.
    destruct H as [[-> [= -> -> ->]]|[-> [= -> -> ->]]];
      (split; [done|]; exists a, b; auto).
Qed.

(** The walking loop reaches every pair of rows of known locations. *)
Lemma walk_edges_of_build (df : list row) (f : bool) a b :
  (a, b) ∈ index_pairs (known_locations df) ->
  (row_coord b, (euclidean_distance hypot (row_coord a) (row_coord b) / inject_Z 3)%Q,
   "walk") ∈ graph_get (graph (build_graph_from_excel hypot df f)) (row_coord a) ∧
  (row_coord a, (euclidean_distance hypot (row_coord a) (row_coord b) / inject_Z 3)%Q,
   "walk") ∈ graph_get (graph (build_graph_from_excel hypot df f)) (row_coord b).
Proof.
  intros Hab. rewrite graph_build, !elem_of_add_pairs, coords_known, index_pairs_fmap.
  split; right; exists (row_coord a), (row_coord b);
    (split; [apply list_elem_of_fmap; by exists (a, b)|auto]).
Qed.

Lemma known_rows_paired (df : list row) a b :
  a ∈ known_locations df -> b ∈ known_locations df ->
  row_Location a ≠ row_Location b ->
  (a, b) ∈ index_pairs (known_locations df) ∨ (b, a) ∈ index_pairs (known_locations df).
Proof.
  intros [i Hi]%list_elem_of_lookup [j Hj]%list_elem_of_lookup Hne.
  eapply index_pairs_total; [done..|]. intros ->. congruence.
Qed.

Lemma paired_rows_known (df : list row) a b :
  (a, b) ∈ index_pairs (known_locations df) ->
  a ∈ known_locations df ∧ b ∈ known_locations df ∧ row_Location a ≠ row_Location b.
Proof.
  intros Hab. destruct (index_pairs_elem _ _ _ Hab) as [Ha Hb].
  split; [done|]. split; [done|].
  eapply index_pairs_NoDup; [|done]. apply first_rows_NoDup.
Qed.

Lemma count_ice_build (df : list row) (f : bool) :
  (count_mode "ice" (graph (build_graph_from_excel hypot df f)) =
     if f then 2 * length (index_pairs (List.filter is_ice_highway (known_locations df)))
     else 0)%nat.
Proof.
  rewrite graph_build, count_mode_add_pairs. cbn [String.eqb Ascii.eqb Bool.eqb].
  rewrite Nat.add_0_r. destruct f.
  - rewrite count_mode_add_pairs, count_mode_add_routes by done. cbn [fst].
    rewrite count_mode_empty, ice_highways_known, index_pairs_fmap, length_fmap.
    rewrite String.eqb_refl. lia.
  - rewrite count_mode_add_routes by done. apply count_mode_empty.
Qed.

End BuiltGraph.

(** ** Properties of the built graph *)

Section BuilderClaims.

Variable hypot : Z -> Z -> Q.

(** What the claims use of [math.hypot]: it is positive away from the
    origin. *)
Hypothesis hypot_pos : ∀ a b, a ≠ 0 ∨ b ≠ 0 -> (0 < hypot a b)%Q.

Lemma euclidean_pos (p1 p2 : Point) :
  p1 ≠ p2 -> (0 < euclidean_distance hypot p1 p2)%Q.
Proof.
  destruct p1 as [x1 z1], p2 as [x2 z2]. intros Hne. apply hypot_pos. simpl.
  destruct (decide (x1 = x2)) as [->|]; [|left; lia]. right.
  intros ?. apply Hne. f_equal. lia.
Qed.

(** C2, as the code has it.  Any two known locations of different names
    are joined by a walking edge in each direction; the two edges carry the
    same weight, the straight-line distance of the two points divided by 3,
    and this weight is positive when the two locations have different
    coordinates. *)
Theorem walking_edges_between_locations (df : list row) (f : bool) a b :
  a ∈ known_locations df -> b ∈ known_locations df ->
  row_Location a ≠ row_Location b ->
  ∃ w, (row_coord b, w, "walk")
         ∈ graph_get (graph (build_graph_from_excel hypot df f)) (row_coord a) ∧
       (row_coord a, w, "walk")
         ∈ graph_get (graph (build_graph_from_excel hypot df f)) (row_coord b) ∧
       (w = (euclidean_distance hypot (row_coord a) (row_coord b) / inject_Z 3)%Q ∨
        w = (euclidean_distance hypot (row_coord b) (row_coord a) / inject_Z 3)%Q) ∧
       (row_coord a ≠ row_coord b -> (0 < w)%Q).
Proof.
  intros Ha Hb Hne.
  destruct (known_rows_paired df a b Ha Hb Hne) as [Hab|Hba].
  - destruct (walk_edges_of_build hypot df f a b Hab) as [H1 H2].
    eexists. split; [exact H1|]. split; [exact H2|]. split; [by left|].
    intros Hc. apply Qdiv_pos; [by apply euclidean_pos|done].
  - destruct (walk_edges_of_build hypot df f b a Hba) as [H1 H2].
    eexists. split; [exact H2|]. split; [exact H1|]. split; [by right|].
    intros Hc. apply Qdiv_pos; [by apply euclidean_pos|done].
Qed.

(** C6, as the code has it.  An ice or walking edge between two different
    points has a positive weight, and so has a rail edge when the
    coordinates of the sheet are in the range where [numpy.int64] does not
    wrap around.  No edge is a self-loop when different location names
    have different coordinates and the two rows of every two-row route
    have different coordinates. *)
Theorem edges_positive_and_loop_free (df : list row) (f : bool) p q w (m : string) :
  (q, w, m) ∈ graph_get (graph (build_graph_from_excel hypot df f)) p ->
  (m ≠ "normal" -> p ≠ q -> (0 < w)%Q) ∧
  (rows_in_range df -> p ≠ q -> (0 < w)%Q) ∧
  ((∀ a b, a ∈ known_locations df -> b ∈ known_locations df ->
           row_Location a ≠ row_Location b -> row_coord a ≠ row_coord b) ->
   (∀ name r1 r2, List.filter (has_path name) df = [r1; r2] ->
                  row_coord r1 ≠ row_coord r2) ->
   p ≠ q).
Proof.
  intros He.
  destruct (edge_of_build hypot df f p q w m He)
    as [(-> & name & r1 & r2 & Hgroup & -> & Hpq)
       |[(-> & -> & a & b & Hab & -> & Hpq)|(-> & a & b & Hab & -> & Hpq)]].
  - split; [done|]. split.
    + intros Hrange Hne. apply (Qdiv_pos _ 8); [|done].
      destruct (group_rows_in_sheet df name r1 r2 Hgroup) as [H1 H2].
      change 0%Q with (inject_Z 0). rewrite <- Zlt_Qlt. apply manhattan_pos; [by auto..|].
      destruct Hpq as [[-> ->]|[-> ->]]; congruence.
    + intros _ Hroutes. specialize (Hroutes name r1 r2 Hgroup).
      destruct Hpq as [[-> ->]|[-> ->]]; congruence.
  - apply index_pairs_filter in Hab.
    assert (p ≠ q -> (0 < euclidean_distance hypot (row_coord a) (row_coord b)
                           / inject_Z 72)%Q) as Hpos.
    { intros Hne. apply Qdiv_pos; [|done]. apply euclidean_pos.
      destruct Hpq as [[-> ->]|[-> ->]]; congruence. }
    split; [auto|]. split; [auto|].
    intros Hlocs _. destruct (paired_rows_known df a b Hab) as (Ha & Hb & Hne).
    specialize (Hlocs a b Ha Hb Hne).
    destruct Hpq as [[-> ->]|[-> ->]]; congruence.
  - assert (p ≠ q -> (0 < euclidean_distance hypot (row_coord a) (row_coord b)
                           / inject_Z 3)%Q) as Hpos.
    { intros Hne. apply Qdiv_pos; [|done]. apply euclidean_pos.
      destruct Hpq as [[-> ->]|[-> ->]]; congruence. }
    split; [auto|]. split; [auto|].
    intros Hlocs _. destruct (paired_rows_known df a b Hab) as (Ha & Hb & Hne).
    specialize (Hlocs a b Ha Hb Hne).
    destruct Hpq as [[-> ->]|[-> ->]]; congruence.
Qed.

End BuilderClaims.

Lemma walking_edges_between_locations_witness :
  ∃ w, ((30, 0), w, "walk")
         ∈ graph_get (graph (build_graph_from_excel hypot_up df_example false)) (0, 0) ∧
       ((0, 0), w, "walk")
         ∈ graph_get (graph (build_graph_from_excel hypot_up df_example false)) (30, 0) ∧
       (w = (euclidean_distance hypot_up (0, 0)%Z (30, 0)%Z / inject_Z 3)%Q ∨
        w = (euclidean_distance hypot_up (30, 0)%Z (0, 0)%Z / inject_Z 3)%Q) ∧
       ((0, 0) ≠ (30, 0) -> (0 < w)%Q).
Proof.
  apply (walking_edges_between_locations hypot_up hypot_up_pos df_example false
           (mk_row "Home" 0 0 "Base" (Some "R1"))
           (mk_row "Market" 30 0 "Ice Highway Stop" (Some "R1"))).
  - in_computed_list.
  - in_computed_list.
  - discriminate.
Defined.

Lemma edges_positive_and_loop_free_witness :
  rows_in_range df_example ∧ (0 < inject_Z 30 / 8)%Q.
Proof.
  split; [apply df_example_in_range|].
  destruct (edges_positive_and_loop_free hypot_up hypot_up_pos df_example true
              (0, 0) (30, 0) (inject_Z 30 / 8)%Q "normal") as (_ & H & _);
    [in_computed_list|].
  apply H; [apply df_example_in_range|discriminate].
Defined.

(** C2, as stated, fails for two locations at the same coordinates: the
    walking edges between them have weight zero. *)
Lemma colocated_walk_not_positive :
  mk_row "North Gate" 5 5 "Gate" None ∈ known_locations df_colocated ∧
  mk_row "Old Gate" 5 5 "Gate" None ∈ known_locations df_colocated ∧
  ∀ w, ((5, 5), w, "walk")
         ∈ graph_get (graph (build_graph_from_excel hypot_up df_colocated false)) (5, 5) ->
       ¬ (0 < w)%Q.
Proof.
  split; [in_computed_list|]. split; [in_computed_list|].
  intros w Hw.
  assert (graph_get (graph (build_graph_from_excel hypot_up df_colocated false)) (5, 5)
          = [((5, 5), (0 / 3)%Q, "walk"); ((5, 5), (0 / 3)%Q, "walk")]) as Hg
    by (vm_compute; reflexivity).
  rewrite Hg in Hw.
  apply elem_of_cons in Hw as [[= ->]|Hw]; [by intros ?|].
  apply elem_of_cons in Hw as [[= ->]|Hw]; [by intros ?|].
  by apply elem_of_nil in Hw.
Qed.

(** C6, as stated, fails on two counts.  On the same data the graph has
    a self-loop, of weight zero.  And on a sheet with coordinates at
    [2^62] the distance of the rail line "L1" wraps around: the edge between
    its two different points has the weight [-2^63 / 8]. *)
Lemma self_loop_and_negative_weight :
  (∃ w m, ((5, 5), w, m)
            ∈ graph_get (graph (build_graph_from_excel hypot_up df_colocated true)) (5, 5) ∧
          (w == 0)%Q) ∧
  (∃ w, ((-4611686018427387904, 0), w, "normal")
          ∈ graph_get (graph (build_graph_from_excel hypot_up df_wrapped true))
              (4611686018427387904, 0) ∧
        (4611686018427387904, 0) ≠ (-4611686018427387904, 0) ∧
        (w == -1152921504606846976)%Q ∧
        ¬ (0 < w)%Q).
Proof.
  split.
  - exists (0 / 3)%Q, "walk". split; [in_computed_list|reflexivity].
  - exists (inject_Z (-9223372036854775808) / 8)%Q.
    split; [in_computed_list|]. split; [discriminate|]. split; [reflexivity|].
    by intros ?.
Qed.

(** C3.  With the flag on, the graph has [k * (k - 1)] directed ice edges,
    for [k] the number of known locations whose type contains "Ice
    Highway"; with the flag off it has none.  An ice edge joins the points of
    two such locations, and exists with the flag on only. *)
Theorem ice_edges_count (hypot : Z -> Z -> Q) (df : list row) :
  count_mode "ice" (graph (build_graph_from_excel hypot df true)) =
    (length (List.filter is_ice_highway (known_locations df)) *
     (length (List.filter is_ice_highway (known_locations df)) - 1))%nat ∧
  count_mode "ice" (graph (build_graph_from_excel hypot df false)) = O ∧
  ∀ f p q w,
    (q, w, "ice") ∈ graph_get (graph (build_graph_from_excel hypot df f)) p ->
    f = true ∧
    ∃ a b, a ∈ known_locations df ∧ b ∈ known_locations df ∧
           is_ice_highway a = true ∧ is_ice_highway b = true ∧
           p = row_coord a ∧ q = row_coord b.
Proof.
  split; [|split].
  - rewrite count_ice_build. apply length_index_pairs.
  - by rewrite count_ice_build.
  - intros f p q w He.
    destruct (edge_of_build hypot df f p q w "ice" He)
      as [(? & _)|[(_ & -> & a & b & Hab & _ & Hpq)|(? & _)]]; [done| |done].
    split; [done|]. apply index_pairs_elem in Hab as [Ha Hb].
    apply list_elem_of_In, List.filter_In in Ha as [Ha Hia].
    apply list_elem_of_In, List.filter_In in Hb as [Hb Hib].
    apply list_elem_of_In in Ha, Hb.
    destruct Hpq as [[-> ->]|[-> ->]]; [exists a, b|exists b, a]; auto 10.
Qed.

Lemma ice_edges_count_witness :
  count_mode "ice" (graph (build_graph_from_excel hypot_up df_example true)) = 2%nat ∧
  count_mode "ice" (graph (build_graph_from_excel hypot_up df_example false)) = O ∧
  (true = true ∧
   ∃ a b, a ∈ known_locations df_example ∧ b ∈ known_locations df_example ∧
          is_ice_highway a = true ∧ is_ice_highway b = true ∧
          (30, 0) = row_coord a ∧ (0, 40) = row_coord b).
Proof.
  destruct (ice_edges_count hypot_up df_example) as (Hon & Hoff & Hends).
  split; [exact Hon|]. split; [exact Hoff|].
  apply (Hends true (30, 0) (0, 40) (50 / inject_Z 72)%Q). in_computed_list.
Defined.

(** C4.  A group of rows whose size is not two, or whose route name is
    missing, leaves the graph and the route-name lookup as they are.  In
    the built graph every rail edge, and every entry of the lookup, joins the
    two rows of a route name carried by exactly two rows. *)
Theorem malformed_route_skipped (hypot : Z -> Z -> Q) (df : list row) (f : bool) :
  (∀ st (path : option string) (group : list row),
     path = None ∨ length group ≠ 2%nat -> add_route st (path, group) = st) ∧
  (∀ p q w,
     (q, w, "normal") ∈ graph_get (graph (build_graph_from_excel hypot df f)) p ->
     ∃ name r1 r2, List.filter (has_path name) df = [r1; r2] ∧
       w = (inject_Z (manhattan_distance (row_coord r1) (row_coord r2)) / 8)%Q ∧
       ((p = row_coord r1 ∧ q = row_coord r2) ∨ (p = row_coord r2 ∧ q = row_coord r1))) ∧
  (∀ p q (name : string),
     coord_pair_to_path (build_graph_from_excel hypot df f) !! (p, q) = Some name ->
     ∃ r1 r2, List.filter (has_path name) df = [r1; r2] ∧
       ((p = row_coord r1 ∧ q = row_coord r2) ∨ (p = row_coord r2 ∧ q = row_coord r1))).
Proof.
  split; [|split].
  - intros st path group. apply add_route_skips.
  - intros p q w He.
    destruct (edge_of_build hypot df f p q w "normal" He)
      as [(_ & H)|[(? & _)|(? & _)]]; done.
  - intros p q name. rewrite coord_pair_to_path_build.
    intros [H|(r1 & r2 & Hin & H)]%lookup_add_routes;
      [cbn [snd] in H; by rewrite lookup_empty in H|].
    apply elem_of_groupby_Path in Hin as (name' & [= <-] & Hgroup).
    exists r1, r2. split; [done|]. destruct H as [[= -> ->]|[= -> ->]]; auto.
Qed.

Lemma malformed_route_skipped_witness :
  add_route (∅, ∅) (Some "R9", [mk_row "Home" 0 0 "Base" (Some "R9")]) = (∅, ∅) ∧
  (∃ name r1 r2, List.filter (has_path name) df_example = [r1; r2] ∧
     (30 # 8)%Q = (inject_Z (manhattan_distance (row_coord r1) (row_coord r2)) / 8)%Q ∧
     (((0, 0) = row_coord r1 ∧ (30, 0) = row_coord r2) ∨
      ((0, 0) = row_coord r2 ∧ (30, 0) = row_coord r1))) ∧
  (∃ r1 r2, List.filter (has_path "R1") df_example = [r1; r2] ∧
     (((30, 0) = row_coord r1 ∧ (0, 0) = row_coord r2) ∨
      ((30, 0) = row_coord r2 ∧ (0, 0) = row_coord r1))).
Proof.
  destruct (malformed_route_skipped hypot_up df_example false) as (Hskip & Hedge & Hname).
  split; [|split].
  - apply Hskip. right. simpl. lia.
  - apply (Hedge (0, 0) (30, 0) (30 # 8)%Q). in_computed_list.
  - apply (Hname (30, 0) (0, 0) "R1"). reflexivity.
Defined.

(** ** The segment loop *)

Section SegmentLoop.

Local Open Scope nat_scope.

Variable coord_pair_to_path : gmap (Point * Point) string.

Lemma div2_bounds n : 2 * Nat.div2 n ≤ n < 2 * Nat.div2 n + 2.
Proof.
  pose proof (Nat.div2_odd n) as H. destruct (Nat.odd n); simpl in H; lia.
Qed.

Lemma elem_of_range2 i stop : i ∈ range2 stop ↔ ∃ k, i = 2 * k ∧ 2 * k < stop.
Proof.
  unfold range2. rewrite list_elem_of_fmap. setoid_rewrite elem_of_seq.
  pose proof (div2_bounds (S stop)). split; intros (k & ? & ?); exists k; split; lia.
Qed.

Lemma length_range2 stop : length (range2 stop) = Nat.div2 (S stop).
Proof. unfold range2. by rewrite length_fmap, length_seq. Qed.

Lemma segments_in_range2 (path : trace) :
  length (range2 (length path - 2)) = segments_in path.
Proof.
  rewrite length_range2. unfold segments_in.
  pose proof (div2_bounds (S (length path - 2))).
  pose proof (Nat.div_mod_eq (length path - 1) 2).
  pose proof (Nat.mod_upper_bound (length path - 1) 2). lia.
Qed.

(** The guard [i + 2 >= len(path)] is false at every index of the range. *)
Lemma range2_in_bounds (path : trace) i :
  i ∈ range2 (length path - 2) -> i + 2 < length path.
Proof. rewrite elem_of_range2. intros (k & -> & ?). lia. Qed.

Lemma segment_loop_length (path : trace) idx st r :
  (∀ i, i ∈ idx -> i + 2 < length path) ->
  segment_loop coord_pair_to_path path idx st = Some r ->
  length (route_steps r) = length (route_steps st) + length idx.
Proof.
  revert st. induction idx as [|i idx IH]; intros st Hidx Hrun; simpl in *.
  - injection Hrun as <-. lia.
  - destruct (decide (length path ≤ i + 2)) as [Hle|_].
    { specialize (Hidx i ltac:(left)). lia. }
    destruct (path !! i) as [[coord time|]|]; [|done..].
    destruct (path !! (i + 1)) as [[|mode]|]; [done| |done].
    destruct (path !! (i + 2)) as [[next_coord next_time|]|]; [|done..].
    apply IH in Hrun; [|intros; apply Hidx; by right].
    rewrite Hrun. simpl. rewrite length_app. simpl. lia.
Qed.

Lemma segment_loop_last (path : trace) idx i st r :
  (∀ j, j ∈ idx ++ [i] -> j + 2 < length path) ->
  segment_loop coord_pair_to_path path (idx ++ [i]) st = Some r ->
  ∃ p, path !! (i + 2) = Some (Hop p (total_time r)).
Proof.
  revert st. induction idx as [|j idx IH]; intros st Hidx Hrun; simpl in *.
  - destruct (decide (length path ≤ i + 2)) as [Hle|_].
    { specialize (Hidx i ltac:(left)). lia. }
    destruct (path !! i) as [[coord time|]|]; [|done..].
    destruct (path !! (i + 1)) as [[|mode]|]; [done| |done].
    destruct (path !! (i + 2)) as [[next_coord next_time|]|]; [|done..].
    injection Hrun as <-. by exists next_coord.
  - destruct (decide (length path ≤ j + 2)) as [Hle|_].
    { specialize (Hidx j ltac:(left)). lia. }
    destruct (path !! j) as [[coord time|]|]; [|done..].
    destruct (path !! (j + 1)) as [[|mode]|]; [done| |done].
    destruct (path !! (j + 2)) as [[next_coord next_time|]|]; [|done..].
    eapply IH; [|exact Hrun]. intros; apply Hidx; by right.
Qed.

Lemma segment_loop_prefix (path : trace) idx st r :
  segment_loop coord_pair_to_path path idx st = Some r ->
  ∃ l, route_steps r = route_steps st ++ l.
Proof.
  revert st. induction idx as [|i idx IH]; intros st Hrun; simpl in *.
  - injection Hrun as <-. exists []. by rewrite app_nil_r.
  - destruct (decide (length path ≤ i + 2)) as [Hle|_].
    { injection Hrun as <-. exists []. by rewrite app_nil_r. }
    destruct (path !! i) as [[coord time|]|]; [|done..].
    destruct (path !! (i + 1)) as [[|mode]|]; [done| |done].
    destruct (path !! (i + 2)) as [[next_coord next_time|]|]; [|done..].
    apply IH in Hrun as [l Hl]. simpl in Hl. rewrite <- app_assoc in Hl. eauto.
Qed.

(** The step number [j] that the loop adds is the segment at the index
    number [j] of the range. *)
Lemma segment_loop_steps (path : trace) idx st r :
  (∀ i, i ∈ idx -> i + 2 < length path) ->
  segment_loop coord_pair_to_path path idx st = Some r ->
  ∀ j i, idx !! j = Some i ->
    ∃ coord time mode next_coord next_time step,
      path !! i = Some (Hop coord time) ∧
      path !! (i + 1) = Some (Mode mode) ∧
      path !! (i + 2) = Some (Hop next_coord next_time) ∧
      route_steps r !! (length (route_steps st) + j) = Some step ∧
      step_mode step = mode ∧ step_from step = coord ∧ step_to step = next_coord ∧
      step_time step = (next_time - time)%Q.
Proof.
  revert st. induction idx as [|i0 idx IH]; intros st Hidx Hrun j i Hj; [done|].
  simpl in Hrun.
  destruct (decide (length path ≤ i0 + 2)) as [Hle|_].
  { specialize (Hidx i0 ltac:(left)). lia. }
  destruct (path !! i0) as [[coord time|]|] eqn:H0; [|done..].
  destruct (path !! (i0 + 1)) as [[|mode]|] eqn:H1; [done| |done].
  destruct (path !! (i0 + 2)) as [[next_coord next_time|]|] eqn:H2; [|done..].
  destruct j as [|j]; simpl in Hj.
  - injection Hj as <-. apply segment_loop_prefix in Hrun as [l Hl]. simpl in Hl.
    eexists coord, time, mode, next_coord, next_time, _.
    split; [done|]. split; [done|]. split; [done|]. split.
    { rewrite Hl, <- app_assoc, Nat.add_0_r, lookup_app_r by lia.
      rewrite Nat.sub_diag. reflexivity. }
    done.
  - assert (∀ i, i ∈ idx -> i + 2 < length path) as Hidx'
      by (intros; apply Hidx; by right).
    destruct (IH _ Hidx' Hrun j i Hj)
      as (c & t & m & nc & nt & step & Hc & Hm & Hn & Hstep & Hrest).
    exists c, t, m, nc, nt, step. split; [done|]. split; [done|]. split; [done|].
    split; [|done]. rewrite <- Hstep. f_equal. simpl. rewrite length_app. simpl. lia.
Qed.

Lemma range2_lookup stop k : 2 * k < stop -> range2 stop !! k = Some (2 * k).
Proof.
  intros Hk. unfold range2. rewrite list_lookup_fmap, lookup_seq_lt; [done|].
  pose proof (div2_bounds (S stop)). lia.
Qed.

Lemma reconstruct_steps (path : trace) r k :
  reconstruct coord_pair_to_path path = Some r ->
  k < segments_in path ->
  ∃ coord time mode next_coord next_time step,
    path !! (2 * k) = Some (Hop coord time) ∧
    path !! (2 * k + 1) = Some (Mode mode) ∧
    path !! (2 * k + 2) = Some (Hop next_coord next_time) ∧
    route_steps r !! k = Some step ∧
    step_mode step = mode ∧ step_from step = coord ∧ step_to step = next_coord ∧
    step_time step = (next_time - time)%Q.
Proof.
  intros Hrun Hk. unfold reconstruct in Hrun.
  assert (2 * k < length path - 2) as Hlt.
  { unfold segments_in in Hk.
    pose proof (Nat.div_mod_eq (length path - 1) 2).
    pose proof (Nat.mod_upper_bound (length path - 1) 2). lia. }
  apply (segment_loop_steps path _ _ r (range2_in_bounds path) Hrun k (2 * k)).
  by apply range2_lookup.
Qed.

Lemma range2_snoc n : range2 (2 * n + 1) = range2 (2 * n - 1) ++ [2 * n].
Proof.
  unfold range2.
  assert (Nat.div2 (S (2 * n + 1)) = S n) as ->.
  { pose proof (div2_bounds (S (2 * n + 1))). lia. }
  assert (Nat.div2 (S (2 * n - 1)) = n) as ->.
  { pose proof (div2_bounds (S (2 * n - 1))). lia. }
  rewrite seq_S, fmap_app. reflexivity.
Qed.

Lemma reconstruct_length (path : trace) r :
  reconstruct coord_pair_to_path path = Some r ->
  length (route_steps r) = segments_in path.
Proof.
  intros Hrun. apply segment_loop_length in Hrun.
  - by rewrite Hrun, segments_in_range2.
  - apply range2_in_bounds.
Qed.

Lemma reconstruct_total_time (path : trace) n r :
  length path = 2 * n + 3 ->
  reconstruct coord_pair_to_path path = Some r ->
  ∃ p, last path = Some (Hop p (total_time r)).
Proof.
  intros Hlen Hrun. unfold reconstruct in Hrun.
  assert (∀ j, j ∈ range2 (length path - 2) -> j + 2 < length path) as Hidx
    by apply range2_in_bounds.
  replace (length path - 2) with (2 * n + 1) in Hrun, Hidx by lia.
  rewrite range2_snoc in Hrun, Hidx.
  destruct (segment_loop_last _ _ _ _ _ Hidx Hrun) as [p Hp].
  exists p. rewrite last_lookup, <- Hp. f_equal. lia.
Qed.

Lemma Qsum_snoc l x : (Qsum (l ++ [x]) == Qsum l + x)%Q.
Proof. induction l as [|y l IH]; simpl; [|rewrite IH]; ring. Qed.

(** The loop from hop [j] on, for a list in which hops and mode markers
    alternate. *)
Lemma segment_loop_totals (path : trace) n :
  (∀ k, k < n -> ∃ v t m u t',
      path !! (2 * k) = Some (Hop v t) ∧ path !! (2 * k + 1) = Some (Mode m) ∧
      path !! (2 * k + 2) = Some (Hop u t')) ->
  length path = 2 * n + 1 ->
  ∀ k j st, j + k = n ->
    (Qsum (step_time <$> route_steps st) == hop_time path j - hop_time path 0)%Q ->
    (Qsum (step_distance <$> route_steps st) == total_distance st)%Q ->
    Forall (λ s, step_distance s = (step_time s * mode_speed (step_mode s))%Q)
      (route_steps st) ->
    (0 < j -> total_time st = hop_time path j) ->
    ∃ r, segment_loop coord_pair_to_path path ((λ k, 2 * k) <$> seq j k) st = Some r ∧
         (Qsum (step_time <$> route_steps r) == hop_time path n - hop_time path 0)%Q ∧
         (Qsum (step_distance <$> route_steps r) == total_distance r)%Q ∧
         Forall (λ s, step_distance s = (step_time s * mode_speed (step_mode s))%Q)
           (route_steps r) ∧
         (0 < n -> total_time r = hop_time path n).
Proof.
  intros Hshape Hlen k. induction k as [|k IH]; intros j st Hjk Htime Hdist Hall Htot.
  - replace j with n in * by lia. exists st. simpl. auto.
  - destruct (Hshape j ltac:(lia)) as (v & t & m & u & t' & Hv & Hm & Hu).
    assert (hop_time path j = t) as Hj by (unfold hop_time; by rewrite Hv).
    assert (hop_time path (S j) = t') as HSj.
    { unfold hop_time. replace (2 * S j) with (2 * j + 2) by lia. by rewrite Hu. }
    simpl in Hv, Hm, Hu |- *. case_decide; [lia|]. rewrite Hv, Hm, Hu.
    apply IH; cbn [route_steps total_distance total_time]; [lia|..].
    + rewrite fmap_app. cbn [fmap list_fmap step_time].
      rewrite Qsum_snoc, Htime, Hj, HSj. ring.
    + rewrite fmap_app. cbn [fmap list_fmap step_distance].
      rewrite Qsum_snoc, Hdist. ring.
    + apply Forall_app. split; [done|]. by constructor.
    + done.
Qed.

End SegmentLoop.

(** C8, as the code has it.  The loop visits the indices [0, 2, ...] below
    [len(path) - 2], and the guard [i + 2 >= len(path)] is false at each of
    them.  Whatever the length of the trace, it reports one step for each
    consecutive pair of hops: the step number [k] goes from the hop at index
    [2k] to the hop at index [2k + 2], in the mode of the marker between
    them.  For a trace of [2n + 3] elements the total time it reports is
    the time of the last hop. *)
Theorem reconstruct_covers_every_segment
    (coord_pair_to_path : gmap (Point * Point) string) (path : trace) r :
  reconstruct coord_pair_to_path path = Some r ->
  (∀ i, i ∈ range2 (length path - 2) -> ¬ (length path ≤ i + 2)%nat) ∧
  length (route_steps r) = segments_in path ∧
  (∀ k, (k < segments_in path)%nat ->
     ∃ coord time mode next_coord next_time step,
       path !! (2 * k)%nat = Some (Hop coord time) ∧
       path !! (2 * k + 1)%nat = Some (Mode mode) ∧
       path !! (2 * k + 2)%nat = Some (Hop next_coord next_time) ∧
       route_steps r !! k = Some step ∧
       step_mode step = mode ∧ step_from step = coord ∧ step_to step = next_coord) ∧
  (∀ n, length path = (2 * n + 3)%nat -> ∃ p, last path = Some (Hop p (total_time r))).
Proof.
  intros Hrun. split.
  { intros i Hi%range2_in_bounds. lia. }
  split; [by eapply reconstruct_length|]. split.
  - intros k Hk.
    destruct (reconstruct_steps _ path r k Hrun Hk)
      as (coord & time & mode & next_coord & next_time & step & H0 & H1 & H2 & H3 & H4 & H5
          & H6 & _).
    by exists coord, time, mode, next_coord, next_time, step.
  - intros n Hn. by eapply reconstruct_total_time.
Qed.

Lemma reconstruct_covers_every_segment_witness :
  ∃ r, reconstruct ∅ trace_two_segments = Some r ∧
       (∀ i, i ∈ range2 (length trace_two_segments - 2) ->
             ¬ (length trace_two_segments ≤ i + 2)%nat) ∧
       length (route_steps r) = segments_in trace_two_segments ∧
       (∀ k, (k < segments_in trace_two_segments)%nat ->
          ∃ coord time mode next_coord next_time step,
            trace_two_segments !! (2 * k)%nat = Some (Hop coord time) ∧
            trace_two_segments !! (2 * k + 1)%nat = Some (Mode mode) ∧
            trace_two_segments !! (2 * k + 2)%nat = Some (Hop next_coord next_time) ∧
            route_steps r !! k = Some step ∧
            step_mode step = mode ∧ step_from step = coord ∧ step_to step = next_coord) ∧
       (∀ n, length trace_two_segments = (2 * n + 3)%nat ->
             ∃ p, last trace_two_segments = Some (Hop p (total_time r))).
Proof.
  eexists. split; [reflexivity|].
  apply (reconstruct_covers_every_segment ∅ trace_two_segments). reflexivity.
Defined.

(** C8, as stated, does not hold: no trace, of either parity of length,
    loses its final segment. *)
Lemma no_final_segment_dropped :
  ¬ ∃ coord_pair_to_path path, drops_final_segment coord_pair_to_path path.
Proof.
  intros (cptp & path & r & Hrun & Hlt).
  apply reconstruct_length in Hrun. lia.
Qed.

(** ** The priority queue *)

Lemma entry_leb_true (a b : entry) :
  entry_leb a b = true -> (entry_time a <= entry_time b)%Q.
Proof.
  destruct a as [[t n] p], b as [[u m] q]. unfold entry_leb, entry_compare, entry_time.
  cbn [fst]. rewrite Qle_alt. destruct (t ?= u)%Q; simpl; [done|done|discriminate].
Qed.

Lemma entry_leb_false (a b : entry) :
  entry_leb a b = false -> (entry_time b <= entry_time a)%Q.
Proof.
  destruct a as [[t n] p], b as [[u m] q]. unfold entry_leb, entry_compare, entry_time.
  cbn [fst]. intros H. apply Qnot_lt_le. rewrite Qlt_alt. intros Hlt.
  rewrite Hlt in H. simpl in H. discriminate.
Qed.

Lemma heappop_perm (e : entry) (queue : list entry) m rest :
  heappop e queue = (m, rest) -> m :: rest ≡ₚ e :: queue.
Proof.
  revert e m rest. induction queue as [|e' queue IH]; intros e m rest; simpl.
  - by intros [= <- <-].
  - destruct (heappop e' queue) as [m' rest'] eqn:Hpop. specialize (IH _ _ _ Hpop).
    destruct (entry_leb e m'); intros [= <- <-]; [done|].
    rewrite <- IH. apply Permutation_swap.
Qed.

Lemma heappop_min (e : entry) (queue : list entry) m rest :
  heappop e queue = (m, rest) ->
  ∀ x, x ∈ e :: queue -> (entry_time m <= entry_time x)%Q.
Proof.
  revert e m rest. induction queue as [|e' queue IH]; intros e m rest; simpl.
  - intros [= <- <-] x ->%list_elem_of_singleton. apply Qle_refl.
  - destruct (heappop e' queue) as [m' rest'] eqn:Hpop. specialize (IH _ _ _ Hpop).
    destruct (entry_leb e m') eqn:Hle; intros [= <- <-] x [->|Hx]%elem_of_cons.
    + apply Qle_refl.
    + eapply Qle_trans; [by apply entry_leb_true|by apply IH].
    + by apply entry_leb_false.
    + by apply IH.
Qed.

Lemma heappop_elem (e : entry) (queue : list entry) m rest x :
  heappop e queue = (m, rest) -> x ∈ e :: queue ↔ x = m ∨ x ∈ rest.
Proof. intros H%heappop_perm. rewrite <- H, elem_of_cons. done. Qed.

Lemma elem_of_push_neighbors (t : Q) (path : trace) (seen : gset Point) (edges : list edge)
    (queue : list entry) x :
  x ∈ push_neighbors t path seen edges queue ↔
    x ∈ queue ∨
    ∃ v w m, (v, w, m) ∈ edges ∧ (v ∉ seen) ∧ x = ((t + w)%Q, v, path ++ [Mode m]).
Proof.
  revert queue. induction edges as [|[[v w] m] edges IH]; intros queue; simpl.
  - split; [auto|]. intros [?|(? & ? & ? & ?%elem_of_nil & _)]; done.
  - rewrite IH. unfold heappush. split.
    + intros [Hx|(v' & w' & m' & Hin & Hv & ->)].
      * case_decide; [by left|]. apply elem_of_cons in Hx as [->|?]; [|by left].
        right. exists v, w, m. split; [left|done].
      * right. exists v', w', m'. split; [by right|done].
    + intros [Hx|(v' & w' & m' & Hin & Hv & ->)].
      * left. case_decide; [done|by right].
      * apply elem_of_cons in Hin as [[= -> -> ->]|Hin].
        -- left. rewrite decide_False by done. left.
        -- right. eauto 10.
Qed.

Lemma length_push_neighbors (t : Q) (path : trace) (seen : gset Point) (edges : list edge)
    (queue : list entry) :
  (length (push_neighbors t path seen edges queue) ≤ length queue + length edges)%nat.
Proof.
  revert queue. induction edges as [|[[v w] m] edges IH]; intros queue; simpl; [lia|].
  etrans; [apply IH|]. case_decide; simpl; lia.
Qed.

(** ** Termination *)

Lemma sum_list_with_ext_in {A : Type} (f h : A -> nat) (l : list A) :
  (∀ x, x ∈ l -> f x = h x) -> sum_list_with f l = sum_list_with h l.
Proof.
  induction l as [|a l IH]; intros Hfh; simpl; [done|].
  rewrite (Hfh a) by left. rewrite IH; [done|]. intros x Hx. apply Hfh. by right.
Qed.

Lemma unexpanded_expand (g : gmap Point (list edge)) (seen : gset Point) node :
  node ∉ seen ->
  (unexpanded g ({[node]} ∪ seen) + length (graph_get g node) = unexpanded g seen)%nat.
Proof.
  intros Hnode. unfold unexpanded, graph_get.
  assert (∀ l : list (Point * list edge), (∀ kv, kv ∈ l -> kv.1 ≠ node) ->
    sum_list_with (λ kv, if decide (kv.1 ∈ {[node]} ∪ seen) then O else length kv.2) l =
    sum_list_with (λ kv, if decide (kv.1 ∈ seen) then O else length kv.2) l) as Hother.
  { intros l Hl. apply sum_list_with_ext_in. intros kv Hkv. specialize (Hl kv Hkv).
    destruct (decide (kv.1 ∈ seen)) as [Hin|Hin].
    - rewrite decide_True; [done|]. apply elem_of_union. by right.
    - rewrite decide_False; [done|]. rewrite elem_of_union, elem_of_singleton. tauto. }
  destruct (g !! node) as [es|] eqn:Hg; simpl.
  - rewrite <- (map_to_list_delete g node es Hg). simpl.
    rewrite decide_True by (apply elem_of_union; left; by apply elem_of_singleton).
    rewrite decide_False by done.
    rewrite Hother; [lia|]. intros [k v] Hkv Hk. simpl in Hk. subst k.
    apply elem_of_map_to_list in Hkv. by rewrite lookup_delete_eq in Hkv.
  - rewrite Hother; [lia|]. intros [k v] Hkv Hk. simpl in Hk. subst k.
    apply elem_of_map_to_list in Hkv. congruence.
Qed.

Lemma dijkstra_loop_terminates (g : gmap Point (list edge)) (goal : Point) (fuel : nat) :
  ∀ (queue : list entry) (seen : gset Point),
    (length queue + unexpanded g seen < fuel)%nat ->
    ∃ r, dijkstra_loop fuel g goal queue seen = Ret r.
Proof.
  induction fuel as [|fuel IH]; intros queue seen Hfuel; [lia|]. simpl.
  destruct queue as [|e q]; [eauto|].
  destruct (heappop e q) as [[[t node] path] queue'] eqn:Hpop.
  pose proof (Permutation_length (heappop_perm _ _ _ _ Hpop)) as Hlen. simpl in Hlen, Hfuel.
  case_decide as Hseen; [apply IH; lia|].
  case_decide as Hgoal; [eauto|].
  apply IH.
  pose proof (length_push_neighbors t (path ++ [Hop node t]) ({[node]} ∪ seen)
                (graph_get g node) queue').
  pose proof (unexpanded_expand g seen node Hseen). lia.
Qed.

Lemma dijkstra_terminates (g : gmap Point (list edge)) (s goal : Point) :
  ∃ r, dijkstra g s goal = Ret r.
Proof. apply dijkstra_loop_terminates. unfold dijkstra_fuel. simpl. lia. Qed.

(** ** The list the search returns *)

Lemma is_trace_last (g : gmap Point (list edge)) (s : Point) path v t :
  is_trace g s path v t -> last path = Some (Hop v t).
Proof. intros []; [done|]. by rewrite last_app_cons. Qed.

Lemma entry_ok_mono (g : gmap Point (list edge)) (s : Point) (seen seen' : gset Point) e :
  (∀ v, v ∈ seen -> v ∈ seen') -> entry_ok g s seen e -> entry_ok g s seen' e.
Proof. intros Hsub [Htr Hhops]. split; [done|]. eauto. Qed.

(** [entry_ok] holds of the entries of the first queue (lemma
    [dijkstra_trace]) and of the queue after each iteration that expands a
    node; an iteration that skips a node only removes an entry. *)
Lemma queue_ok_after_expand (g : gmap Point (list edge)) (s : Point)
    (e : Q * Point * list elem) (q : list (Q * Point * list elem)) (seen : gset Point)
    t node path queue' :
  (∀ x, x ∈ e :: q -> entry_ok g s seen x) ->
  heappop e q = (t, node, path, queue') ->
  ∀ x, x ∈ push_neighbors t (path ++ [Hop node t]) ({[node]} ∪ seen)
             (graph_get g node) queue' ->
       entry_ok g s ({[node]} ∪ seen) x.
Proof.
  intros Hq Hpop.
  assert (entry_ok g s seen (t, node, path)) as [Htr Hhops].
  { apply Hq, (heappop_elem _ _ _ _ _ Hpop). by left. }
  simpl in Htr, Hhops.
  intros x [Hx|(v & w & m & Hin & Hv & ->)]%elem_of_push_neighbors.
  - eapply entry_ok_mono; [|apply Hq, (heappop_elem _ _ _ _ _ Hpop); by right].
    intros v Hv. apply elem_of_union. by right.
  - split; simpl.
    + rewrite <- app_assoc. simpl. by eapply trace_step.
    + intros p u [[Hp|Hp%list_elem_of_singleton]%elem_of_app
                 |Hp%list_elem_of_singleton]%elem_of_app.
      * apply elem_of_union. right. by eapply Hhops.
      * injection Hp as -> ->. apply elem_of_union. left. by apply elem_of_singleton.
      * done.
Qed.

Lemma dijkstra_loop_trace (g : gmap Point (list edge)) (s goal : Point) (fuel : nat) :
  ∀ (queue : list entry) (seen : gset Point) path,
    (∀ e, e ∈ queue -> entry_ok g s seen e) -> goal ∉ seen ->
    dijkstra_loop fuel g goal queue seen = Ret (Some path) ->
    ∃ t, is_trace g s path goal t ∧
         ∀ i p u, path !! i = Some (Hop p u) -> (S i < length path)%nat -> p ≠ goal.
Proof.
  induction fuel as [|fuel IH]; intros queue seen result Hq Hgoal; simpl; [done|].
  destruct queue as [|e q]; [done|].
  destruct (heappop e q) as [[[t node] path] queue'] eqn:Hpop.
  assert (entry_ok g s seen (t, node, path)) as [Htr Hhops].
  { apply Hq, (heappop_elem _ _ _ _ _ Hpop). by left. }
  assert (∀ x, x ∈ queue' -> entry_ok g s seen x) as Hq'.
  { intros x Hx. apply Hq, (heappop_elem _ _ _ _ _ Hpop). by right. }
  simpl in Htr, Hhops.
  case_decide as Hseen; [by apply IH|].
  case_decide as Hnode.
  - subst node. intros [= <-]. exists t. split; [done|].
    intros i p u Hi Hlen. rewrite length_app in Hlen. simpl in Hlen.
    rewrite lookup_app_l in Hi by lia.
    intros ->. apply Hgoal, (Hhops goal u), list_elem_of_lookup. eauto.
  - apply IH.
    + by eapply queue_ok_after_expand.
    + rewrite elem_of_union, elem_of_singleton. intros [?|?]; [congruence|done].
Qed.

Lemma dijkstra_trace (g : gmap Point (list edge)) (s goal : Point) path :
  dijkstra g s goal = Ret (Some path) ->
  ∃ t, is_trace g s path goal t ∧
       ∀ i p u, path !! i = Some (Hop p u) -> (S i < length path)%nat -> p ≠ goal.
Proof.
  apply dijkstra_loop_trace; [|apply not_elem_of_empty].
  intros e ->%list_elem_of_singleton. split; simpl; [apply trace_start|].
  by intros p u ?%elem_of_nil.
Qed.

(** ** Optimality *)

Section Optimality.

Variable g : gmap Point (list edge).
Variables s goal : Point.
Hypothesis weights_nonneg : nonneg_weights g.

(** A walk to a node that is not finalized passes through the frontier:
    some queued entry is no later than the walk. *)
Lemma frontier (queue : list entry) (seen : gset Point) x c :
  search_inv g s queue seen -> walk g s x c -> x ∉ seen ->
  ∃ e, e ∈ queue ∧ (entry_time e <= c)%Q.
Proof.
  intros [Hsettled Hstart] Hwalk.
  induction Hwalk as [|v c u w m Hwalk IH Hedge]; intros Hx.
  - destruct Hstart as [?|(e & He & _ & Hle)]; [done|]. eauto.
  - pose proof (weights_nonneg v u w m Hedge) as Hw.
    destruct (decide (v ∈ seen)) as [Hv|Hv].
    + destruct (Hsettled v Hv) as (d & Hd & Hout).
      destruct (Hout u w m Hedge) as [?|(e & He & _ & Hle)]; [done|].
      exists e. split; [done|]. specialize (Hd c Hwalk). lra.
    + destruct (IH Hv) as (e & He & Hle). exists e. split; [done|]. lra.
Qed.

Lemma settled_mono (queue queue' : list entry) (seen seen' : gset Point) u :
  (∀ v, v ∈ seen -> v ∈ seen') ->
  (∀ e, e ∈ queue -> e.1.2 ∈ seen' ∨ e ∈ queue') ->
  settled g s queue seen u -> settled g s queue' seen' u.
Proof.
  intros Hseen Hqueue (d & Hd & Hout). exists d. split; [done|].
  intros v w m Hedge. destruct (Hout v w m Hedge) as [?|(e & He & <- & Hle)]; [auto|].
  destruct (Hqueue e He) as [?|?]; [by left|]. right. eauto.
Qed.

Lemma search_inv_mono (queue queue' : list entry) (seen seen' : gset Point) :
  (∀ v, v ∈ seen -> v ∈ seen') ->
  (∀ e, e ∈ queue -> e.1.2 ∈ seen' ∨ e ∈ queue') ->
  (∀ u, u ∈ seen' -> u ∈ seen ∨ settled g s queue' seen' u) ->
  search_inv g s queue seen -> search_inv g s queue' seen'.
Proof.
  intros Hseen Hqueue Hnew [Hsettled Hstart]. split.
  - intros u Hu. destruct (Hnew u Hu) as [Hold|?]; [|done].
    eapply settled_mono; [done..|]. by apply Hsettled.
  - destruct Hstart as [?|(e & He & <- & Hle)]; [auto|].
    destruct (Hqueue e He) as [?|?]; [by left|]. right. eauto.
Qed.

Lemma dijkstra_loop_optimal (fuel : nat) :
  ∀ (queue : list entry) (seen : gset Point) r,
    search_inv g s queue seen -> goal ∉ seen ->
    dijkstra_loop fuel g goal queue seen = Ret r ->
    match r with
    | Some path => ∃ t, last path = Some (Hop goal t) ∧ ∀ c, walk g s goal c -> (t <= c)%Q
    | None => ∀ c, ¬ walk g s goal c
    end.
Proof.
  induction fuel as [|fuel IH]; intros queue seen r Hinv Hgoal; simpl; [done|].
  destruct queue as [|e q].
  { intros [= <-] c Hwalk.
    destruct (frontier [] seen goal c Hinv Hwalk Hgoal) as (? & ?%elem_of_nil & _). done. }
  destruct (heappop e q) as [[[t node] path] queue'] eqn:Hpop.
  assert (∀ x, x ∈ e :: q -> x.1.2 ∈ ({[node]} ∪ seen : gset Point) ∨ x ∈ queue') as Hrest.
  { intros x [->|?]%(heappop_elem _ _ _ _ _ Hpop); [left|by right].
    apply elem_of_union. left. by apply elem_of_singleton. }
  case_decide as Hseen.
  { apply IH; [|done]. eapply search_inv_mono; [done| |by left|done].
    intros x [->|?]%(heappop_elem _ _ _ _ _ Hpop); auto. }
  assert (∀ c, walk g s node c -> (t <= c)%Q) as Hopt.
  { intros c Hwalk.
    destruct (frontier _ seen node c Hinv Hwalk Hseen) as (x & Hx & Hle).
    pose proof (heappop_min _ _ _ _ Hpop x Hx) as Hmin.
    unfold entry_time in Hmin at 1. simpl in Hmin. lra. }
  case_decide as Hnode.
  { subst node. intros [= <-]. exists t. by rewrite last_snoc. }
  apply IH.
  - eapply search_inv_mono; [| | |done].
    + intros v Hv. apply elem_of_union. by right.
    + intros x [?|Hx]%Hrest; [by left|]. right. apply elem_of_push_neighbors. by left.
    + intros u [->%elem_of_singleton|?]%elem_of_union; [|by left]. right.
      exists t. split; [done|]. intros v w m Hedge.
      destruct (decide (v ∈ ({[node]} ∪ seen : gset Point))) as [?|Hv]; [by left|].
      right. exists ((t + w)%Q, v, (path ++ [Hop node t]) ++ [Mode m]).
      split; [|split; [done|apply Qle_refl]].
      apply elem_of_push_neighbors. right. eauto 10.
  - rewrite elem_of_union, elem_of_singleton. intros [?|?]; [congruence|done].
Qed.

Lemma dijkstra_optimal_result r :
  dijkstra g s goal = Ret r ->
  match r with
  | Some path => ∃ t, last path = Some (Hop goal t) ∧ ∀ c, walk g s goal c -> (t <= c)%Q
  | None => ∀ c, ¬ walk g s goal c
  end.
Proof.
  apply dijkstra_loop_optimal; [|apply not_elem_of_empty]. split.
  - by intros u ?%not_elem_of_empty.
  - right. exists (0%Q, s, []). split; [left|]. split; [done|apply Qle_refl].
Qed.

End Optimality.

Lemma is_trace_walk (g : gmap Point (list edge)) (s : Point) path v t :
  is_trace g s path v t -> walk g s v t.
Proof. induction 1; [constructor|by econstructor]. Qed.

(** ** Shape of a trace *)

Lemma is_trace_shape (g : gmap Point (list edge)) (s : Point) path v t :
  is_trace g s path v t ->
  ∃ n, length path = (2 * n + 1)%nat ∧
       path !! O = Some (Hop s 0%Q) ∧
       path !! (2 * n)%nat = Some (Hop v t) ∧
       ∀ k, (k < n)%nat ->
         ∃ a ta m b w,
           path !! (2 * k)%nat = Some (Hop a ta) ∧
           path !! (2 * k + 1)%nat = Some (Mode m) ∧
           path !! (2 * k + 2)%nat = Some (Hop b (ta + w)%Q) ∧
           (b, w, m) ∈ graph_get g a.
Proof.
  induction 1 as [|path v t u w m Htr (n & Hlen & Hfirst & Hlast & Hsegs) Hedge].
  - exists O. repeat split; [|done..]. intros k Hk. lia.
  - exists (S n). rewrite length_app. cbn [length]. split; [lia|]. split; [|split].
    + rewrite lookup_app_l by lia. done.
    + rewrite lookup_app_r by lia.
      replace (2 * S n - length path)%nat with 1%nat by lia. done.
    + intros k Hk. destruct (decide (k < n)%nat) as [Hlt|Hge].
      * destruct (Hsegs k Hlt) as (a & ta & m' & b & w' & H0 & H1 & H2 & He).
        exists a, ta, m', b, w'. rewrite !lookup_app_l by lia. done.
      * assert (k = n) as -> by lia. exists v, t, m, u, w.
        rewrite lookup_app_l by lia. rewrite !lookup_app_r by lia.
        replace (2 * n + 1 - length path)%nat with O by lia.
        replace (2 * n + 2 - length path)%nat with 1%nat by lia. done.
Qed.




(** C1.  On a graph without negative weights, when some walk leads from
    the start to the goal, [dijkstra] returns a list that ends with the hop
    of the goal; the time of this hop is the time of a walk from the start
    to the goal, and no walk from the start to the goal takes less.  The goal
    is the node of no earlier hop: the search returns when it first pops
    it. *)
Theorem dijkstra_least_time (g : gmap Point (list edge)) (s goal : Point) :
  nonneg_weights g ->
  (∃ c, walk g s goal c) ->
  ∃ path t,
    dijkstra g s goal = Ret (Some path) ∧
    last path = Some (Hop goal t) ∧
    is_trace g s path goal t ∧
    walk g s goal t ∧
    (∀ c, walk g s goal c -> (t <= c)%Q) ∧
    (∀ i p u, path !! i = Some (Hop p u) -> (S i < length path)%nat -> p ≠ goal).
Proof.
  intros Hnn [c Hreach]. destruct (dijkstra_terminates g s goal) as [r Hr].
  pose proof (dijkstra_optimal_result g s goal Hnn r Hr) as Hopt.
  destruct r as [path|]; [|by destruct (Hopt c)].
  destruct Hopt as (t & Hlast & Hmin).
  destruct (dijkstra_trace g s goal path Hr) as (t' & Htr & Hhops).
  pose proof (is_trace_last _ _ _ _ _ Htr) as Hlast'.
  rewrite Hlast in Hlast'. injection Hlast' as <-.
  exists path, t. repeat split; [done..|by eapply is_trace_walk|done|done].
Qed.


(** ** Queued paths can be ordered *)

Lemma alternates_app (b : bool) (l1 l2 : trace) :
  alternates b (l1 ++ l2) =
    alternates b l1 && alternates (if Nat.even (length l1) then b else negb b) l2.
Proof.
  revert b. induction l1 as [|x l1 IH]; intros b; [done|].
  cbn [app alternates length]. rewrite Nat.even_succ, <- Nat.negb_even.
  destruct x; rewrite IH; destruct b, (Nat.even (length l1)); simpl;
    rewrite ?andb_false_r; done.
Qed.

Lemma is_trace_alternates (g : gmap Point (list edge)) (s : Point) path v t :
  is_trace g s path v t -> alternates true path = true ∧ Nat.even (length path) = false.
Proof.
  induction 1 as [|path v t u w m _ [IH Hlen] _]; [done|].
  rewrite alternates_app, IH, Hlen, length_app. split; [done|]. simpl.
  replace (length path + 2)%nat with (S (S (length path))) by lia. done.
Qed.

Lemma entry_ok_alternates (g : gmap Point (list edge)) (s : Point) (seen : gset Point)
    (e : Q * Point * list elem) :
  entry_ok g s seen e -> alternates true e.2 = true.
Proof.
  intros [[Halt _]%is_trace_alternates _]. rewrite alternates_app in Halt.
  by apply andb_prop in Halt as [? _].
Qed.

Lemma alternates_comparable (b : bool) (p q : trace) :
  alternates b p = true -> alternates b q = true ->
  trace_compare_checked p q = Some (trace_compare p q).
Proof.
  revert b q. induction p as [|x p IH]; intros b [|y q]; try done.
  cbn [alternates trace_compare_checked trace_compare].
  destruct x as [n t|m], y as [n' t'|m'], b; try done; cbn [andb negb];
    intros Hp Hq; cbn [elem_compare_checked].
  - destruct (elem_compare (Hop n t) (Hop n' t')); cbn [lex]; eauto.
  - destruct (elem_compare (Mode m) (Mode m')); cbn [lex]; eauto.
Qed.

(** The paths of two entries the loop keeps in its queue are ordered
    without a [TypeError], and as [trace_compare] orders them. *)
Lemma queued_paths_comparable (g : gmap Point (list edge)) (s : Point)
    (seen : gset Point) (e1 e2 : Q * Point * list elem) :
  entry_ok g s seen e1 -> entry_ok g s seen e2 ->
  trace_compare_checked e1.2 e2.2 = Some (trace_compare e1.2 e2.2).
Proof.
  intros H1%entry_ok_alternates H2%entry_ok_alternates.
  by eapply alternates_comparable.
Qed.

(** ** From the search to the itinerary *)

Lemma range2_odd_length n : range2 (2 * n + 1 - 2) = (λ k, 2 * k)%nat <$> seq 0 n.
Proof.
  unfold range2. f_equal. f_equal.
  pose proof (div2_bounds (S (2 * n + 1 - 2))). lia.
Qed.

Lemma reconstruct_trace (g : gmap Point (list edge)) (s goal : Point)
    (coord_pair_to_path : gmap (Point * Point) string) path t :
  is_trace g s path goal t ->
  ∃ r, reconstruct coord_pair_to_path path = Some r ∧
       (Qsum (step_time <$> route_steps r) == total_time r)%Q ∧
       total_time r = t ∧
       (Qsum (step_distance <$> route_steps r) == total_distance r)%Q ∧
       Forall (λ st, step_distance st = (step_time st * mode_speed (step_mode st))%Q)
         (route_steps r).
Proof.
  intros Htr.
  destruct (is_trace_shape _ _ _ _ _ Htr) as (n & Hlen & Hfirst & Hlast & Hsegs).
  assert (hop_time path 0 = 0%Q) as H0.
  { unfold hop_time. change (2 * 0)%nat with O. by rewrite Hfirst. }
  assert (hop_time path n = t) as Hn by (unfold hop_time; by rewrite Hlast).
  unfold reconstruct. rewrite Hlen, range2_odd_length.
  destruct (segment_loop_totals coord_pair_to_path path n) with (k := n) (j := O)
    (st := {| total_time := 0%Q; total_distance := 0%Q; route_steps := [];
              rail_paths := [] |})
    as (r & Hrun & Htime & Hdist & Hall & Htot); simpl; try done.
  - intros k Hk. destruct (Hsegs k Hk) as (a & ta & m & b & w & ? & ? & ? & _). eauto 10.
  - rewrite H0. reflexivity.
  - exists r. split; [done|].
    assert (total_time r = t) as Ht.
    { destruct n as [|n]; [|rewrite Htot by lia; done].
      simpl in Hrun. injection Hrun as <-. simpl. by rewrite <- Hn, H0. }
    split; [|done]. rewrite Htime, Ht, Hn, H0. ring.
Qed.


(** ** Walks in a symmetric graph *)









Lemma dict_get_elem {V : Type} (d : list (string * V)) (k : string) :
  k ∈ d.*1 -> ∃ v, dict_get d k = Some v ∧ (k, v) ∈ d.
Proof.
  induction d as [|[k' v] d IH]; simpl; [by intros ?%elem_of_nil|].
  destruct (String.eqb_spec k k') as [->|Hne].
  - intros _. exists v. split; [done|left].
  - intros [?|Hin]%elem_of_cons; [done|]. destruct (IH Hin) as (v' & ? & ?).
    exists v'. split; [done|by right].
Qed.

Lemma resolve_name_known (d : list (string * Point)) (name : string) :
  name ∈ d.*1 -> resolve_name d name = Some name.
Proof. intros Hin. unfold resolve_name. by rewrite decide_True. Qed.

Section Queries.

Variable hypot : Z -> Z -> Q.

(** What the queries use of [math.hypot]: it is never negative. *)
Hypothesis hypot_nonneg : ∀ a b, (0 <= hypot a b)%Q.

Lemma build_nonneg (df : list row) (f : bool) :
  rows_in_range df ->
  nonneg_weights (graph (build_graph_from_excel hypot df f)).
Proof.
  intros Hrange p q w m He.
  destruct (edge_of_build hypot df f p q w m He)
    as [(_ & name & r1 & r2 & Hgroup & -> & _)
       |[(_ & _ & a & b & _ & -> & _)|(_ & a & b & _ & -> & _)]].
  - apply (Qdiv_nonneg _ 8); [|done].
    destruct (group_rows_in_sheet df name r1 r2 Hgroup) as [H1 H2].
    change 0%Q with (inject_Z 0). rewrite <- Zle_Qle. apply manhattan_nonneg; auto.
  - apply Qdiv_nonneg; [apply hypot_nonneg|done].
  - apply Qdiv_nonneg; [apply hypot_nonneg|done].
Qed.

(** The coordinates of two known names are joined by a walk. *)
Lemma known_names_connected (df : list row) (f : bool) (A B : string) cA cB :
  (A, cA) ∈ name_to_coord (build_graph_from_excel hypot df f) ->
  (B, cB) ∈ name_to_coord (build_graph_from_excel hypot df f) ->
  ∃ c, walk (graph (build_graph_from_excel hypot df f)) cA cB c.
Proof.
  rewrite name_to_coord_build, name_to_coord_known.
  intros (a & [= -> ->] & Ha)%list_elem_of_fmap (b & [= -> ->] & Hb)%list_elem_of_fmap.
  destruct (decide (row_Location a = row_Location b)) as [Heq|Hne].
  - assert (a = b) as ->.
    { unfold known_locations in Ha, Hb.
      apply list_elem_of_lookup in Ha as [i Hi], Hb as [j Hj].
      assert (i = j) as ->; [|congruence].
      eapply NoDup_lookup; [apply (first_rows_NoDup [] df)|..]; rewrite list_lookup_fmap.
      - rewrite Hi. reflexivity.
      - rewrite Hj. simpl. by rewrite Heq. }
    eexists. constructor.
  - destruct (known_rows_paired df a b Ha Hb Hne) as [Hab|Hba].
    + destruct (walk_edges_of_build hypot df f a b Hab) as [H1 _].
      eexists. eapply walk_step; [constructor|exact H1].
    + destruct (walk_edges_of_build hypot df f b a Hba) as [_ H2].
      eexists. eapply walk_step; [constructor|exact H2].
Qed.



End Queries.

(** ** The example of the specification *)

Lemma hypot_up_nonneg (a b : Z) : (0 <= hypot_up a b)%Q.
Proof.
  unfold hypot_up. change 0%Q with (inject_Z 0). rewrite <- Zle_Qle.
  apply Z.sqrt_up_nonneg.
Qed.

Lemma dijkstra_least_time_witness :
  ∃ path t,
    dijkstra g_example (0, 0) (0, 40) = Ret (Some path) ∧
    last path = Some (Hop (0, 40) t) ∧
    is_trace g_example (0, 0) path (0, 40) t ∧
    walk g_example (0, 0) (0, 40) t ∧
    (∀ c, walk g_example (0, 0) (0, 40) c -> (t <= c)%Q) ∧
    (∀ i p u, path !! i = Some (Hop p u) -> (S i < length path)%nat -> p ≠ (0, 40)).
Proof.
  apply (dijkstra_least_time g_example (0, 0) (0, 40)).
  - apply build_nonneg; [apply hypot_up_nonneg|apply df_example_in_range].
  - exists (0 + (40 # 3))%Q.
    apply (walk_step g_example (0, 0) (0, 0) 0 (0, 40) (40 # 3) "walk");
      [constructor|in_computed_list].
Defined.




(** With the identity for rounding, the functions of [Rounded] are the
    functions of the exact model. *)
Lemma rounded_exact (hypot : Z -> Z -> Q) :
  Rounded.build_graph_from_excel (λ q, q) hypot = build_graph_from_excel hypot ∧
  Rounded.dijkstra (λ q, q) = dijkstra ∧
  Rounded.reconstruct (λ q, q) = reconstruct ∧
  Rounded.find_route (λ q, q) hypot = find_route hypot.
Proof. repeat split; reflexivity. Qed.


(** The doubles of the specification's example, from Home to Dock by rail
    and ice: the ice step of 50 blocks is reported as 50.000000000000014
    blocks, and the total distance as 80.00000000000001 blocks. *)
Example double_distances_of_example :
  ∃ r, Rounded.find_route round64 hypot_up df_example true "Home" "Dock"
         = Ret (RouteFound r) ∧
       step_mode <$> route_steps r = ["normal"; "ice"] ∧
       Forall2 Qeq (step_distance <$> route_steps r)
         [30%Q; (3518437208883201 # 70368744177664)%Q] ∧
       (total_distance r == 5629499534213121 # 70368744177664)%Q.
Proof.
  eexists. split; [vm_compute; reflexivity|]. split; [reflexivity|].
  split; [|reflexivity]. repeat constructor.
Qed.

(** The query of the specification's example takes the rail line: 3.75
    seconds, one step, the route name R1. *)
Example find_route_home_market :
  ∃ r, find_route hypot_up df_example false "Home" "Market" = Ret (RouteFound r) ∧
       (total_time r == 15 # 4)%Q ∧
       step_mode <$> route_steps r = ["normal"] ∧
       rail_paths r = ["R1"] ∧
       view_on_map (rail_paths r) ≠ None.
Proof. eexists. split; [vm_compute; reflexivity|]. done. Qed.

(** With the flag off, two ice-highway locations are still joined, on
    foot. *)
Example find_route_market_dock_on_foot :
  ∃ r, find_route hypot_up df_example false "Market" "Dock" = Ret (RouteFound r) ∧
       step_mode <$> route_steps r = ["walk"] ∧
       (total_time r == 50 # 3)%Q.
Proof. eexists. split; [vm_compute; reflexivity|]. done. Qed.

Example find_route_market_dock_on_ice :
  ∃ r, find_route hypot_up df_example true "Market" "Dock" = Ret (RouteFound r) ∧
       step_mode <$> route_steps r = ["ice"] ∧
       (total_time r == 50 # 72)%Q.
Proof. eexists. split; [vm_compute; reflexivity|]. done. Qed.

(** * Further properties *)

(** ** Distances *)

(** X1.  On points in the range where [numpy.int64] does not wrap around,
    the rail distance is a metric: it is symmetric, never negative, zero
    between a point and itself only, and satisfies the triangle
    inequality. *)
Theorem manhattan_metric (p q r : Point) :
  in_range p -> in_range q -> in_range r ->
  manhattan_distance p q = manhattan_distance q p ∧
  0 <= manhattan_distance p q ∧
  (manhattan_distance p q = 0 ↔ p = q) ∧
  manhattan_distance p r <= manhattan_distance p q + manhattan_distance q r.
Proof.
  intros Hp Hq Hr. rewrite !manhattan_in_range by done.
  destruct p as [x1 z1], q as [x2 z2], r as [x3 z3]. simpl.
  split; [lia|]. split; [lia|]. split; [|lia]. split.
  - intros H. f_equal; lia.
  - intros [= -> ->]. lia.
Qed.

Lemma manhattan_metric_witness :
  manhattan_distance (0, 0) (30, 0) = manhattan_distance (30, 0) (0, 0) ∧
  0 <= manhattan_distance (0, 0) (30, 0) ∧
  (manhattan_distance (0, 0) (30, 0) = 0 ↔ (0, 0) = (30, 0)) ∧
  manhattan_distance (0, 0) (0, 40)
    <= manhattan_distance (0, 0) (30, 0) + manhattan_distance (30, 0) (0, 40).
Proof.
  apply (manhattan_metric (0, 0) (30, 0) (0, 40)); unfold in_range; simpl; lia.
Defined.

(** Out of that range the distance wraps around: it is negative between
    [(2^62, 0)] and [(-2^62, 0)], and zero between [(2^62, 2^62)] and
    [(-2^62, -2^62)]. *)
Example manhattan_wraps :
  manhattan_distance (4611686018427387904, 0) (-4611686018427387904, 0)
    = -9223372036854775808 ∧
  manhattan_distance (4611686018427387904, 4611686018427387904)
                     (-4611686018427387904, -4611686018427387904) = 0.
Proof. split; reflexivity. Qed.

(** ** The dictionaries of the builder *)

Lemma owner_lookup_from (df : list row) (st : locations) :
  (loc_owner_lookup st).*1 = (loc_name_to_coord st).*1 ->
  loc_owner_lookup (fold_left collect_location df st) =
    loc_owner_lookup st ++
    ((λ r, (row_Location r, row_Owner r)) <$> first_rows (loc_name_to_coord st).*1 df).
Proof.
  revert st. induction df as [|r df IH]; intros st Hkeys; cbn [fold_left first_rows].
  - by rewrite app_nil_r.
  - assert ((loc_owner_lookup (collect_location st r)).*1 =
            (loc_name_to_coord (collect_location st r)).*1) as Hkeys'.
    { unfold collect_location. case_decide; [done|].
      cbn [loc_name_to_coord loc_owner_lookup]. rewrite !fmap_app. by rewrite Hkeys. }
    rewrite (IH _ Hkeys'). unfold collect_location. case_decide as Hr; [done|].
    cbn [loc_name_to_coord loc_owner_lookup]. rewrite fmap_app.
    cbn [fmap list_fmap fst]. by rewrite <- app_assoc.
Qed.

Lemma owner_lookup_known (df : list row) :
  loc_owner_lookup (collect_locations df) =
    (λ r, (row_Location r, row_Owner r)) <$> known_locations df.
Proof. unfold collect_locations, known_locations. by rewrite owner_lookup_from. Qed.

Lemma owner_lookup_build (hypot : Z -> Z -> Q) (df : list row) (f : bool) :
  owner_lookup (build_graph_from_excel hypot df f) = loc_owner_lookup (collect_locations df).
Proof.
  unfold build_graph_from_excel.
  by destruct (fold_left add_route (groupby_Path df) (∅, ∅)) as [g l].
Qed.

Lemma dict_get_first_rows {V : Type} (field : row -> V) (seen : list string)
    (df : list row) (name : string) :
  name ∉ seen ->
  dict_get ((λ r, (row_Location r, field r)) <$> first_rows seen df) name =
    field <$> List.find (λ r, String.eqb name (row_Location r)) df.
Proof.
  revert seen. induction df as [|r df IH]; intros seen Hname; [done|].
  cbn [first_rows List.find]. case_decide as Hr.
  - destruct (String.eqb_spec name (row_Location r)) as [->|_]; [done|]. by apply IH.
  - cbn [fmap list_fmap dict_get].
    destruct (String.eqb_spec name (row_Location r)) as [->|Hne]; [done|].
    apply IH. rewrite elem_of_app, list_elem_of_singleton. tauto.
Qed.

(** X2.  The first row that carries a name decides the coordinates and
    the owner of the location: looking a name up in [name_to_coord] or in
    [owner_lookup] gives the values of that row, and fails exactly when no row
    carries the name. *)
Theorem first_row_wins (hypot : Z -> Z -> Q) (df : list row) (f : bool) (name : string) :
  dict_get (name_to_coord (build_graph_from_excel hypot df f)) name =
    row_coord <$> List.find (λ r, String.eqb name (row_Location r)) df ∧
  dict_get (owner_lookup (build_graph_from_excel hypot df f)) name =
    row_Owner <$> List.find (λ r, String.eqb name (row_Location r)) df.
Proof.
  rewrite name_to_coord_build, name_to_coord_known, owner_lookup_build, owner_lookup_known.
  unfold known_locations. split; apply dict_get_first_rows, not_elem_of_nil.
Qed.

Lemma dict_get_Some {V : Type} (d : list (string * V)) (k : string) (v : V) :
  dict_get d k = Some v -> (k, v) ∈ d.
Proof.
  induction d as [|[k' v'] d IH]; simpl; [done|].
  destruct (String.eqb_spec k k') as [->|_]; [intros [= ->]; left|intros ?; right; auto].
Qed.

Lemma dict_get_NoDup {V : Type} (d : list (string * V)) (k : string) (v : V) :
  NoDup d.*1 -> (k, v) ∈ d -> dict_get d k = Some v.
Proof.
  induction d as [|[k' v'] d IH]; simpl; [by intros _ ?%elem_of_nil|].
  rewrite NoDup_cons. intros [Hk' Hnd] [[= -> ->]|Hin]%elem_of_cons.
  - by rewrite String.eqb_refl.
  - destruct (String.eqb_spec k k') as [->|_]; [|by apply IH].
    destruct Hk'. apply list_elem_of_fmap. by exists (k', v).
Qed.

Lemma coord_to_name_from (d : list (string * Point)) (m : gmap Point string) c :
  (∀ k, fold_left (λ d kv, <[kv.2 := kv.1]> d) d m !! c = Some k ->
        m !! c = Some k ∨ (k, c) ∈ d) ∧
  (is_Some (m !! c) ∨ c ∈ d.*2 -> is_Some (fold_left (λ d kv, <[kv.2 := kv.1]> d) d m !! c)) ∧
  (c ∉ d.*2 -> fold_left (λ d kv, <[kv.2 := kv.1]> d) d m !! c = m !! c).
Proof.
  revert m. induction d as [|[k0 c0] d IH]; intros m; cbn [fold_left].
  - split; [auto|]. split; [|done]. intros [?|?%elem_of_nil]; done.
  - destruct (IH (<[c0 := k0]> m)) as (IH1 & IH2 & IH3). cbn [fst snd] in *.
    split; [|split].
    + intros k [Hk|Hk]%IH1; [|right; by right].
      rewrite lookup_insert in Hk. case_decide; [|by left].
      injection Hk as ->. subst c0. right. left.
    + intros H. apply IH2. rewrite lookup_insert. case_decide; [left; eauto|].
      destruct H as [?|[?|?]%elem_of_cons]; [by left|done|by right].
    + rewrite fmap_cons, not_elem_of_cons. intros [Hne Hc]. rewrite IH3 by done.
      by rewrite lookup_insert_ne.
Qed.

Lemma coord_to_name_injective (d : list (string * Point)) (m : gmap Point string) k c :
  NoDup d.*2 -> (k, c) ∈ d ->
  fold_left (λ d kv, <[kv.2 := kv.1]> d) d m !! c = Some k.
Proof.
  revert m. induction d as [|[k0 c0] d IH]; intros m; cbn [fold_left fst snd];
    [by intros _ ?%elem_of_nil|].
  rewrite fmap_cons, NoDup_cons. cbn [snd]. intros [Hc0 Hnd] [[= -> ->]|Hin]%elem_of_cons.
  - destruct (coord_to_name_from d (<[c0 := k0]> m) c0) as (_ & _ & H3).
    rewrite H3 by done. apply lookup_insert_eq.
  - by apply IH.
Qed.

Lemma name_to_coord_NoDup (hypot : Z -> Z -> Q) (df : list row) (f : bool) :
  NoDup (name_to_coord (build_graph_from_excel hypot df f)).*1.
Proof. rewrite name_to_coord_build, names_known. apply first_rows_NoDup. Qed.

(** X3.  [coord_to_name] undoes [name_to_coord]: the name it gives for a
    coordinate is a known name of that coordinate, and every coordinate of a
    known name has an entry.  When several names share a coordinate only
    one of them is kept; when no two names do, [coord_to_name] gives back
    the name that was looked up. *)
Theorem coord_to_name_round_trip (hypot : Z -> Z -> Q) (df : list row) (f : bool) :
  (∀ c name,
     coord_to_name (name_to_coord (build_graph_from_excel hypot df f)) !! c = Some name ->
     dict_get (name_to_coord (build_graph_from_excel hypot df f)) name = Some c) ∧
  (∀ name c,
     dict_get (name_to_coord (build_graph_from_excel hypot df f)) name = Some c ->
     is_Some (coord_to_name (name_to_coord (build_graph_from_excel hypot df f)) !! c)) ∧
  (NoDup (name_to_coord (build_graph_from_excel hypot df f)).*2 ->
   ∀ name c,
     dict_get (name_to_coord (build_graph_from_excel hypot df f)) name = Some c ->
     coord_to_name (name_to_coord (build_graph_from_excel hypot df f)) !! c = Some name).
Proof.
  pose proof (name_to_coord_NoDup hypot df f) as Hnd.
  split; [|split].
  - intros c name H. apply dict_get_NoDup; [done|].
    destruct (coord_to_name_from (name_to_coord (build_graph_from_excel hypot df f)) ∅ c)
      as (H1 & _). destruct (H1 name H) as [Hempty|?]; [|done].
    by rewrite lookup_empty in Hempty.
  - intros name c H%dict_get_Some.
    destruct (coord_to_name_from (name_to_coord (build_graph_from_excel hypot df f)) ∅ c)
      as (_ & H2 & _). apply H2. right. apply list_elem_of_fmap. by exists (name, c).
  - intros Hinj name c H%dict_get_Some. by apply coord_to_name_injective.
Qed.

Lemma coord_to_name_round_trip_witness :
  coord_to_name (name_to_coord (build_graph_from_excel hypot_up df_example false))
    !! (30, 0) = Some "Market" ∧
  dict_get (name_to_coord (build_graph_from_excel hypot_up df_example false)) "Market"
    = Some (30, 0).
Proof.
  split; [reflexivity|].
  apply (proj1 (coord_to_name_round_trip hypot_up df_example false) (30, 0) "Market").
  reflexivity.
Defined.

(** ** Rail routes *)

Lemma elem_of_insert_key (k x : string) (keys : list string) :
  x ∈ insert_key k keys ↔ x = k ∨ x ∈ keys.
Proof.
  induction keys as [|k' keys IH]; simpl.
  - rewrite list_elem_of_singleton, elem_of_nil. tauto.
  - destruct (String.compare k k') eqn:Hc.
    + apply String.compare_eq_iff in Hc as ->. rewrite elem_of_cons. tauto.
    + rewrite !elem_of_cons. tauto.
    + rewrite !elem_of_cons, IH. tauto.
Qed.

Lemma elem_of_group_keys (df : list row) (name : string) :
  name ∈ group_keys df ↔ ∃ r, r ∈ df ∧ row_Path r = Some name.
Proof.
  unfold group_keys. induction df as [|r df IH]; simpl.
  - rewrite elem_of_nil. split; [done|]. by intros (? & ?%elem_of_nil & _).
  - destruct (row_Path r) as [k|] eqn:Hr; simpl.
    + rewrite elem_of_insert_key, IH. split.
      * intros [->|(r' & ? & ?)]; [exists r; split; [left|done]|].
        exists r'. split; [by right|done].
      * intros (r' & [->|?]%elem_of_cons & Hp); [left; congruence|right; eauto].
    + rewrite IH. split.
      * intros (r' & ? & ?). exists r'. split; [by right|done].
      * intros (r' & [->|?]%elem_of_cons & Hp); [congruence|eauto].
Qed.

Lemma has_path_true (name : string) (r : row) :
  has_path name r = true ↔ row_Path r = Some name.
Proof.
  unfold has_path. destruct (row_Path r) as [k|]; [|done].
  destruct (String.eqb_spec name k) as [->|Hne]; [done|]. split; [done|congruence].
Qed.

Lemma group_in_groupby (df : list row) (name : string) r group :
  List.filter (has_path name) df = r :: group ->
  (Some name, r :: group) ∈ groupby_Path df.
Proof.
  intros Hgroup. unfold groupby_Path. apply list_elem_of_fmap. exists name.
  split; [by rewrite Hgroup|]. apply elem_of_group_keys. exists r.
  assert (In r (List.filter (has_path name) df)) as Hr by (rewrite Hgroup; left; done).
  apply List.filter_In in Hr as [Hr Hp]. split; [by apply list_elem_of_In|].
  by apply has_path_true.
Qed.

Lemma lookup_add_route_kept (st : gmap Point (list edge) * gmap (Point * Point) string)
    (pg : option string * list row) pq :
  is_Some (st.2 !! pq) -> is_Some ((add_route st pg).2 !! pq).
Proof.
  destruct st as [g l], pg as [[path|] group]; simpl; [|done].
  destruct group as [|r1 [|r2 [|r3 group]]]; simpl; try done.
  intros H. rewrite !lookup_insert. by repeat case_decide.
Qed.

Lemma lookup_add_routes_kept (groups : list (option string * list row))
    (st : gmap Point (list edge) * gmap (Point * Point) string) pq :
  is_Some (st.2 !! pq) -> is_Some ((fold_left add_route groups st).2 !! pq).
Proof.
  revert st. induction groups as [|pg groups IH]; intros st H; cbn [fold_left]; [done|].
  by apply IH, lookup_add_route_kept.
Qed.

Lemma lookup_add_routes_set (groups : list (option string * list row))
    (st : gmap Point (list edge) * gmap (Point * Point) string) (name : string) r1 r2 :
  (Some name, [r1; r2]) ∈ groups ->
  is_Some ((fold_left add_route groups st).2 !! (row_coord r1, row_coord r2)) ∧
  is_Some ((fold_left add_route groups st).2 !! (row_coord r2, row_coord r1)).
Proof.
  revert st. induction groups as [|pg groups IH]; intros st; cbn [fold_left];
    [by intros ?%elem_of_nil|].
  intros [<-|Hin]%elem_of_cons; [|by apply IH].
  split; apply lookup_add_routes_kept; destruct st as [g l]; simpl;
    rewrite !lookup_insert; repeat case_decide; first [done|by eexists].
Qed.

Lemma rail_route_lookup (hypot : Z -> Z -> Q) (df : list row) (f : bool)
    (name : string) r1 r2 :
  List.filter (has_path name) df = [r1; r2] ->
  is_Some (coord_pair_to_path (build_graph_from_excel hypot df f)
             !! (row_coord r1, row_coord r2)) ∧
  is_Some (coord_pair_to_path (build_graph_from_excel hypot df f)
             !! (row_coord r2, row_coord r1)).
Proof.
  intros Hgroup%group_in_groupby. rewrite coord_pair_to_path_build.
  by apply lookup_add_routes_set with (name := name).
Qed.

(** X4.  A route name carried by exactly two rows joins their two points
    by a rail edge in each direction, both of one weight, and both orders
    of the two points have an entry in [coord_pair_to_path]. *)
Theorem rail_route_connects (hypot : Z -> Z -> Q) (df : list row) (f : bool)
    (name : string) r1 r2 :
  List.filter (has_path name) df = [r1; r2] ->
  ∃ travel_time,
    (row_coord r2, travel_time, "normal")
      ∈ graph_get (graph (build_graph_from_excel hypot df f)) (row_coord r1) ∧
    (row_coord r1, travel_time, "normal")
      ∈ graph_get (graph (build_graph_from_excel hypot df f)) (row_coord r2) ∧
    is_Some (coord_pair_to_path (build_graph_from_excel hypot df f)
               !! (row_coord r1, row_coord r2)) ∧
    is_Some (coord_pair_to_path (build_graph_from_excel hypot df f)
               !! (row_coord r2, row_coord r1)).
Proof.
  intros Hgroup%group_in_groupby.
  exists (inject_Z (manhattan_distance (row_coord r1) (row_coord r2)) / 8)%Q.
  assert (∀ p e,
    (p = row_coord r1 ∧
     e = (row_coord r2,
          (inject_Z (manhattan_distance (row_coord r1) (row_coord r2)) / 8)%Q, "normal")) ∨
    (p = row_coord r2 ∧
     e = (row_coord r1,
          (inject_Z (manhattan_distance (row_coord r1) (row_coord r2)) / 8)%Q, "normal")) ->
    e ∈ graph_get (graph (build_graph_from_excel hypot df f)) p) as Hedge.
  { intros p e H. rewrite graph_build. apply elem_of_add_pairs. left.
    assert (e ∈ graph_get (fold_left add_route (groupby_Path df) (∅, ∅)).1 p) as Hbase.
    { apply elem_of_add_routes. right. by exists name, r1, r2. }
    destruct f; [|done]. apply elem_of_add_pairs. by left. }
  split; [apply Hedge; by left|]. split; [apply Hedge; by right|].
  rewrite coord_pair_to_path_build. by apply lookup_add_routes_set with (name := name).
Qed.

Lemma rail_route_connects_witness :
  ∃ travel_time,
    ((30, 0), travel_time, "normal")
      ∈ graph_get (graph (build_graph_from_excel hypot_up df_example false)) (0, 0) ∧
    ((0, 0), travel_time, "normal")
      ∈ graph_get (graph (build_graph_from_excel hypot_up df_example false)) (30, 0) ∧
    is_Some (coord_pair_to_path (build_graph_from_excel hypot_up df_example false)
               !! ((0, 0), (30, 0))) ∧
    is_Some (coord_pair_to_path (build_graph_from_excel hypot_up df_example false)
               !! ((30, 0), (0, 0))).
Proof.
  apply (rail_route_connects hypot_up df_example false "R1"
           (mk_row "Home" 0 0 "Base" (Some "R1"))
           (mk_row "Market" 30 0 "Ice Highway Stop" (Some "R1"))).
  reflexivity.
Defined.

(** ** The built graph as a whole *)

Lemma mirrored_empty : mirrored ∅.
Proof. intros v u w m H. rewrite graph_get_empty in H. by apply elem_of_nil in H. Qed.

Lemma mirrored_add_route (st : gmap Point (list edge) * gmap (Point * Point) string)
    (pg : option string * list row) :
  mirrored st.1 -> mirrored (add_route st pg).1.
Proof.
  intros Hsym v u w m. rewrite !elem_of_add_route.
  intros [Hold|(name & r1 & r2 & -> & [[-> [= -> -> ->]]|[-> [= -> -> ->]]])].
  - left. by apply Hsym.
  - right. exists name, r1, r2. split; [done|]. by right.
  - right. exists name, r1, r2. split; [done|]. by left.
Qed.

Lemma mirrored_add_routes (groups : list (option string * list row))
    (st : gmap Point (list edge) * gmap (Point * Point) string) :
  mirrored st.1 -> mirrored (fold_left add_route groups st).1.
Proof.
  revert st. induction groups as [|pg groups IH]; intros st Hsym; cbn [fold_left]; [done|].
  by apply IH, mirrored_add_route.
Qed.

Lemma mirrored_add_pair (hypot : Z -> Z -> Q) (speed : Z) (mode : string)
    (g : gmap Point (list edge)) (pq : Point * Point) :
  mirrored g -> mirrored (add_pair hypot speed mode g pq).
Proof.
  destruct pq as [p1 p2]. intros Hsym v u w m. rewrite !elem_of_add_pair.
  intros [Hold|[[-> [= -> -> ->]]|[-> [= -> -> ->]]]]; [left; by apply Hsym|auto..].
Qed.

Lemma mirrored_add_pairs (hypot : Z -> Z -> Q) (speed : Z) (mode : string)
    (pairs : list (Point * Point)) (g : gmap Point (list edge)) :
  mirrored g -> mirrored (fold_left (add_pair hypot speed mode) pairs g).
Proof.
  revert g. induction pairs as [|pq pairs IH]; intros g Hsym; cbn [fold_left]; [done|].
  by apply IH, mirrored_add_pair.
Qed.

(** X5.  The built graph is undirected: every edge has a reverse edge of
    the same weight and the same mode. *)
Theorem built_graph_undirected (hypot : Z -> Z -> Q) (df : list row) (f : bool) p q w
    (m : string) :
  (q, w, m) ∈ graph_get (graph (build_graph_from_excel hypot df f)) p ->
  (p, w, m) ∈ graph_get (graph (build_graph_from_excel hypot df f)) q.
Proof.
  revert p q w m. change (mirrored (graph (build_graph_from_excel hypot df f))).
  rewrite graph_build. apply mirrored_add_pairs.
  destruct f; [apply mirrored_add_pairs|]; apply mirrored_add_routes, mirrored_empty.
Qed.

Lemma built_graph_undirected_witness :
  ((30, 0), (50 / inject_Z 72)%Q, "ice")
    ∈ graph_get (graph (build_graph_from_excel hypot_up df_example true)) (0, 40).
Proof.
  apply (built_graph_undirected hypot_up df_example true (30, 0) (0, 40)).
  in_computed_list.
Defined.

(** X6.  Whatever the flag, the graph has [n * (n - 1)] directed walking
    edges, for [n] the number of known locations. *)
Theorem walk_edges_count (hypot : Z -> Z -> Q) (df : list row) (f : bool) :
  count_mode "walk" (graph (build_graph_from_excel hypot df f)) =
    (length (known_locations df) * (length (known_locations df) - 1))%nat.
Proof.
  rewrite graph_build, count_mode_add_pairs, String.eqb_refl.
  rewrite coords_known, index_pairs_fmap, length_fmap.
  assert (count_mode "walk"
            (if f
             then fold_left (add_pair hypot 72 "ice")
                    (index_pairs (loc_ice_highways (collect_locations df)))
                    (fold_left add_route (groupby_Path df) (∅, ∅)).1
             else (fold_left add_route (groupby_Path df) (∅, ∅)).1) = O) as ->.
  { destruct f; [rewrite count_mode_add_pairs|];
      rewrite count_mode_add_routes by done; cbn [fst]; rewrite count_mode_empty; done. }
  apply length_index_pairs.
Qed.

Lemma flag_off_edges (hypot : Z -> Z -> Q) (df : list row) p q w (m : string) :
  (q, w, m) ∈ graph_get (graph (build_graph_from_excel hypot df false)) p ↔
  (q, w, m) ∈ graph_get (graph (build_graph_from_excel hypot df true)) p ∧ m ≠ "ice".
Proof.
  split.
  - intros He. split.
    + rewrite graph_build in He |- *. apply elem_of_add_pairs in He as [He|He];
        apply elem_of_add_pairs; [left|by right]. apply elem_of_add_pairs. by left.
    + destruct (edge_of_build hypot df false p q w m He)
        as [(-> & _)|[(_ & ? & _)|(-> & _)]]; done.
  - intros [He Hm]. rewrite graph_build in He |- *.
    apply elem_of_add_pairs in He as [He|He]; apply elem_of_add_pairs; [left|by right].
    apply elem_of_add_pairs in He as [He|(p1 & p2 & _ & [[_ [= _ _ ->]]|[_ [= _ _ ->]]])];
      done.
Qed.

(** X7.  The flag changes nothing but the ice edges: the edges of the
    graph built with the flag off are the edges of the graph built with the
    flag on whose mode is not "ice", and the dictionaries returned with the
    graph are the same. *)
Theorem flag_adds_ice_edges_only (hypot : Z -> Z -> Q) (df : list row) :
  (∀ p q w (m : string),
     (q, w, m) ∈ graph_get (graph (build_graph_from_excel hypot df false)) p ↔
     (q, w, m) ∈ graph_get (graph (build_graph_from_excel hypot df true)) p ∧ m ≠ "ice") ∧
  name_to_coord (build_graph_from_excel hypot df false) =
    name_to_coord (build_graph_from_excel hypot df true) ∧
  owner_lookup (build_graph_from_excel hypot df false) =
    owner_lookup (build_graph_from_excel hypot df true) ∧
  coord_pair_to_path (build_graph_from_excel hypot df false) =
    coord_pair_to_path (build_graph_from_excel hypot df true).
Proof.
  split; [apply flag_off_edges|].
  by rewrite !name_to_coord_build, !owner_lookup_build, !coord_pair_to_path_build.
Qed.

(** ** Walks and least times *)



Section LeastTimes.

Variable hypot : Z -> Z -> Q.
Hypothesis hypot_nonneg : ∀ a b, (0 <= hypot a b)%Q.



End LeastTimes.



(** ** More on the search *)

Lemma covered_frontier (g : gmap Point (list edge)) (s : Point) (queue : list entry)
    (seen : gset Point) x c :
  covered g queue seen -> s ∈ seen ∨ (∃ e, e ∈ queue ∧ e.1.2 = s) ->
  walk g s x c -> x ∉ seen -> ∃ e, e ∈ queue.
Proof.
  intros Hcov Hstart Hwalk. induction Hwalk as [|v c u w m Hwalk IH Hedge]; intros Hx.
  - destruct Hstart as [?|(e & He & _)]; [done|eauto].
  - destruct (decide (v ∈ seen)) as [Hv|Hv]; [|by apply IH].
    destruct (Hcov v Hv u w m Hedge) as [?|(e & He & _)]; [done|eauto].
Qed.

Lemma dijkstra_loop_none (g : gmap Point (list edge)) (s goal : Point) (fuel : nat) :
  ∀ (queue : list entry) (seen : gset Point),
    covered g queue seen -> s ∈ seen ∨ (∃ e, e ∈ queue ∧ e.1.2 = s) -> goal ∉ seen ->
    dijkstra_loop fuel g goal queue seen = Ret None ->
    ∀ c, ¬ walk g s goal c.
Proof.
  induction fuel as [|fuel IH]; intros queue seen Hcov Hstart Hgoal; simpl; [done|].
  destruct queue as [|e q].
  { intros _ c Hwalk.
    destruct (covered_frontier g s [] seen goal c Hcov Hstart Hwalk Hgoal)
      as (? & ?%elem_of_nil). done. }
  destruct (heappop e q) as [[[t node] path] queue'] eqn:Hpop.
  case_decide as Hseen.
  { apply IH; [|by destruct Hstart as [?|(x & [->|?]%(heappop_elem _ _ _ _ _ Hpop) & <-)];
                  eauto|done].
    intros u Hu v w m Hedge.
    destruct (Hcov u Hu v w m Hedge)
      as [?|(x & [->|?]%(heappop_elem _ _ _ _ _ Hpop) & <-)]; eauto. }
  case_decide as Hnode; [done|].
  apply IH.
  - intros u [->%elem_of_singleton|Hu]%elem_of_union v w m Hedge.
    + destruct (decide (v ∈ ({[node]} ∪ seen : gset Point))) as [?|Hv]; [by left|].
      right. exists ((t + w)%Q, v, (path ++ [Hop node t]) ++ [Mode m]).
      split; [|done]. apply elem_of_push_neighbors. right. eauto 10.
    + destruct (Hcov u Hu v w m Hedge)
        as [?|(x & [->|?]%(heappop_elem _ _ _ _ _ Hpop) & <-)].
      * left. apply elem_of_union. by right.
      * left. apply elem_of_union. left. by apply elem_of_singleton.
      * right. exists x. split; [|done]. apply elem_of_push_neighbors. by left.
  - destruct Hstart as [?|(x & [->|?]%(heappop_elem _ _ _ _ _ Hpop) & <-)].
    + left. apply elem_of_union. by right.
    + left. apply elem_of_union. left. by apply elem_of_singleton.
    + right. exists x. split; [|done]. apply elem_of_push_neighbors. by left.
  - rewrite elem_of_union, elem_of_singleton. intros [?|?]; [congruence|done].
Qed.

Lemma dijkstra_reaches (g : gmap Point (list edge)) (s goal : Point) c :
  walk g s goal c -> ∃ path t, dijkstra g s goal = Ret (Some path) ∧ is_trace g s path goal t.
Proof.
  intros Hwalk. pose proof (dijkstra_terminates g s goal) as [r Hr].
  destruct r as [path|].
  - destruct (dijkstra_trace g s goal path Hr) as (t & Htr & _). eauto.
  - exfalso. revert Hr c Hwalk.
    apply dijkstra_loop_none; [|right; exists (0%Q, s, []); split; [left|done]
                               |apply not_elem_of_empty].
    by intros u ?%not_elem_of_empty.
Qed.

(** X10.  Whatever the weights, the search comes to an end within its
    bound on the iterations, and it returns a list exactly when some walk
    leads from the start to the goal: it returns [None] when, and only when,
    the goal cannot be reached. *)
Theorem search_outcome (g : gmap Point (list edge)) (s goal : Point) :
  (∃ r, dijkstra g s goal = Ret r) ∧
  (dijkstra g s goal = Ret None ↔ ¬ ∃ c, walk g s goal c) ∧
  ((∃ path, dijkstra g s goal = Ret (Some path)) ↔ ∃ c, walk g s goal c).
Proof.
  pose proof (dijkstra_terminates g s goal) as [r Hr].
  assert (dijkstra g s goal = Ret None -> ∀ c, ¬ walk g s goal c) as Hnone.
  { apply dijkstra_loop_none; [|right; exists (0%Q, s, []); split; [left|done]
                               |apply not_elem_of_empty].
    by intros u ?%not_elem_of_empty. }
  assert (∀ path, dijkstra g s goal = Ret (Some path) -> ∃ c, walk g s goal c) as Hsome.
  { intros path (t & Htr & _)%dijkstra_trace. exists t. by eapply is_trace_walk. }
  split; [eauto|]. split; split.
  - intros H [c Hc]. by apply (Hnone H c).
  - intros Hno. destruct r as [path|]; [|done]. destruct Hno. eauto.
  - intros [path Hp]. eauto.
  - intros [c Hc]. destruct r as [path|]; [eauto|]. by destruct (Hnone Hr c).
Qed.

Lemma hop_nodes_app (l1 l2 : list elem) : hop_nodes (l1 ++ l2) = hop_nodes l1 ++ hop_nodes l2.
Proof. apply omap_app. Qed.

Lemma elem_of_hop_nodes (l : list elem) p : p ∈ hop_nodes l ↔ ∃ u, Hop p u ∈ l.
Proof.
  unfold hop_nodes. rewrite list_elem_of_omap. split.
  - intros ([q u|m] & Hin & [= ->]). eauto.
  - intros [u Hin]. by exists (Hop p u).
Qed.

Lemma dijkstra_loop_simple (g : gmap Point (list edge)) (s goal : Point) (fuel : nat) :
  ∀ (queue : list entry) (seen : gset Point) path,
    (∀ e, e ∈ queue -> entry_ok g s seen e ∧ NoDup (hop_nodes e.2)) ->
    dijkstra_loop fuel g goal queue seen = Ret (Some path) ->
    NoDup (hop_nodes path).
Proof.
  induction fuel as [|fuel IH]; intros queue seen result Hq; simpl; [done|].
  destruct queue as [|e q]; [done|].
  destruct (heappop e q) as [[[t node] path] queue'] eqn:Hpop.
  assert (entry_ok g s seen (t, node, path) ∧ NoDup (hop_nodes path)) as [[Htr Hhops] Hnd].
  { apply Hq, (heappop_elem _ _ _ _ _ Hpop). by left. }
  simpl in Htr, Hhops.
  case_decide as Hseen.
  { apply IH. intros x Hx. apply Hq, (heappop_elem _ _ _ _ _ Hpop). by right. }
  assert (NoDup (hop_nodes (path ++ [Hop node t]))) as Hnd'.
  { rewrite hop_nodes_app. apply NoDup_app. split; [done|]. split; [|apply NoDup_singleton].
    intros p [u Hp]%elem_of_hop_nodes ->%list_elem_of_singleton. eauto. }
  case_decide as Hnode; [by intros [= <-]|].
  apply IH. intros x Hx. split.
  - eapply queue_ok_after_expand; [|done..]. intros y Hy. by apply Hq.
  - apply elem_of_push_neighbors in Hx as [Hx|(v & w & m & _ & _ & ->)].
    + apply Hq, (heappop_elem _ _ _ _ _ Hpop). by right.
    + simpl. rewrite hop_nodes_app. simpl. by rewrite app_nil_r.
Qed.

(** X11.  A returned list visits no node twice; its first hop is at the
    start and its last hop at the goal. *)
Theorem trace_visits_nodes_once (g : gmap Point (list edge)) (s goal : Point) path :
  dijkstra g s goal = Ret (Some path) ->
  NoDup (hop_nodes path) ∧
  head (hop_nodes path) = Some s ∧
  last (hop_nodes path) = Some goal.
Proof.
  intros Hrun. split; [|split].
  - eapply dijkstra_loop_simple; [|exact Hrun].
    intros e ->%list_elem_of_singleton. split; [|constructor].
    split; simpl; [apply trace_start|]. by intros p u ?%elem_of_nil.
  - apply dijkstra_trace in Hrun as (t & Htr & _).
    destruct (is_trace_shape _ _ _ _ _ Htr) as (n & _ & Hfirst & _).
    destruct path as [|x path]; [done|]. by injection Hfirst as ->.
  - apply dijkstra_trace in Hrun as (t & Htr & _).
    destruct Htr; [done|]. rewrite hop_nodes_app. simpl. by rewrite last_snoc.
Qed.

Lemma trace_visits_nodes_once_witness :
  NoDup (hop_nodes trace_home_market) ∧
  head (hop_nodes trace_home_market) = Some (0, 0) ∧
  last (hop_nodes trace_home_market) = Some (30, 0).
Proof.
  apply (trace_visits_nodes_once g_example (0, 0) (30, 0) trace_home_market). reflexivity.
Defined.

Lemma dijkstra_same_node (g : gmap Point (list edge)) (s : Point) :
  dijkstra g s s = Ret (Some [Hop s 0%Q]).
Proof.
  unfold dijkstra, dijkstra_fuel. cbn [dijkstra_loop heappop].
  rewrite decide_False by apply not_elem_of_empty. by rewrite decide_True.
Qed.

(** X12.  A query between two names of the same coordinates (or from a
    name to itself) finds a route without steps: both totals are zero and no
    rail line is named. *)
Theorem same_point_route_is_empty (hypot : Z -> Z -> Q) (df : list row) (f : bool)
    (A B : string) c :
  dict_get (name_to_coord (build_graph_from_excel hypot df f)) A = Some c ->
  dict_get (name_to_coord (build_graph_from_excel hypot df f)) B = Some c ->
  find_route hypot df f A B =
    Ret (RouteFound {| total_time := 0; total_distance := 0;
                       route_steps := []; rail_paths := [] |}).
Proof.
  intros HA HB. unfold find_route.
  assert (∀ X, dict_get (name_to_coord (build_graph_from_excel hypot df f)) X = Some c ->
               X ∈ (name_to_coord (build_graph_from_excel hypot df f)).*1) as Hkey.
  { intros X HX%dict_get_Some. apply list_elem_of_fmap. by exists (X, c). }
  rewrite (resolve_name_known _ A (Hkey A HA)), (resolve_name_known _ B (Hkey B HB)).
  rewrite HA, HB, dijkstra_same_node. reflexivity.
Qed.

Lemma same_point_route_is_empty_witness :
  find_route hypot_up df_colocated true "North Gate" "Old Gate" =
    Ret (RouteFound {| total_time := 0; total_distance := 0;
                       route_steps := []; rail_paths := [] |}).
Proof.
  apply (same_point_route_is_empty hypot_up df_colocated true "North Gate" "Old Gate" (5, 5));
    reflexivity.
Defined.

(** ** More on the segment loop *)

(** A property of the accumulated results that every iteration keeps holds
    of the results of the loop. *)
Lemma segment_loop_invariant (coord_pair_to_path : gmap (Point * Point) string)
    (path : list elem) (I : route_results -> Prop) :
  (∀ i st coord time mode next_coord next_time,
     path !! i = Some (Hop coord time) -> path !! (i + 1)%nat = Some (Mode mode) ->
     path !! (i + 2)%nat = Some (Hop next_coord next_time) ->
     I st ->
     I {| total_time := next_time;
          total_distance := (total_distance st + (next_time - time) * mode_speed mode)%Q;
          route_steps := route_steps st ++
            [{| step_mode := mode; step_from := coord; step_to := next_coord;
                step_distance := ((next_time - time) * mode_speed mode)%Q;
                step_time := (next_time - time)%Q |}];
          rail_paths :=
            if String.eqb mode "normal" then
              match coord_pair_to_path !! (coord, next_coord) with
              | Some path_name =>
                  if String.eqb path_name "" then rail_paths st
                  else rail_paths st ++ [path_name]
              | None => rail_paths st
              end
            else rail_paths st |}) ->
  ∀ idx st r, I st -> segment_loop coord_pair_to_path path idx st = Some r -> I r.
Proof.
  intros Hstep idx. induction idx as [|i idx IH]; intros st r Hst; simpl.
  - by intros [= <-].
  - case_decide; [by intros [= <-]|].
    destruct (path !! i) as [[coord time|]|] eqn:H0; [|done..].
    destruct (path !! (i + 1)%nat) as [[|mode]|] eqn:H1; [done| |done].
    destruct (path !! (i + 2)%nat) as [[next_coord next_time|]|] eqn:H2; [|done..].
    intros Hrun. eapply IH; [|exact Hrun]. by eapply Hstep.
Qed.

(** ** Steps and edges *)

Lemma is_trace_segment (g : gmap Point (list edge)) (s : Point) path v t :
  is_trace g s path v t ->
  ∀ i a ta m b tb,
    path !! i = Some (Hop a ta) -> path !! (i + 1)%nat = Some (Mode m) ->
    path !! (i + 2)%nat = Some (Hop b tb) ->
    ∃ w, tb = (ta + w)%Q ∧ (b, w, m) ∈ graph_get g a.
Proof.
  induction 1 as [|path v t u w m0 Htr IH Hedge]; intros i a ta m b tb H0 H1 H2.
  - apply lookup_lt_Some in H1. simpl in H1. lia.
  - pose proof (is_trace_last _ _ _ _ _ Htr) as Hlast. rewrite last_lookup in Hlast.
    assert (0 < length path)%nat as Hpos.
    { destruct path; [done|simpl; lia]. }
    destruct (decide (i + 2 < length path)%nat) as [Hlt|Hge].
    { rewrite lookup_app_l in H0, H1, H2 by lia. eauto. }
    pose proof (lookup_lt_Some _ _ _ H2) as Hi. rewrite length_app in Hi. simpl in Hi.
    destruct (decide (i + 2 = length path)%nat) as [Heq|Hne].
    { rewrite lookup_app_r in H2 by lia.
      replace (i + 2 - length path)%nat with O in H2 by lia. done. }
    assert (i = pred (length path)) as -> by lia.
    rewrite lookup_app_l in H0 by lia. rewrite Hlast in H0. injection H0 as <- <-.
    rewrite lookup_app_r in H1, H2 by lia.
    replace (pred (length path) + 1 - length path)%nat with O in H1 by lia.
    replace (pred (length path) + 2 - length path)%nat with 1%nat in H2 by lia.
    injection H1 as <-. injection H2 as <- <-. eauto.
Qed.

(** X14.  Every step of a found route travels along an edge of the built
    graph, in the mode of that edge, which is one of "normal", "ice" and
    "walk" -- "ice" only with the flag on: the default speed [1] of the
    loop is never used. *)
Theorem steps_follow_edges (hypot : Z -> Z -> Q) (df : list row) (f : bool) (s goal : Point)
    (coord_pair_to_path : gmap (Point * Point) string) path r :
  dijkstra (graph (build_graph_from_excel hypot df f)) s goal = Ret (Some path) ->
  reconstruct coord_pair_to_path path = Some r ->
  Forall (λ st,
            (∃ w, (step_to st, w, step_mode st)
                    ∈ graph_get (graph (build_graph_from_excel hypot df f)) (step_from st)) ∧
            (step_mode st = "normal" ∨ (step_mode st = "ice" ∧ f = true) ∨
             step_mode st = "walk"))
         (route_steps r).
Proof.
  intros (t & Htr & _)%dijkstra_trace Hrun. unfold reconstruct in Hrun.
  eapply (segment_loop_invariant _ _ (λ x, Forall _ (route_steps x)));
    [| |exact Hrun]; [|by constructor].
  intros i st a ta m b tb H0 H1 H2 Hst. cbn [route_steps].
  apply Forall_app. split; [done|]. constructor; [|constructor]. simpl.
  destruct (is_trace_segment _ _ _ _ _ Htr i a ta m b tb H0 H1 H2) as (w & _ & He).
  split; [eauto|].
  destruct (edge_of_build hypot df f a b w m He)
    as [(-> & _)|[(-> & -> & _)|(-> & _)]]; auto.
Qed.

Lemma steps_follow_edges_witness :
  Forall (λ st,
            (∃ w, (step_to st, w, step_mode st) ∈ graph_get g_example (step_from st)) ∧
            (step_mode st = "normal" ∨ (step_mode st = "ice" ∧ true = true) ∨
             step_mode st = "walk"))
         [{| step_mode := "normal"; step_from := (0, 0); step_to := (30, 0);
             step_distance := ((30 # 8) - 0) * 8; step_time := (30 # 8) - 0 |}].
Proof.
  apply (steps_follow_edges hypot_up df_example true (0, 0) (30, 0) ∅ trace_home_market
           {| total_time := (30 # 8); total_distance := 0 + ((30 # 8) - 0) * 8;
              route_steps := [{| step_mode := "normal"; step_from := (0, 0);
                                 step_to := (30, 0);
                                 step_distance := ((30 # 8) - 0) * 8;
                                 step_time := (30 # 8) - 0 |}];
              rail_paths := [] |}); reflexivity.
Defined.


(** X15.  The rail lines named for the map are route names carried by
    exactly two rows; there is at most one of them per rail step, and exactly
    one per rail step when no row carries the empty route name. *)
Theorem rail_paths_are_routes (hypot : Z -> Z -> Q) (df : list row) (f : bool)
    (s goal : Point) path r :
  dijkstra (graph (build_graph_from_excel hypot df f)) s goal = Ret (Some path) ->
  reconstruct (coord_pair_to_path (build_graph_from_excel hypot df f)) path = Some r ->
  Forall (λ name, name ≠ "" ∧ ∃ r1 r2, List.filter (has_path name) df = [r1; r2])
    (rail_paths r) ∧
  (length (rail_paths r) ≤
     length (List.filter (λ st, String.eqb (step_mode st) "normal") (route_steps r)))%nat ∧
  ((∀ x, x ∈ df -> row_Path x ≠ Some "") ->
   length (rail_paths r) =
     length (List.filter (λ st, String.eqb (step_mode st) "normal") (route_steps r))).
Proof.
  intros (t & Htr & _)%dijkstra_trace Hrun. unfold reconstruct in Hrun.
  eapply (segment_loop_invariant _ _
            (λ x, Forall _ (rail_paths x) ∧
                  (length (rail_paths x) ≤
                     length (List.filter (λ st, String.eqb (step_mode st) "normal")
                               (route_steps x)))%nat ∧
                  ((∀ x, x ∈ df -> row_Path x ≠ Some "") ->
                   length (rail_paths x) =
                     length (List.filter (λ st, String.eqb (step_mode st) "normal")
                               (route_steps x)))));
    [| |exact Hrun]; [|by repeat split; try constructor].
  intros i st a ta m b tb H0 H1 H2 (Hvalid & Hle & Heq).
  cbn [route_steps rail_paths]. rewrite List.filter_app, length_app. cbn [List.filter step_mode].
  destruct (String.eqb_spec m "normal") as [->|Hm]; cbn [length].
  2: { split; [done|]. split; [lia|]. intros H. rewrite (Heq H). lia. }
  destruct (is_trace_segment _ _ _ _ _ Htr i a ta "normal" b tb H0 H1 H2) as (w & _ & He).
  destruct (coord_pair_to_path (build_graph_from_excel hypot df f) !! (a, b))
    as [name|] eqn:Hname.
  - assert (∃ r1 r2, List.filter (has_path name) df = [r1; r2]) as Hroute.
    { rewrite coord_pair_to_path_build in Hname.
      apply lookup_add_routes in Hname as [Hname|(r1 & r2 & Hin & _)];
        [cbn [snd] in Hname; by rewrite lookup_empty in Hname|].
      apply elem_of_groupby_Path in Hin as (name' & [= <-] & Hgroup). eauto. }
    destruct (String.eqb_spec name "") as [->|Hne].
    + split; [done|]. split; [lia|]. intros Hrows. exfalso.
      destruct Hroute as (r1 & r2 & Hgroup).
      assert (In r1 (List.filter (has_path "") df)) as Hr1 by (rewrite Hgroup; by left).
      apply List.filter_In in Hr1 as [Hr1 Hp%has_path_true].
      by apply (Hrows r1); [apply list_elem_of_In|].
    + rewrite length_app. cbn [length]. split; [|split; [lia|]].
      * apply Forall_app. split; [done|]. by constructor.
      * intros H. rewrite (Heq H). lia.
  - exfalso.
    destruct (edge_of_build hypot df f a b w "normal" He)
      as [(_ & name & r1 & r2 & Hgroup & _ & Hab)|[(? & _)|(? & _)]]; [|done..].
    destruct (rail_route_lookup hypot df f name r1 r2 Hgroup) as [H12 H21].
    destruct Hab as [[-> ->]|[-> ->]]; rewrite Hname in *; by destruct H12, H21.
Qed.

Lemma rail_paths_are_routes_witness :
  ∃ r, reconstruct (coord_pair_to_path (build_graph_from_excel hypot_up df_example true))
         trace_home_market = Some r ∧
       Forall (λ name, name ≠ "" ∧
                 ∃ r1 r2, List.filter (has_path name) df_example = [r1; r2])
         (rail_paths r) ∧
       (length (rail_paths r) ≤
          length (List.filter (λ st, String.eqb (step_mode st) "normal")
                    (route_steps r)))%nat ∧
       ((∀ x, x ∈ df_example -> row_Path x ≠ Some "") ->
        length (rail_paths r) =
          length (List.filter (λ st, String.eqb (step_mode st) "normal") (route_steps r))).
Proof.
  eexists. split; [reflexivity|].
  apply (rail_paths_are_routes hypot_up df_example true (0, 0) (30, 0) trace_home_market);
    reflexivity.
Defined.

(** ** Durations *)

Lemma Qfloor_unique (x : Q) (z : Z) :
  (inject_Z z <= x)%Q -> (x < inject_Z (z + 1))%Q -> Qfloor x = z.
Proof.
  intros Hle Hlt.
  pose proof (Qfloor_le x) as H1. pose proof (Qlt_floor x) as H2.
  assert (Qfloor x < z + 1).
  { rewrite Zlt_Qlt. eapply Qle_lt_trans; [exact H1|exact Hlt]. }
  assert (z < Qfloor x + 1).
  { rewrite Zlt_Qlt. eapply Qle_lt_trans; [exact Hle|exact H2]. }
  lia.
Qed.

Lemma time_fields (seconds : Q) :
  0 <= Qfloor (seconds - 60 * inject_Z (Qfloor (seconds / 60))) < 60 ∧
  60 * Qfloor (seconds / 60) + Qfloor (seconds - 60 * inject_Z (Qfloor (seconds / 60)))
    = Qfloor seconds.
Proof.
  set (m := Qfloor (seconds / 60)).
  set (x := (seconds - 60 * inject_Z m)%Q).
  pose proof (Qfloor_le (seconds / 60)) as H1. pose proof (Qlt_floor (seconds / 60)) as H2.
  fold m in H1, H2. rewrite inject_Z_plus in H2. change (inject_Z 1) with 1%Q in H2.
  unfold Qdiv in H1, H2. change (/ 60)%Q with (1 # 60)%Q in H1, H2.
  assert (60 * inject_Z m <= seconds)%Q as Hlo.
  { lra. }
  assert (seconds < 60 * inject_Z m + 60)%Q as Hhi.
  { lra. }
  assert (0 <= x)%Q as Hx0 by (unfold x; lra).
  assert (x < 60)%Q as Hx60 by (unfold x; lra).
  pose proof (Qfloor_le x) as H3. pose proof (Qlt_floor x) as H4.
  rewrite inject_Z_plus in H4. change (inject_Z 1) with 1%Q in H4.
  pose proof (Qfloor_resp_le 0 x Hx0) as H5. change (Qfloor 0) with 0 in H5.
  assert (Qfloor x < 60) as H6.
  { rewrite Zlt_Qlt. change (inject_Z 60) with 60%Q. lra. }
  split; [lia|]. symmetry. apply Qfloor_unique.
  - rewrite inject_Z_plus, inject_Z_mult. change (inject_Z 60) with 60%Q. subst x. lra.
  - rewrite !inject_Z_plus, inject_Z_mult. change (inject_Z 60) with 60%Q.
    change (inject_Z 1) with 1%Q. subst x. lra.
Qed.

(** X16.  For a duration from 0 up to [2^53] seconds, where the [//] and
    [%] of doubles are exact, the two fields are not negative, the seconds
    field is at most 59, and sixty times the minutes field plus the seconds
    field is the duration rounded down. *)
Theorem format_time_fields (seconds : Q) :
  (0 <= seconds)%Q -> (seconds < 9007199254740992)%Q ->
  ∃ minutes secs,
    format_time seconds = String.append (pad2 minutes) (String.append ":" (pad2 secs)) ∧
    0 <= minutes ∧
    0 <= secs < 60 ∧
    60 * minutes + secs = Qfloor seconds.
Proof.
  intros Hpos _.
  exists (Qfloor (seconds / 60)), (Qfloor (seconds - 60 * inject_Z (Qfloor (seconds / 60)))).
  destruct (time_fields seconds) as [Hsecs Hsum]. split; [done|]. split; [|done].
  pose proof (Qfloor_resp_le 0 seconds Hpos) as H. change (Qfloor 0) with 0 in H. lia.
Qed.

Lemma format_time_fields_witness :
  ∃ minutes secs,
    format_time (15 # 4) = String.append (pad2 minutes) (String.append ":" (pad2 secs)) ∧
    0 <= minutes ∧
    0 <= secs < 60 ∧
    60 * minutes + secs = Qfloor (15 # 4).
Proof. by apply (format_time_fields (15 # 4)). Defined.

Lemma pad2_digits (n : Z) :
  0 <= n < 100 ->
  pad2 n = String (pretty_N_char (Z.to_N (n / 10)))
             (String (pretty_N_char (Z.to_N (n mod 10))) EmptyString).
Proof.
  intros Hn. rewrite <- (Z2Nat.id n) by lia.
  assert (Z.to_nat n < 100)%nat as Hlt by lia. revert Hlt. generalize (Z.to_nat n).
  intros k. do 100 (destruct k as [|k]; [reflexivity|]). lia.
Qed.

Lemma minutes_bound (seconds : Q) :
  (0 <= seconds)%Q -> (seconds < 6000)%Q -> 0 <= Qfloor (seconds / 60) < 100.
Proof.
  intros H0 H1. destruct (time_fields seconds) as [Hsecs Hsum].
  pose proof (Qfloor_resp_le 0 seconds H0) as Hlo. change (Qfloor 0) with 0 in Hlo.
  assert (Qfloor seconds < 6000).
  { rewrite Zlt_Qlt. eapply Qle_lt_trans; [apply Qfloor_le|done]. }
  lia.
Qed.

Lemma format_time_digits (seconds : Q) :
  (0 <= seconds)%Q -> (seconds < 6000)%Q ->
  format_time seconds =
    String (pretty_N_char (Z.to_N (Qfloor seconds / 60 / 10)))
      (String (pretty_N_char (Z.to_N ((Qfloor seconds / 60) mod 10)))
         (String ":"
            (String (pretty_N_char (Z.to_N ((Qfloor seconds mod 60) / 10)))
               (String (pretty_N_char (Z.to_N ((Qfloor seconds mod 60) mod 10)))
                  EmptyString)))).
Proof.
  intros H0 H1. destruct (time_fields seconds) as [Hsecs Hsum].
  pose proof (minutes_bound seconds H0 H1) as Hmin.
  assert (Qfloor seconds / 60 = Qfloor (seconds / 60)) as ->.
  { symmetry. apply (Z.div_unique _ _ _ (Qfloor (seconds - 60 * inject_Z (Qfloor (seconds / 60)))));
      [lia|]. lia. }
  assert (Qfloor seconds mod 60 = Qfloor (seconds - 60 * inject_Z (Qfloor (seconds / 60))))
    as ->.
  { symmetry. apply (Z.mod_unique _ _ (Qfloor (seconds / 60))); [lia|]. lia. }
  unfold format_time. rewrite !pad2_digits by lia. reflexivity.
Qed.

Lemma digit_inj (x y : Z) :
  0 <= x < 10 -> 0 <= y < 10 ->
  pretty_N_char (Z.to_N x) = pretty_N_char (Z.to_N y) -> x = y.
Proof.
  intros Hx Hy H. apply pretty_N_char_inj in H; [|lia..]. lia.
Qed.

(** X17.  A duration under one hundred minutes is rendered on exactly five
    characters, and two such durations are rendered alike exactly when they
    have the same whole number of seconds. *)
Theorem format_time_under_100_minutes (a b : Q) :
  (0 <= a)%Q -> (a < 6000)%Q -> (0 <= b)%Q -> (b < 6000)%Q ->
  String.length (format_time a) = 5%nat ∧
  (format_time a = format_time b ↔ Qfloor a = Qfloor b).
Proof.
  intros Ha0 Ha1 Hb0 Hb1. rewrite !format_time_digits by done. split; [done|].
  split; [|by intros ->].
  pose proof (minutes_bound a Ha0 Ha1) as Hma. pose proof (minutes_bound b Hb0 Hb1) as Hmb.
  destruct (time_fields a) as [Hsa Hsuma]. destruct (time_fields b) as [Hsb Hsumb].
  assert (0 <= Qfloor a < 6000 ∧ 0 <= Qfloor b < 6000) as [Hfa Hfb] by lia.
  intros [= H1 H2 H3 H4].
  apply digit_inj in H1, H2, H3, H4; try (clear - Hfa Hfb; Z.div_mod_to_equations; lia).
  clear - H1 H2 H3 H4. Z.div_mod_to_equations. lia.
Qed.

Lemma format_time_under_100_minutes_witness :
  String.length (format_time (15 # 4)) = 5%nat ∧
  (format_time (15 # 4) = format_time (7 # 2) ↔ Qfloor (15 # 4) = Qfloor (7 # 2)).
Proof. apply (format_time_under_100_minutes (15 # 4) (7 # 2)); done. Defined.

(** ** Percent-encoding *)

Lemma hex_digit_code (n : N) :
  (n < 16)%N ->
  Ascii.N_of_ascii (hex_digit n) = (if n <? 10 then 48 + n else 55 + n)%N.
Proof.
  intros Hn. unfold hex_digit. destruct (N.ltb_spec n 10);
    apply Ascii.N_ascii_embedding; lia.
Qed.

Lemma hex_digit_inj (a b : N) :
  (a < 16)%N -> (b < 16)%N -> hex_digit a = hex_digit b -> a = b.
Proof.
  intros Ha Hb H. apply (f_equal Ascii.N_of_ascii) in H.
  rewrite !hex_digit_code in H by done.
  destruct (N.ltb_spec a 10), (N.ltb_spec b 10); lia.
Qed.

Lemma hex_digit_is_hex (n : N) : (n < 16)%N -> is_hex_digit (hex_digit n) = true.
Proof.
  intros Hn. unfold is_hex_digit. rewrite hex_digit_code by done.
  destruct (N.ltb_spec n 10).
  - replace (48 <=? 48 + n)%N with true by (symmetry; apply N.leb_le; lia).
    replace (48 + n <=? 57)%N with true by (symmetry; apply N.leb_le; lia). done.
  - replace (65 <=? 55 + n)%N with true by (symmetry; apply N.leb_le; lia).
    replace (55 + n <=? 70)%N with true by (symmetry; apply N.leb_le; lia).
    by rewrite orb_true_r.
Qed.

Lemma ascii_code_split (c : Ascii.ascii) :
  (Ascii.N_of_ascii c / 16 < 16)%N ∧ (Ascii.N_of_ascii c mod 16 < 16)%N.
Proof.
  pose proof (Ascii.N_ascii_bounded c). split.
  - apply N.Div0.div_lt_upper_bound. lia.
  - by apply N.mod_lt.
Qed.

Lemma ascii_of_halves (c1 c2 : Ascii.ascii) :
  (Ascii.N_of_ascii c1 / 16 = Ascii.N_of_ascii c2 / 16)%N ->
  (Ascii.N_of_ascii c1 mod 16 = Ascii.N_of_ascii c2 mod 16)%N ->
  c1 = c2.
Proof.
  intros Hd Hm. rewrite <- (Ascii.ascii_N_embedding c1), <- (Ascii.ascii_N_embedding c2).
  f_equal. rewrite (N.div_mod (Ascii.N_of_ascii c1) 16), (N.div_mod (Ascii.N_of_ascii c2) 16)
    by done. by rewrite Hd, Hm.
Qed.

Lemma percent_not_kept (safe : string) (c : Ascii.ascii) :
  char_in "%" safe = false -> is_unreserved c || char_in c safe = true -> c ≠ "%"%char.
Proof. intros Hsafe Hc ->. by rewrite Hsafe in Hc. Qed.

(** X18.  When the percent sign is not declared safe, the result of
    [quote] is made of unreserved and safe characters and of escapes, a
    percent sign followed by two hexadecimal digits. *)
Theorem quote_well_formed (safe s : string) :
  char_in "%" safe = false -> well_quoted safe (quote safe s) = true.
Proof.
  intros Hsafe. induction s as [|c s IH]; [done|]. cbn [quote].
  destruct (is_unreserved c || char_in c safe) eqn:Hc.
  - cbn [well_quoted]. rewrite Hc, IH.
    destruct (Ascii.eqb_spec c "%") as [->|_]; [|done]. by rewrite Hsafe in Hc.
  - destruct (ascii_code_split c) as [Hd Hm]. cbn [well_quoted].
    change (Ascii.eqb "%" "%") with true. cbn iota.
    by rewrite !hex_digit_is_hex, IH.
Qed.

Lemma quote_well_formed_witness :
  well_quoted "," (quote "," "Red Line/2,Blue") = true.
Proof. apply (quote_well_formed "," "Red Line/2,Blue"). reflexivity. Defined.

Lemma quote_inj (safe s1 s2 : string) :
  char_in "%" safe = false -> quote safe s1 = quote safe s2 -> s1 = s2.
Proof.
  intros Hsafe. revert s2. induction s1 as [|c1 s1 IH]; intros [|c2 s2]; cbn [quote].
  - done.
  - by destruct (is_unreserved c2 || char_in c2 safe).
  - by destruct (is_unreserved c1 || char_in c1 safe).
  - destruct (is_unreserved c1 || char_in c1 safe) eqn:H1,
             (is_unreserved c2 || char_in c2 safe) eqn:H2.
    + intros [= -> Hq]. f_equal. by apply IH.
    + intros [= -> _]. by rewrite Hsafe in H1.
    + intros [= <- _]. by rewrite Hsafe in H2.
    + destruct (ascii_code_split c1) as [Hd1 Hm1], (ascii_code_split c2) as [Hd2 Hm2].
      intros [= Hd%hex_digit_inj Hm%hex_digit_inj Hq]; [|done..].
      f_equal; [by apply ascii_of_halves|by apply IH].
Qed.

(** X19.  When the percent sign is not declared safe, [quote] loses
    nothing: two strings with the same encoding are the same string. *)
Theorem quote_injective (safe s1 s2 : string) :
  char_in "%" safe = false -> quote safe s1 = quote safe s2 -> s1 = s2.
Proof. apply quote_inj. Qed.

Lemma quote_injective_witness :
  quote "," "a b" = "a%20b" ∧ "a b" = "a b".
Proof. split; [reflexivity|]. apply (quote_injective "," "a b" "a b"); reflexivity. Defined.

Lemma string_length_append (a b : string) :
  String.length (String.append a b) = (String.length a + String.length b)%nat.
Proof. induction a as [|c a IH]; simpl; [done|]. by rewrite IH. Qed.

Lemma string_append_inj_l (p a b : string) :
  String.append p a = String.append p b -> a = b.
Proof. induction p as [|c p IH]; simpl; [done|]. intros [= H]. by apply IH. Qed.

Lemma string_append_inj_r (a b s : string) :
  String.append a s = String.append b s -> a = b.
Proof.
  revert b. induction a as [|c a IH]; intros [|d b]; simpl; [done|..].
  - intros H. apply (f_equal String.length) in H.
    rewrite !string_length_append in H. cbn [String.length] in H. lia.
  - intros H. apply (f_equal String.length) in H.
    rewrite !string_length_append in H. cbn [String.length] in H. lia.
  - intros [= -> H]. f_equal. by apply IH.
Qed.

(** X20.  The address tells the comma-joined route names apart and nothing
    more: two non-empty lists get the same address exactly when joining their
    names with commas gives the same string. *)
Theorem view_on_map_same_address (l1 l2 : list string) :
  l1 ≠ [] -> l2 ≠ [] ->
  (view_on_map l1 = view_on_map l2 ↔ String.concat "," l1 = String.concat "," l2).
Proof.
  intros H1 H2. destruct l1 as [|x1 l1], l2 as [|x2 l2]; try done.
  unfold view_on_map. split; [|by intros ->].
  intros H. apply (inj Some) in H.
  apply (string_append_inj_l base_url), (string_append_inj_l "Path="),
    string_append_inj_r in H.
  by apply quote_inj in H.
Qed.

Lemma view_on_map_same_address_witness :
  view_on_map ["Red,Blue"] = view_on_map ["Red"; "Blue"] ↔
  String.concat "," ["Red,Blue"] = String.concat "," ["Red"; "Blue"].
Proof. apply (view_on_map_same_address ["Red,Blue"] ["Red"; "Blue"]); discriminate. Defined.

(** A route name that holds a comma cannot be told from two names. *)
Example comma_merges_names : view_on_map ["Red,Blue"] = view_on_map ["Red"; "Blue"].
Proof. reflexivity. Qed.

(** X21.  [quote] leaves a string of unreserved and safe characters as it
    is, and in general makes a string no shorter and at most three times as
    long. *)
Theorem quote_length (safe s : string) :
  (String.length s ≤ String.length (quote safe s) ≤ 3 * String.length s)%nat ∧
  (string_forall (λ c, is_unreserved c || char_in c safe) s = true -> quote safe s = s).
Proof.
  induction s as [|c s [IHlen IHid]]; [done|]. cbn [quote string_forall].
  destruct (is_unreserved c || char_in c safe); cbn [String.length andb].
  - split; [lia|]. intros H. by rewrite IHid.
  - split; [lia|done].
Qed.

Lemma quote_length_witness : quote "," "RedLine,2" = "RedLine,2".
Proof. apply (proj2 (quote_length "," "RedLine,2")). reflexivity. Defined.

(** ** Names shown and names queried *)

Lemma append_cons (x : Ascii.ascii) (a b : string) :
  String.append (String x a) b = String x (String.append a b).
Proof. reflexivity. Qed.

Lemma append_nil (b : string) : String.append "" b = b.
Proof. reflexivity. Qed.

Lemma string_append_assoc (a b c : string) :
  String.append (String.append a b) c = String.append a (String.append b c).
Proof. induction a as [|x a IH]; [done|]. by rewrite !append_cons, IH. Qed.

Lemma substring_whole (b : string) : String.substring 0 (String.length b) b = b.
Proof. induction b as [|y b IH]; cbn [String.substring String.length]; [done|]. by rewrite IH. Qed.

Lemma substring_at_end (a b : string) :
  String.substring (String.length a) (String.length b) (String.append a b) = b.
Proof.
  induction a as [|x a IH]; rewrite ?append_nil, ?append_cons;
    cbn [String.length String.substring]; [apply substring_whole|done].
Qed.

Lemma ends_with_append (a b : string) : ends_with (String.append a b) b = true.
Proof.
  unfold ends_with. rewrite string_length_append.
  replace (String.length a + String.length b - String.length b)%nat
    with (String.length a) by lia.
  rewrite substring_at_end, String.eqb_refl, andb_true_r. apply Nat.leb_le. lia.
Qed.

Lemma prefix_empty (s : string) : String.prefix "" s = true.
Proof. by destruct s. Qed.

Lemma prefix_append (sub b : string) : String.prefix sub (String.append sub b) = true.
Proof.
  induction sub as [|y sub IH]; rewrite ?append_nil, ?append_cons; [apply prefix_empty|].
  cbn [String.prefix]. by destruct (Ascii.ascii_dec y y).
Qed.

Lemma contains_prefix (sub s : string) : String.prefix sub s = true -> contains sub s = true.
Proof. intros H. destruct s; cbn [contains]; by rewrite H. Qed.

Lemma contains_append (sub a b : string) :
  contains sub (String.append a (String.append sub b)) = true.
Proof.
  induction a as [|x a IH]; rewrite ?append_nil, ?append_cons.
  - apply contains_prefix, prefix_append.
  - cbn [contains]. rewrite IH. by destruct (String.prefix sub _).
Qed.

Lemma split_first_name (name rest : string) :
  contains " (" name = false ->
  split_first " (" (String.append name (String.append " (" rest)) = name.
Proof.
  change (String.append " (" rest) with (String " " (String "(" rest)).
  induction name as [|c name IH].
  - intros _. rewrite append_nil. cbn [split_first String.prefix].
    destruct (Ascii.ascii_dec " " " "); [|done].
    destruct (Ascii.ascii_dec "(" "("); [|done]. by rewrite prefix_empty.
  - rewrite append_cons. cbn [contains split_first].
    destruct (String.prefix " (" (String c name)) eqn:Hp; [done|]. intros Hc.
    assert (String.prefix " (" (String c (String.append name (String " " (String "(" rest))))
            = false) as ->; [|by rewrite IH].
    cbn [String.prefix] in Hp |- *. destruct (Ascii.ascii_dec " " c) as [<-|]; [|done].
    destruct name as [|d name]; rewrite ?append_nil, ?append_cons;
      cbn [String.prefix] in Hp |- *; [by destruct (Ascii.ascii_dec "(" " ")|].
    destruct (Ascii.ascii_dec "(" d) as [<-|]; [|done]. by rewrite prefix_empty in Hp.
Qed.

Lemma extract_of_display (name owner : string) :
  contains " (" name = false ->
  extract_location_name (display_name name owner) = name.
Proof.
  intros Hname. unfold display_name, extract_location_name.
  destruct (negb (String.eqb owner "") && negb (String.eqb owner "Public Land")
            && negb (contains (lower owner) (lower name))).
  - rewrite contains_append.
    rewrite <- (string_append_assoc " (" owner ")"), <- string_append_assoc.
    rewrite ends_with_append. cbn [andb].
    rewrite string_append_assoc, (string_append_assoc " (" owner ")").
    by apply split_first_name.
  - by rewrite Hname.
Qed.

(** X22.  The name taken out of an entry of the selection boxes is the
    name the entry was made from, with or without an owner, as long as the
    name does not contain " (". *)
Theorem extract_display_name (name owner : string) :
  contains " (" name = false ->
  extract_location_name (display_name name owner) = name.
Proof. apply extract_of_display. Qed.

Lemma extract_display_name_witness :
  extract_location_name (display_name "Guard Tower" "Ann") = "Guard Tower".
Proof. apply (extract_display_name "Guard Tower" "Ann"). reflexivity. Defined.

(** A name that contains " (" and ends with ")" is cut when it is taken
    out of its own entry. *)
Example extract_cuts_parenthesis :
  extract_location_name (display_name "Base (North)" "") = "Base".
Proof. reflexivity. Qed.



Lemma head_filter_Some {A : Type} (P : A -> bool) (l : list A) (x : A) :
  head (List.filter P l) = Some x -> x ∈ l ∧ P x = true.
Proof.
  intros H. assert (In x (List.filter P l)) as Hin.
  { destruct (List.filter P l); [done|]. injection H as ->. by left. }
  apply List.filter_In in Hin as [? ?]. split; [by apply list_elem_of_In|done].
Qed.

Lemma resolve_name_Some (d : list (string * Point)) (name m : string) :
  resolve_name d name = Some m ->
  m ∈ d.*1 ∧
  (m = name ∨ contains (lower name) (lower m) || contains (lower m) (lower name) = true).
Proof.
  unfold resolve_name. case_decide as Hin.
  - intros [= <-]. auto.
  - intros [Hm HP]%head_filter_Some. auto.
Qed.

(** X23.  [resolve_name] gives a known name or nothing; it gives a known
    name back as it is; any other name stands for the first known name
    that contains it or is contained in it, letter case set aside -- so that
    the empty name, when it is not a location, stands for the first
    location. *)
Theorem resolve_name_spec (d : list (string * Point)) (name : string) :
  (∀ m, resolve_name d name = Some m ->
        m ∈ d.*1 ∧
        (m = name ∨
         contains (lower name) (lower m) || contains (lower m) (lower name) = true)) ∧
  (name ∈ d.*1 -> resolve_name d name = Some name) ∧
  ("" ∉ d.*1 -> resolve_name d "" = head d.*1).
Proof.
  split; [|split].
  - intros m. apply resolve_name_Some.
  - apply resolve_name_known.
  - intros Hno. unfold resolve_name. rewrite decide_False by done. f_equal.
    generalize (d.*1). intros l. change (lower "") with "".
    induction l as [|k l IH]; [done|]. cbn [List.filter].
    rewrite (contains_prefix "" (lower k) (prefix_empty _)). cbn [orb]. by rewrite IH.
Qed.

Lemma resolve_name_spec_witness :
  resolve_name (name_to_coord (build_graph_from_excel hypot_up df_example false)) "mar"
    = Some "Market" ∧
  resolve_name (name_to_coord (build_graph_from_excel hypot_up df_example false)) ""
    = Some "Home".
Proof.
  split; [reflexivity|].
  apply (proj2 (proj2 (resolve_name_spec
           (name_to_coord (build_graph_from_excel hypot_up df_example false)) ""))).
  vm_compute. intros H. repeat (apply elem_of_cons in H as [H|H]; [discriminate|]).
  by apply elem_of_nil in H.
Defined.



Example session_locations_owned :
  session_locations hypot_up df_owned = ["Harbor"; "Mike's Base"; "Tower (Ann)"].
Proof. reflexivity. Qed.

(** ** Outcomes of a query *)

Lemma find_route_unresolved (hypot : Z -> Z -> Q) (df : list row) (f : bool) (A B : string) :
  resolve_name (name_to_coord (build_graph_from_excel hypot df f)) A = None ∨
  resolve_name (name_to_coord (build_graph_from_excel hypot df f)) B = None ->
  find_route hypot df f A B = Ret LocationNotFound.
Proof. unfold find_route. intros [->| ->]; [done|]. by destruct (resolve_name _ A). Qed.

(** For two known names the search reaches the goal, whatever the
    weights, and the segment loop accepts the list it returns. *)
Lemma find_route_found (hypot : Z -> Z -> Q) (df : list row) (f : bool) (A B : string) :
  A ∈ (name_to_coord (build_graph_from_excel hypot df f)).*1 ->
  B ∈ (name_to_coord (build_graph_from_excel hypot df f)).*1 ->
  ∃ r, find_route hypot df f A B = Ret (RouteFound r).
Proof.
  intros HA HB. unfold find_route.
  rewrite (resolve_name_known _ A HA), (resolve_name_known _ B HB).
  destruct (dict_get_elem _ A HA) as (cA & -> & HcA).
  destruct (dict_get_elem _ B HB) as (cB & -> & HcB).
  destruct (known_names_connected hypot df f A B cA cB HcA HcB) as [c Hwalk].
  destruct (dijkstra_reaches _ _ _ _ Hwalk) as (path & t & -> & Htr).
  destruct (reconstruct_trace _ _ _
              (coord_pair_to_path (build_graph_from_excel hypot df f)) _ _ Htr)
    as (r & -> & _).
  exists r. apply is_trace_last in Htr. by destruct path.
Qed.

Lemma find_route_resolved (hypot : Z -> Z -> Q) (df : list row) (f : bool)
    (A B A' B' : string) :
  resolve_name (name_to_coord (build_graph_from_excel hypot df f)) A = Some A' ->
  resolve_name (name_to_coord (build_graph_from_excel hypot df f)) B = Some B' ->
  find_route hypot df f A B = find_route hypot df f A' B' ∧
  ∃ r, find_route hypot df f A' B' = Ret (RouteFound r).
Proof.
  intros HA HB.
  destruct (resolve_name_Some _ _ _ HA) as [HA' _].
  destruct (resolve_name_Some _ _ _ HB) as [HB' _].
  split; [|by apply find_route_found].
  unfold find_route. rewrite HA, HB.
  by rewrite (resolve_name_known _ A' HA'), (resolve_name_known _ B' HB').
Qed.

(** X25.  Whatever the sheet, the "No path found" branch of the query is
    never reached; the query reports that it could not find a location
    exactly when one of the two names stands for no known location; and
    otherwise it is the query for the two names they stand for. *)
Theorem find_route_outcomes (hypot : Z -> Z -> Q) (df : list row) (f : bool)
    (A B : string) :
  find_route hypot df f A B ≠ Ret NoPathFound ∧
  (find_route hypot df f A B = Ret LocationNotFound ↔
   resolve_name (name_to_coord (build_graph_from_excel hypot df f)) A = None ∨
   resolve_name (name_to_coord (build_graph_from_excel hypot df f)) B = None) ∧
  (∀ A' B',
     resolve_name (name_to_coord (build_graph_from_excel hypot df f)) A = Some A' ->
     resolve_name (name_to_coord (build_graph_from_excel hypot df f)) B = Some B' ->
     find_route hypot df f A B = find_route hypot df f A' B').
Proof.
  destruct (resolve_name (name_to_coord (build_graph_from_excel hypot df f)) A)
    as [A'|] eqn:HA;
    [destruct (resolve_name (name_to_coord (build_graph_from_excel hypot df f)) B)
       as [B'|] eqn:HB|].
  - destruct (find_route_resolved hypot df f A B A' B' HA HB) as [Heq [r Hr]].
    rewrite Heq, Hr. split; [done|]. split; [|by intros ? ? [= <-] [= <-]].
    split; [done|]. by intros [?|?].
  - rewrite (find_route_unresolved hypot df f A B) by (right; done).
    split; [done|]. split; [|done]. split; auto.
  - rewrite (find_route_unresolved hypot df f A B) by (left; done).
    split; [done|]. split; [|done]. split; auto.
Qed.

(** X26.  The Route Details block comes to an end.  It keeps the stored
    route when Find is not pressed and when the two selections are the
    same.  It never shows "No path found".  The stored route changes only to
    a newly found route, or to nothing in the [except] branch. *)
Theorem route_details_changes (hypot : Z -> Z -> Q) (df : list row)
    (stored : option stored_route) (find_path : bool) (origin destination : string)
    (include_ice_highways : bool) :
  ∃ new shown,
    route_details hypot df stored find_path origin destination include_ice_highways
      = Ret (new, shown) ∧
    (find_path = false ∨ origin = destination -> new = stored) ∧
    shown ≠ ErrorNoPath ∧
    (new = stored ∨
     (shown = ShowNewRoute ∧ is_Some new) ∨
     (shown = ErrorException ∧ new = None)).
Proof.
  unfold route_details.
  destruct find_path; cbn [andb negb orb].
  2: { destruct (bool_decide (is_Some stored)); eexists _, _;
         (split; [reflexivity|]); repeat split; auto; done. }
  destruct (negb (String.eqb origin "") && negb (String.eqb destination "")
            || bool_decide (is_Some stored)) eqn:Hcond.
  2: { apply orb_false_elim in Hcond as [Hsel Hst]. apply bool_decide_eq_false in Hst.
       assert (None = stored) as Hnone.
       { destruct stored; [|done]. destruct Hst. eauto. }
       eexists _, _. split; [reflexivity|]. split; [done|]. split; [done|]. by left. }
  destruct (String.eqb_spec origin destination) as [->|Hne].
  { eexists _, _. split; [reflexivity|]. repeat split; auto; done. }
  destruct (resolve_name (name_to_coord (build_graph_from_excel hypot df include_ice_highways))
              (extract_location_name origin)) as [A'|] eqn:HA;
    [destruct (resolve_name
                 (name_to_coord (build_graph_from_excel hypot df include_ice_highways))
                 (extract_location_name destination)) as [B'|] eqn:HB|].
  - destruct (find_route_resolved hypot df include_ice_highways _ _ A' B' HA HB)
      as [Heq [r Hr]].
    rewrite Heq, Hr.
    eexists _, _. split; [reflexivity|]. split; [|split; [done|]].
    + intros [?|?]; [done|congruence].
    + right. left. eauto.
  - rewrite (find_route_unresolved hypot df include_ice_highways _ _ (or_intror HB)).
    eexists _, _. split; [reflexivity|]. split; [|split; [done|]]; auto.
  - rewrite (find_route_unresolved hypot df include_ice_highways _ _ (or_introl HA)).
    eexists _, _. split; [reflexivity|]. split; [|split; [done|]]; auto.
Qed.

Lemma resolve_empty_name (d : list (string * Point)) :
  "" ∉ d.*1 -> resolve_name d "" = head d.*1.
Proof.
  intros Hno. unfold resolve_name. rewrite decide_False by done. f_equal.
  generalize (d.*1). intros l. change (lower "") with "".
  induction l as [|k l IH]; [done|]. cbn [List.filter].
  rewrite (contains_prefix "" (lower k) (prefix_empty _)). cbn [orb]. by rewrite IH.
Qed.

(** X27.  With a route stored, pressing Find with no origin selected does
    not give the "select both" warning: the empty selection stands for the
    first location of the sheet, the query is the query from that location,
    and a route it finds is stored with that location as its origin. *)
Theorem missing_origin_searches_from_first (hypot : Z -> Z -> Q) (df : list row)
    (st : stored_route) (destination : string) (f : bool) (first : string) :
  "" ∉ (name_to_coord (build_graph_from_excel hypot df f)).*1 ->
  head (name_to_coord (build_graph_from_excel hypot df f)).*1 = Some first ->
  destination ≠ "" ->
  find_route hypot df f "" (extract_location_name destination)
    = find_route hypot df f first (extract_location_name destination) ∧
  ∃ new shown,
    route_details hypot df (Some st) true "" destination f = Ret (new, shown) ∧
    shown ≠ WarnSelectBoth ∧ shown ≠ WarnSameEnds ∧
    (shown = ShowNewRoute ->
     ∃ r, new = Some r ∧ origin_name r = first ∧
          find_route hypot df f first (extract_location_name destination)
            = Ret (RouteFound (stored_results r))).
Proof.
  intros Hno Hfirst Hdest.
  assert (resolve_name (name_to_coord (build_graph_from_excel hypot df f)) "" = Some first)
    as HA by (by rewrite resolve_empty_name).
  assert (first ∈ (name_to_coord (build_graph_from_excel hypot df f)).*1) as Hknown.
  { by destruct (resolve_name_Some _ _ _ HA). }
  assert (find_route hypot df f "" (extract_location_name destination)
          = find_route hypot df f first (extract_location_name destination)) as Heq.
  { unfold find_route. by rewrite HA, (resolve_name_known _ first Hknown). }
  split; [done|]. unfold route_details.
  rewrite bool_decide_eq_true_2 by eauto. cbn [andb negb orb].
  destruct (String.eqb_spec "" destination) as [<-|_]; [done|].
  change (extract_location_name "") with "". rewrite Heq, HA.
  destruct (find_route hypot df f first (extract_location_name destination))
    as [|[| | |r]] eqn:Hr.
  - exfalso.
    destruct (resolve_name (name_to_coord (build_graph_from_excel hypot df f))
                (extract_location_name destination)) as [B'|] eqn:HB.
    + destruct (find_route_resolved hypot df f first _ first B'
                  (resolve_name_known _ first Hknown) HB) as [Heq' [r' Hr']].
      congruence.
    + rewrite (find_route_unresolved hypot df f first _ (or_intror HB)) in Hr. done.
  - eexists _, _. split; [reflexivity|]. repeat split; done.
  - eexists _, _. split; [reflexivity|]. repeat split; done.
  - eexists _, _. split; [reflexivity|]. repeat split; done.
  - eexists _, _. split; [reflexivity|]. split; [done|]. split; [done|].
    intros _. eexists. split; [reflexivity|]. done.
Qed.

Lemma missing_origin_searches_from_first_witness :
  find_route hypot_up df_example true "" (extract_location_name "Dock")
    = find_route hypot_up df_example true "Home" (extract_location_name "Dock") ∧
  ∃ new shown,
    route_details hypot_up df_example
      (Some {| origin_name := "Dock"; dest_name := "Home";
               stored_results := {| total_time := 0; total_distance := 0;
                                    route_steps := []; rail_paths := [] |} |})
      true "" "Dock" true = Ret (new, shown) ∧
    shown ≠ WarnSelectBoth ∧ shown ≠ WarnSameEnds ∧
    (shown = ShowNewRoute ->
     ∃ r, new = Some r ∧ origin_name r = "Home" ∧
          find_route hypot_up df_example true "Home" (extract_location_name "Dock")
            = Ret (RouteFound (stored_results r))).
Proof.
  apply (missing_origin_searches_from_first hypot_up df_example
           {| origin_name := "Dock"; dest_name := "Home";
              stored_results := {| total_time := 0; total_distance := 0;
                                   route_steps := []; rail_paths := [] |} |}
           "Dock" true "Home").
  - vm_compute. intros H. repeat (apply elem_of_cons in H as [H|H]; [discriminate|]).
    by apply elem_of_nil in H.
  - reflexivity.
  - discriminate.
Defined.

(** ** Names of the steps *)

Lemma coord_named (hypot : Z -> Z -> Q) (df : list row) (f : bool) (c : Point) :
  c ∈ (name_to_coord (build_graph_from_excel hypot df f)).*2 ->
  ∃ n, coord_to_name (name_to_coord (build_graph_from_excel hypot df f)) !! c = Some n ∧
       n ∈ (name_to_coord (build_graph_from_excel hypot df f)).*1 ∧
       is_Some (dict_get (owner_lookup (build_graph_from_excel hypot df f)) n).
Proof.
  intros Hc. unfold coord_to_name.
  destruct (coord_to_name_from (name_to_coord (build_graph_from_excel hypot df f)) ∅ c)
    as (H1 & H2 & _).
  destruct (H2 (or_intror Hc)) as [n Hn]. exists n. split; [done|].
  destruct (H1 n Hn) as [Habs|Hin]; [by rewrite lookup_empty in Habs|].
  assert (n ∈ (name_to_coord (build_graph_from_excel hypot df f)).*1) as Hname.
  { apply list_elem_of_fmap. by exists (n, c). }
  split; [done|].
  rewrite name_to_coord_build, names_known in Hname.
  destruct (dict_get_elem (owner_lookup (build_graph_from_excel hypot df f)) n) as (o & -> & _);
    [|done].
  by rewrite owner_lookup_build, owner_lookup_known, <- list_fmap_compose.
Qed.

Lemma edge_ends_in_sheet (hypot : Z -> Z -> Q) (df : list row) (f : bool) p q w (m : string) :
  (q, w, m) ∈ graph_get (graph (build_graph_from_excel hypot df f)) p ->
  (∃ x, x ∈ df ∧ p = row_coord x) ∧ (∃ y, y ∈ df ∧ q = row_coord y).
Proof.
  assert (∀ x, x ∈ known_locations df -> x ∈ df) as Hknown.
  { unfold known_locations. generalize (@nil string). induction df as [|r df IH];
      intros seen x; cbn [first_rows]; [done|].
    case_decide; [intros ?%IH; by right|].
    intros [->|?%IH]%elem_of_cons; [by left|by right]. }
  assert (∀ (l : list row) a b, (a, b) ∈ index_pairs l -> a ∈ l ∧ b ∈ l) as Hpairs.
  { intros l a b (i & j & _ & Hi & Hj)%elem_of_index_pairs.
    split; by eapply list_elem_of_lookup_2. }
  intros He. destruct (edge_of_build hypot df f p q w m He)
    as [(_ & name & r1 & r2 & Hf & _ & Hab)
       |[(_ & _ & x & y & Hxy & _ & Hab)|(_ & x & y & Hxy & _ & Hab)]].
  - assert (r1 ∈ df ∧ r2 ∈ df) as [H1 H2].
    { assert (∀ r, r ∈ [r1; r2] -> r ∈ df) as H.
      { intros r Hr. rewrite <- Hf in Hr. apply list_elem_of_In, List.filter_In in Hr as [Hr _].
        by apply list_elem_of_In. }
      split; apply H; [by left|right; by left]. }
    destruct Hab as [[-> ->]|[-> ->]]; split; eauto.
  - apply Hpairs in Hxy as [Hx Hy].
    apply list_elem_of_In, List.filter_In in Hx as [Hx%list_elem_of_In%Hknown _].
    apply list_elem_of_In, List.filter_In in Hy as [Hy%list_elem_of_In%Hknown _].
    destruct Hab as [[-> ->]|[-> ->]]; split; eauto.
  - apply Hpairs in Hxy as [Hx%Hknown Hy%Hknown].
    destruct Hab as [[-> ->]|[-> ->]]; split; eauto.
Qed.

(** X28.  When every row of the sheet lies at the point of a known name,
    both ends of every step of a found route have a name in
    [coord_to_name], and the name of the far end has an owner in
    [owner_lookup]: the step descriptions never fall back on bare
    coordinates or on the owner "Unknown". *)
Theorem step_ends_are_named (hypot : Z -> Z -> Q) (df : list row) (f : bool)
    (s goal : Point) (coord_pair_to_path : gmap (Point * Point) string) path r :
  (∀ x, x ∈ df -> row_coord x ∈ (name_to_coord (build_graph_from_excel hypot df f)).*2) ->
  dijkstra (graph (build_graph_from_excel hypot df f)) s goal = Ret (Some path) ->
  reconstruct coord_pair_to_path path = Some r ->
  Forall (λ st,
            ∃ current_name next_name,
              coord_to_name (name_to_coord (build_graph_from_excel hypot df f))
                !! step_from st = Some current_name ∧
              coord_to_name (name_to_coord (build_graph_from_excel hypot df f))
                !! step_to st = Some next_name ∧
              is_Some (dict_get (owner_lookup (build_graph_from_excel hypot df f)) next_name))
         (route_steps r).
Proof.
  intros Hrows (t & Htr & _)%dijkstra_trace Hrun. unfold reconstruct in Hrun.
  eapply (segment_loop_invariant _ _ (λ x, Forall _ (route_steps x)));
    [| |exact Hrun]; [|by constructor].
  intros i st a ta m b tb H0 H1 H2 Hst. cbn [route_steps].
  apply Forall_app. split; [done|]. constructor; [|constructor]. cbn [step_from step_to].
  destruct (is_trace_segment _ _ _ _ _ Htr i a ta m b tb H0 H1 H2) as (w & _ & He).
  destruct (edge_ends_in_sheet hypot df f a b w m He) as [(x & Hx & ->) (y & Hy & ->)].
  destruct (coord_named hypot df f _ (Hrows x Hx)) as (n1 & Hn1 & _).
  destruct (coord_named hypot df f _ (Hrows y Hy)) as (n2 & Hn2 & _ & Ho).
  eauto.
Qed.

Lemma step_ends_are_named_witness :
  Forall (λ st,
            ∃ current_name next_name,
              coord_to_name (name_to_coord (build_graph_from_excel hypot_up df_example true))
                !! step_from st = Some current_name ∧
              coord_to_name (name_to_coord (build_graph_from_excel hypot_up df_example true))
                !! step_to st = Some next_name ∧
              is_Some (dict_get (owner_lookup (build_graph_from_excel hypot_up df_example true))
                         next_name))
         [{| step_mode := "normal"; step_from := (0, 0); step_to := (30, 0);
             step_distance := (30 # 8) * 8; step_time := (30 # 8) - 0 |}].
Proof.
  apply (step_ends_are_named hypot_up df_example true (0, 0) (30, 0) ∅
           [Hop (0, 0) 0%Q; Mode "normal"; Hop (30, 0) (30 # 8)%Q]
           {| total_time := (30 # 8); total_distance := 0 + ((30 # 8) - 0) * 8;
              route_steps := [{| step_mode := "normal"; step_from := (0, 0);
                                 step_to := (30, 0);
                                 step_distance := ((30 # 8) - 0) * 8;
                                 step_time := (30 # 8) - 0 |}];
              rail_paths := [] |}).
  - intros x Hx. vm_compute in Hx |- *.
    repeat (apply elem_of_cons in Hx as [->|Hx]; [in_computed_list|]).
    by apply elem_of_nil in Hx.
  - reflexivity.
  - reflexivity.
Defined.

(** A row that repeats a name at another point gives the graph a node
    without a name: the route from "A" to "B" stops at (100, 0), which
    [coord_to_name] does not know. *)
Example unnamed_stop :
  ∃ r, find_route hypot_up df_unnamed false "A" "B" = Ret (RouteFound r) ∧
       step_to <$> route_steps r = [(100, 0); (200, 0)] ∧
       coord_to_name (name_to_coord (build_graph_from_excel hypot_up df_unnamed false))
         !! (100, 0) = None.
Proof. eexists. split; [vm_compute; reflexivity|]. split; reflexivity. Qed.

(** ** The map link *)

Lemma quote_app safe a b :
  quote safe (String.append a b) = String.append (quote safe a) (quote safe b).
Proof.
  induction a as [|c a IH]; simpl; [done|].
  destruct (is_unreserved c || char_in c safe); simpl; by rewrite IH.
Qed.

Lemma quote_concat_comma (l : list string) :
  quote "," (String.concat "," l) = String.concat "," (quote "," <$> l).
Proof.
  induction l as [|x l IH]; [done|].
  destruct l as [|y l]; [done|].
  change (String.concat "," (x :: y :: l))
    with (String.append x (String.append "," (String.concat "," (y :: l)))).
  rewrite !quote_app, IH. reflexivity.
Qed.

(** C10.  [view_on_map] returns [None] on the empty list of route names and
    on no other list; on a non-empty list it returns the URL made of the
    base address, [Path=], the percent-encoded route names joined by commas,
    and the embedding parameters. *)
Theorem view_on_map_spec (rail_paths : list string) :
  (rail_paths = [] -> view_on_map rail_paths = None) ∧
  (rail_paths ≠ [] ->
   view_on_map rail_paths =
     Some (String.append base_url
             (String.append "Path="
                (String.append (String.concat "," (quote "," <$> rail_paths))
                   embed_parameters)))) ∧
  (view_on_map rail_paths = None -> rail_paths = []).
Proof.
  split; [by intros ->|]. split.
  - intros Hne. destruct rail_paths as [|x l]; [done|].
    unfold view_on_map. by rewrite quote_concat_comma.
  - by destruct rail_paths.
Qed.

Lemma view_on_map_spec_witness :
  ["Red Line"; "a/b"] ≠ [] ∧
  view_on_map ["Red Line"; "a/b"] =
    Some (String.append base_url
            (String.append "Path=" (String.append "Red%20Line,a%2Fb" embed_parameters))).
Proof.
  split; [discriminate|].
  exact (proj1 (proj2 (view_on_map_spec ["Red Line"; "a/b"])) ltac:(discriminate)).
Defined.
